(** * The corner mesh of geode: [TriangleTopology] and [MutableTriangleTopology]

    A shallow embedding of [src/conversions/TriangleTopology.h], of the
    part of [src/geode/array/Field.h] it relies on, and of the filter macro
    of [src/geode/exact/debug.h].  The C++ [int] is a 32-bit two's
    complement integer, modelled as [Z] with the wrap-around written out;
    arrays are lists; a read outside an array is a fault, modelled by
    [None]. *)

From stdpp Require Import base numbers option list gmap.

Open Scope Z_scope.

(** ** Machine integers *)

Definition int_min : Z := - 2 ^ 31.
Definition int_max : Z := 2 ^ 31 - 1.

Definition is_int (z : Z) : Prop := int_min ≤ z ≤ int_max.

(** Reduction of a mathematical integer to the 32-bit signed range. *)
Definition wrap (z : Z) : Z := (z + 2 ^ 31) mod 2 ^ 32 - 2 ^ 31.

Definition int_add (a b : Z) : Z := wrap (a + b).
Definition int_sub (a b : Z) : Z := wrap (a - b).
Definition int_mul (a b : Z) : Z := wrap (a * b).
(** [/] and [%] of C++ truncate towards zero. *)
Definition int_div (a b : Z) : Z := Z.quot a b.
Definition int_rem (a b : Z) : Z := Z.rem a b.
(** [>>] on a signed int is an arithmetic shift. *)
Definition int_shr (a n : Z) : Z := Z.shiftr a n.

(** Two expressions of the code cannot leave the range of [int] whatever
    their [int] operands are, and are written without reduction: [-1-e.id]
    (the slot of a boundary halfedge), and [e.id-3*f] where [f] is [e.id/3]
    (the corner of an interior halfedge). *)

(** ** Typed handles *)

Inductive kind := Vertex | Face | Halfedge.

#[global] Instance kind_eq_dec : EqDecision kind.
Proof. solve_decision. Defined.

(** One record for the three handle types of [ids.h]; the kind is a phantom
    index, so that a [VertexId] is never confused with a [FaceId]. *)
Record Id (k : kind) := MkId { id : Z }.
Arguments MkId {k} _.
Arguments id {k} _.

Abbreviation VertexId := (Id Vertex).
Abbreviation FaceId := (Id Face).
Abbreviation HalfedgeId := (Id Halfedge).

#[global] Instance Id_eq_dec k : EqDecision (Id k).
Proof. solve_decision. Defined.

Definition idx {k} (i : Id k) : Z := id i.

(** ** Small vectors and arrays *)

Module Vector3.
Record t (A : Type) := mk { x : A; y : A; z : A }.
Arguments mk {A} _ _ _.
Arguments x {A} _.
Arguments y {A} _.
Arguments z {A} _.

(** [operator[]]: an index outside [0,3) is a fault. *)
Definition get {A} (v : t A) (i : Z) : option A :=
  if i =? 0 then Some (x v)
  else if i =? 1 then Some (y v)
  else if i =? 2 then Some (z v)
  else None.

Definition set {A} (v : t A) (i : Z) (a : A) : option (t A) :=
  if i =? 0 then Some (mk a (y v) (z v))
  else if i =? 1 then Some (mk (x v) a (z v))
  else if i =? 2 then Some (mk (x v) (y v) a)
  else None.

Definition map {A B} (f : A → B) (v : t A) : t B :=
  mk (f (x v)) (f (y v)) (f (z v)).

Definition contains {A} `{EqDecision A} (v : t A) (a : A) : bool :=
  bool_decide (x v = a) || bool_decide (y v = a) || bool_decide (z v = a).
End Vector3.

Module Array.
Definition size {A} (l : list A) : Z := Z.of_nat (length l).

(** Modelled from the spec: [Array.h] is not among the sources; [valid]
    is the test "within the current array range" of the data model. *)
Definition valid {A} (l : list A) (i : Z) : bool :=
  (0 <=? i) && (i <? size l).

(** [operator[]]: reading outside the array is a fault. *)
Definition get {A} (l : list A) (i : Z) : option A :=
  if valid l i then l !! Z.to_nat i else None.

(** Updating [l[i]] in place: outside the array it is a fault. *)
Definition update {A} (l : list A) (i : Z) (f : A → A) : option (list A) :=
  a ← get l i; Some (<[Z.to_nat i := f a]> l).
End Array.

(** [Field<T,Id>] of [Field.h]: an array indexed by a handle type. *)
Module Field.
Record t (A : Type) (k : kind) := mk { flat : list A }.
Arguments mk {A k} _.
Arguments flat {A k} _.

(** [explicit Field(const int n)]: [n] value-initialised entries. *)
Definition make {A} (k : kind) (n : Z) (dflt : A) : t A k :=
  mk (replicate (Z.to_nat n) dflt).

Definition size {A k} (f : t A k) : Z := Array.size (flat f).
Definition valid {A k} (f : t A k) (i : Id k) : bool :=
  Array.valid (flat f) (idx i).
Definition get {A k} (f : t A k) (i : Id k) : option A :=
  Array.get (flat f) (idx i).
Definition update {A k} (f : t A k) (i : Id k) (g : A → A) : option (t A k) :=
  mk <$> Array.update (flat f) (idx i) g.
End Field.

(** ** The structure arrays *)

Record FaceInfo := MkFaceInfo {
  vertices : Vector3.t VertexId;   (* vertices.x==erased_id if the face is erased *)
  neighbors : Vector3.t HalfedgeId
}.

Module BoundaryInfo.
Record t := mk {
  prev : HalfedgeId;
  next : HalfedgeId;     (* erased boundary edges are chained through next *)
  reverse : HalfedgeId;
  src : VertexId         (* if erased, src = erased_id *)
}.
End BoundaryInfo.

Record TriangleTopology := MkTopology {
  n_vertices_ : Z;
  n_faces_ : Z;
  n_boundary_edges_ : Z;
  faces_ : Field.t FaceInfo Face;
  vertex_to_edge_ : Field.t HalfedgeId Vertex;
  boundaries_ : list BoundaryInfo.t;
  erased_boundaries_ : HalfedgeId
}.

(** The sizes the code computes with [int]s stay inside [int]:
    [3*faces_.size()] is formed by [all_interior_halfedges]. *)
Definition within_limits (m : TriangleTopology) : Prop :=
  3 * Field.size (faces_ m) ≤ int_max ∧
  Field.size (vertex_to_edge_ m) ≤ int_max ∧
  Array.size (boundaries_ m) ≤ int_max.

(** ** The mutable topology *)

(** Modelled from the spec: [UntypedArray.h] is not among the sources.  An
    untyped array carries the tag of its element type and its elements. *)
Record UntypedArray (type_tag value : Type) := MkUntypedArray {
  ua_type : type_tag;
  ua_data : list value
}.
Arguments MkUntypedArray {type_tag value} _ _.
Arguments ua_type {type_tag value} _.
Arguments ua_data {type_tag value} _.

(** [FieldId<T,Id>]; the element type [T] is carried as a tag. *)
Record FieldId (type_tag : Type) (k : kind) := MkFieldId {
  field_type : type_tag;
  field_id : Z
}.
Arguments MkFieldId {type_tag k} _ _.
Arguments field_type {type_tag k} _.
Arguments field_id {type_tag k} _.

Record MutableTriangleTopology (type_tag value : Type) := MkMutable {
  base : TriangleTopology;
  vertex_fields : list (UntypedArray type_tag value);
  face_fields : list (UntypedArray type_tag value);
  halfedge_fields : list (UntypedArray type_tag value);
  id_to_vertex_field : gmap Z Z;
  id_to_face_field : gmap Z Z;
  id_to_halfedge_field : gmap Z Z;
  next_field_id : Z
}.
Arguments MkMutable {type_tag value} _ _ _ _ _ _ _ _.
Arguments base {type_tag value} _.
Arguments vertex_fields {type_tag value} _.
Arguments face_fields {type_tag value} _.
Arguments halfedge_fields {type_tag value} _.
Arguments id_to_vertex_field {type_tag value} _.
Arguments id_to_face_field {type_tag value} _.
Arguments id_to_halfedge_field {type_tag value} _.
Arguments next_field_id {type_tag value} _.

(** What a failing call throws. *)
Inductive exception := AssertionError | KeyError | RuntimeError | ValueError.

(** What [field(id)] gives: an exception, a read outside the vector of
    fields, or the field. *)
Inductive field_result (value : Type) (k : kind) :=
  | FieldThrows (x : exception)
  | FieldFault
  | FieldIs (f : Field.t value k).
Arguments FieldThrows {value k} _.
Arguments FieldFault {value k}.
Arguments FieldIs {value k} _.

(** What running a loop gives: a result, a faulting read, or no answer
    within the given number of iterations. *)
Inductive outcome (A : Type) :=
  | Done (a : A)
  | Fault
  | OutOfFuel.
Arguments Done {A} _.
Arguments Fault {A}.
Arguments OutOfFuel {A}.

Definition outcome_bind {A B} (f : A → outcome B) (o : outcome A) : outcome B :=
  match o with
  | Done a => f a
  | Fault => Fault
  | OutOfFuel => OutOfFuel
  end.
#[global] Instance outcome_mbind : MBind outcome := @outcome_bind.

(** A faulting read makes the whole computation fault. *)
Definition of_option {A} (o : option A) : outcome A :=
  match o with
  | Some a => Done a
  | None => Fault
  end.

(** [TriangleTopologyIter<Id>]: the position and the end of a walk over the
    ids of one kind that skips the erased ones. *)
Record TriangleTopologyIter (k : kind) := MkIter {
  iter_i : Id k;
  iter_end : Id k
}.
Arguments MkIter {k} _ _.
Arguments iter_i {k} _.
Arguments iter_end {k} _.

(** ** The filtered predicates of [exact/debug.h] *)

Section Filter.

(** [Interval] and [weak_sign] are declared in [exact/Interval.h], which is
    not among the sources; they are parameters here. *)
Context {Interval : Type}.
Variable weak_sign : Interval → Z.

(** [FILTER(fast,...)] when [CHECK] is 0, in the version for gcc:
    [_s ? _s>0 : (__VA_ARGS__)].  The second argument is what evaluating
    the slow expression gives, a boolean or an exception; it is looked at
    only if the sign is 0. *)
Definition FILTER (fast : Interval) (slow : exception + bool) : exception + bool :=
  let _s := weak_sign fast in
  if negb (_s =? 0) then inr (0 <? _s) else slow.

(** [filter_helper(fast,slow,line)] *)
Definition filter_helper (fast : Interval) (slow : bool) (line : Z)
  : exception + bool :=
  let sign := weak_sign fast in
  if negb (sign =? 0) && negb (bool_decide ((0 <? sign) = slow))
  then inl AssertionError
  else inr slow.

(** [FILTER(fast,...)] when [CHECK] is not 0: the slow expression is an
    argument of [filter_helper], and is evaluated before the call. *)
Definition FILTER_checked (fast : Interval) (slow : exception + bool) (line : Z)
  : exception + bool :=
  match slow with
  | inl x => inl x
  | inr b => filter_helper fast b line
  end.

End Filter.

(** ** Sample meshes *)

(** Sample values for the two reserved ids, used by the examples only. *)
Definition sample_invalid_id : Z := int_min.
Definition sample_erased_id : Z := int_max.

Definition mk_face (v0 v1 v2 n0 n1 n2 : Z) : FaceInfo :=
  MkFaceInfo (Vector3.mk (MkId v0) (MkId v1) (MkId v2))
             (Vector3.mk (MkId n0) (MkId n1) (MkId n2)).
Definition mk_boundary (p n r s : Z) : BoundaryInfo.t :=
  BoundaryInfo.mk (MkId p) (MkId n) (MkId r) (MkId s).

(** The triangle (0,1,2) alone: interior halfedges 0: 0->1, 1: 1->2,
    2: 2->0, and the boundary loop -1: 1->0, -3: 0->2, -2: 2->1. *)
Definition one_triangle : TriangleTopology :=
  MkTopology 3 1 3
    (Field.mk [mk_face 0 1 2 (-1) (-2) (-3)])
    (Field.mk [MkId (-3); MkId (-1); MkId (-2)])
    [mk_boundary (-2) (-3) 0 1; mk_boundary (-3) (-1) 1 2; mk_boundary (-1) (-2) 2 0]
    (MkId sample_invalid_id).

(** The triangles (0,1,2) and (1,3,2): interior halfedges 0: 0->1, 1: 1->2,
    2: 2->0, 3: 1->3, 4: 3->2, 5: 2->1, and the boundary loop
    -1: 1->0, -2: 0->2, -3: 2->3, -4: 3->1. *)
Definition two_triangles : TriangleTopology :=
  MkTopology 4 2 4
    (Field.mk [mk_face 0 1 2 (-1) 5 (-2); mk_face 1 3 2 (-4) (-3) 1])
    (Field.mk [MkId (-2); MkId (-1); MkId (-3); MkId (-4)])
    [mk_boundary (-4) (-2) 0 1; mk_boundary (-1) (-3) 2 0;
     mk_boundary (-2) (-4) 4 2; mk_boundary (-3) (-1) 3 3]
    (MkId sample_invalid_id).

(** The same two triangles after the flip of the edge 1-2: the triangles
    (0,3,2) and (3,0,1). *)
Definition two_triangles_flipped : TriangleTopology :=
  MkTopology 4 2 4
    (Field.mk [mk_face 0 3 2 3 (-3) (-2); mk_face 3 0 1 0 (-1) (-4)])
    (Field.mk [MkId (-2); MkId (-1); MkId (-3); MkId (-4)])
    [mk_boundary (-4) (-2) 4 1; mk_boundary (-1) (-3) 2 0;
     mk_boundary (-2) (-4) 1 2; mk_boundary (-3) (-1) 5 3]
    (MkId sample_invalid_id).

(** The tetrahedron on the vertices 0, 1, 2, 3, a closed mesh: the faces
    (0,1,2), (0,3,1), (1,3,2) and (0,2,3), and no boundary. *)
Definition tetrahedron : TriangleTopology :=
  MkTopology 4 4 0
    (Field.mk [mk_face 0 1 2 5 8 9; mk_face 0 3 1 11 6 0;
               mk_face 1 3 2 4 10 1; mk_face 0 2 3 2 7 3])
    (Field.mk [MkId 0; MkId 1; MkId 2; MkId 4])
    []
    (MkId sample_invalid_id).

(** The tetrahedron after [split_face] of the face 0, which adds the
    vertex 4, [flip_edge] of the halfedge 0, and [split_edge] of the
    halfedge 7, which adds the vertex 5. *)
Definition tetrahedron_edited : TriangleTopology :=
  MkTopology 6 8 0
    (Field.mk [mk_face 4 3 1 3 6 14; mk_face 3 4 0 0 16 22;
               mk_face 1 3 5 1 21 20; mk_face 0 2 5 15 18 23;
               mk_face 1 2 4 19 17 2; mk_face 2 0 4 9 4 13;
               mk_face 5 2 1 10 12 8; mk_face 5 3 0 7 5 11])
    (Field.mk [MkId 5; MkId 12; MkId 15; MkId 3; MkId 0; MkId 18])
    []
    (MkId sample_invalid_id).

(** The tetrahedron and an isolated vertex 4, and the same after
    [split_face] of the face 2 at the vertex 4. *)
Definition tetrahedron_and_vertex : TriangleTopology :=
  MkTopology 5 4 0
    (Field.mk [mk_face 0 1 2 5 8 9; mk_face 0 3 1 11 6 0;
               mk_face 1 3 2 4 10 1; mk_face 0 2 3 2 7 3])
    (Field.mk [MkId 0; MkId 1; MkId 2; MkId 4; MkId sample_invalid_id])
    []
    (MkId sample_invalid_id).
Definition tetrahedron_split_at_vertex : TriangleTopology :=
  MkTopology 5 6 0
    (Field.mk [mk_face 0 1 2 5 15 9; mk_face 0 3 1 11 6 0;
               mk_face 1 3 4 4 14 16; mk_face 0 2 3 2 12 3;
               mk_face 3 2 4 10 17 7; mk_face 2 1 4 1 8 13])
    (Field.mk [MkId 0; MkId 1; MkId 2; MkId 4; MkId 8])
    []
    (MkId sample_invalid_id).

(** The two triangles after [split_edge] of the boundary halfedge -1,
    which adds the vertex 4, the face (4,1,2) and the boundary halfedge
    -5. *)
Definition two_triangles_split : TriangleTopology :=
  MkTopology 5 3 5
    (Field.mk [mk_face 0 4 2 (-5) 8 (-2); mk_face 1 3 2 (-4) (-3) 7;
               mk_face 4 1 2 (-1) 5 1])
    (Field.mk [MkId (-2); MkId (-1); MkId (-3); MkId (-4); MkId (-5)])
    [mk_boundary (-4) (-5) 6 1; mk_boundary (-5) (-3) 2 0;
     mk_boundary (-2) (-4) 4 2; mk_boundary (-3) (-1) 3 3;
     mk_boundary (-1) (-2) 0 4]
    (MkId sample_invalid_id).

(** A mutable mesh on the triangle, without fields.  Element types are
    told apart by a boolean tag and the values are integers. *)
Definition mutable_triangle : MutableTriangleTopology bool Z :=
  MkMutable one_triangle [] [] [] ∅ ∅ ∅ 0.

(** A mutable mesh with garbage: the triangle (1,2,3) in the face slot 1,
    after the face of slot 0, the vertex 0 and the boundary halfedge of
    slot 0 were erased; with one vertex field and one halfedge field. *)
Definition triangle_with_garbage : MutableTriangleTopology bool Z :=
  MkMutable
    (MkTopology 3 1 3
       (Field.mk [mk_face sample_erased_id 0 0 0 0 0;
                  mk_face 1 2 3 (-2) (-3) (-4)])
       (Field.mk [MkId sample_erased_id; MkId (-4); MkId (-2); MkId (-3)])
       [mk_boundary sample_invalid_id sample_invalid_id 0 sample_erased_id;
        mk_boundary (-3) (-4) 3 2; mk_boundary (-4) (-2) 4 3;
        mk_boundary (-2) (-3) 5 1]
       (MkId (-1)))
    [MkUntypedArray true [10; 11; 12; 13]] []
    [MkUntypedArray false [20; 21; 22; 23; 24; 25]]
    {[ 0 := 0 ]} ∅ {[ 1 := 0 ]} 2.

(** The triangle with a corrupted neighbor: the reverse of the halfedge 2
    is set to the halfedge 0, so that [left] maps 0 to itself. *)
Definition corrupted_triangle : TriangleTopology :=
  MkTopology 3 1 3
    (Field.mk [mk_face 0 1 2 (-1) (-2) 0])
    (Field.mk [MkId (-3); MkId (-1); MkId (-2)])
    [mk_boundary (-2) (-3) 0 1; mk_boundary (-3) (-1) 1 2; mk_boundary (-1) (-2) 2 0]
    (MkId sample_invalid_id).

Section Topology.

(** The two reserved values of [ids.h], which is not among the sources. *)
Variables invalid_id erased_id : Z.

(** Modelled from the spec: [ids.h] is not among the sources.  The default
    handle is the invalid handle, and [Id::valid()] tells a handle from it. *)
Definition Id_default {k} : Id k := MkId invalid_id.
Definition Id_valid {k} (i : Id k) : bool := negb (id i =? invalid_id).

Abbreviation mesh := TriangleTopology.

(** *** Counts *)

Definition n_vertices (m : mesh) : Z := n_vertices_ m.
Definition n_faces (m : mesh) : Z := n_faces_ m.
Definition n_boundary_edges (m : mesh) : Z := n_boundary_edges_ m.
Definition n_edges (m : mesh) : Z :=
  int_shr (int_add (int_mul 3 (n_faces_ m)) (n_boundary_edges_ m)) 1.
Definition chi (m : mesh) : Z :=
  int_add (int_sub (n_vertices m) (n_edges m)) (n_faces m).

(** *** Deletion and validity tests *)

Definition erased_vertex (m : mesh) (v : VertexId) : option bool :=
  e ← Field.get (vertex_to_edge_ m) v; Some (id e =? erased_id).

Definition erased_face (m : mesh) (f : FaceId) : option bool :=
  fi ← Field.get (faces_ m) f; Some (id (Vector3.x (vertices fi)) =? erased_id).

Definition erased_halfedge (m : mesh) (e : HalfedgeId) : option bool :=
  if 0 <=? id e then
    fi ← Array.get (Field.flat (faces_ m)) (int_div (id e) 3);
    Some (id (Vector3.x (vertices fi)) =? erased_id)
  else
    b ← Array.get (boundaries_ m) (-1 - id e);
    Some (id (BoundaryInfo.src b) =? erased_id).

(** [a && !b] with the short circuit of C++: [b] is not evaluated when [a]
    is false. *)
Definition and_not (a : bool) (b : option bool) : option bool :=
  if a then negb <$> b else Some false.

Definition valid_vertex (m : mesh) (v : VertexId) : option bool :=
  and_not (Field.valid (vertex_to_edge_ m) v) (erased_vertex m v).

Definition valid_face (m : mesh) (f : FaceId) : option bool :=
  and_not (Field.valid (faces_ m) f) (erased_face m f).

Definition valid_halfedge (m : mesh) (e : HalfedgeId) : option bool :=
  if 0 <=? id e then valid_face m (MkId (int_div (id e) 3))
  else
    if Array.valid (boundaries_ m) (-1 - id e) then
      b ← Array.get (boundaries_ m) (-1 - id e);
      Some (negb (id (BoundaryInfo.src b) =? erased_id))
    else Some false.

(** *** Mesh walking routines *)

Definition halfedge_vertex (m : mesh) (v : VertexId) : option HalfedgeId :=
  Field.get (vertex_to_edge_ m) v.

Definition vertex (m : mesh) (f : FaceId) (i : Z) : option VertexId :=
  fi ← Field.get (faces_ m) f; Vector3.get (vertices fi) i.

Definition halfedge (m : mesh) (f : FaceId) (i : Z) : HalfedgeId :=
  MkId (int_add (int_mul 3 (id f)) i).

Definition prev (m : mesh) (e : HalfedgeId) : option HalfedgeId :=
  if 0 <=? id e
  then Some (MkId (int_add (id e) (if int_rem (id e) 3 =? 0 then 2 else -1)))
  else BoundaryInfo.prev <$> Array.get (boundaries_ m) (-1 - id e).

Definition next (m : mesh) (e : HalfedgeId) : option HalfedgeId :=
  if 0 <=? id e
  then Some (MkId (int_add (id e) (if int_rem (id e) 3 =? 2 then -2 else 1)))
  else BoundaryInfo.next <$> Array.get (boundaries_ m) (-1 - id e).

Definition reverse (m : mesh) (e : HalfedgeId) : option HalfedgeId :=
  if 0 <=? id e then
    let f := int_div (id e) 3 in
    fi ← Array.get (Field.flat (faces_ m)) f;
    Vector3.get (neighbors fi) (id e - 3 * f)
  else BoundaryInfo.reverse <$> Array.get (boundaries_ m) (-1 - id e).

Definition src (m : mesh) (e : HalfedgeId) : option VertexId :=
  if 0 <=? id e then
    let f := int_div (id e) 3 in
    fi ← Array.get (Field.flat (faces_ m)) f;
    Vector3.get (vertices fi) (id e - 3 * f)
  else BoundaryInfo.src <$> Array.get (boundaries_ m) (-1 - id e).

Definition dst (m : mesh) (e : HalfedgeId) : option VertexId :=
  if 0 <=? id e then
    let f := int_div (id e) 3 in
    let i := (id e - 3 * f) in
    fi ← Array.get (Field.flat (faces_ m)) f;
    Vector3.get (vertices fi) (if i =? 2 then 0 else int_add i 1)
  else
    b ← Array.get (boundaries_ m) (-1 - id e);
    n ← Array.get (boundaries_ m) (-1 - id (BoundaryInfo.next b));
    Some (BoundaryInfo.src n).

Definition face (m : mesh) (e : HalfedgeId) : FaceId :=
  if 0 <=? id e then MkId (int_div (id e) 3) else Id_default.

Definition left (m : mesh) (e : HalfedgeId) : option HalfedgeId :=
  p ← prev m e; reverse m p.

Definition right (m : mesh) (e : HalfedgeId) : option HalfedgeId :=
  r ← reverse m e; next m r.

Definition opposite (m : mesh) (e : HalfedgeId) : option VertexId :=
  n ← next m e; dst m n.

(** *** Boundary tests *)

Definition is_boundary (m : mesh) (e : HalfedgeId) : bool := id e <? 0.

Definition is_boundary_vertex (m : mesh) (v : VertexId) : option bool :=
  e ← halfedge_vertex m v; Some (id e <? 0).

Definition isolated (m : mesh) (v : VertexId) : option bool :=
  e ← halfedge_vertex m v; Some (negb (Id_valid e)).

(** *** Unchecked surgery on the structure arrays *)

Definition set_faces (m : mesh) (fs : Field.t FaceInfo Face) : mesh :=
  MkTopology (n_vertices_ m) (n_faces_ m) (n_boundary_edges_ m)
             fs (vertex_to_edge_ m) (boundaries_ m) (erased_boundaries_ m).

Definition set_vertex_to_edge (m : mesh) (ve : Field.t HalfedgeId Vertex) : mesh :=
  MkTopology (n_vertices_ m) (n_faces_ m) (n_boundary_edges_ m)
             (faces_ m) ve (boundaries_ m) (erased_boundaries_ m).

Definition set_boundaries (m : mesh) (bs : list BoundaryInfo.t) : mesh :=
  MkTopology (n_vertices_ m) (n_faces_ m) (n_boundary_edges_ m)
             (faces_ m) (vertex_to_edge_ m) bs (erased_boundaries_ m).

Definition set_prev (p : HalfedgeId) (b : BoundaryInfo.t) : BoundaryInfo.t :=
  BoundaryInfo.mk p (BoundaryInfo.next b) (BoundaryInfo.reverse b) (BoundaryInfo.src b).
Definition set_next (n : HalfedgeId) (b : BoundaryInfo.t) : BoundaryInfo.t :=
  BoundaryInfo.mk (BoundaryInfo.prev b) n (BoundaryInfo.reverse b) (BoundaryInfo.src b).
Definition set_reverse (r : HalfedgeId) (b : BoundaryInfo.t) : BoundaryInfo.t :=
  BoundaryInfo.mk (BoundaryInfo.prev b) (BoundaryInfo.next b) r (BoundaryInfo.src b).
Definition set_src (v : VertexId) (b : BoundaryInfo.t) : BoundaryInfo.t :=
  BoundaryInfo.mk (BoundaryInfo.prev b) (BoundaryInfo.next b) (BoundaryInfo.reverse b) v.

(** [faces[f].neighbors[i] = r], a fault when [f] or [i] is out of range. *)
Definition set_neighbor (fs : list FaceInfo) (f i : Z) (r : HalfedgeId)
  : option (list FaceInfo) :=
  fi ← Array.get fs f;
  ns ← Vector3.set (neighbors fi) i r;
  Array.update fs f (λ _, MkFaceInfo (vertices fi) ns).

Definition unsafe_boundary_link (m : mesh) (p n : HalfedgeId) : option mesh :=
  bs ← Array.update (boundaries_ m) (-1 - id p) (set_next n);
  bs' ← Array.update bs (-1 - id n) (set_prev p);
  Some (set_boundaries m bs').

Definition unsafe_interior_link (m : mesh) (e0 e1 : HalfedgeId) : option mesh :=
  let f0 := int_div (id e0) 3 in
  let f1 := int_div (id e1) 3 in
  fs ← set_neighbor (Field.flat (faces_ m)) f0 (id e0 - 3 * f0) e1;
  fs' ← set_neighbor fs f1 (id e1 - 3 * f1) e0;
  Some (set_faces m (Field.mk fs')).

Definition unsafe_set_reverse (m : mesh) (f : FaceId) (i : Z) (r : HalfedgeId)
  : option mesh :=
  fs ← set_neighbor (Field.flat (faces_ m)) (idx f) i r;
  let m1 := set_faces m (Field.mk fs) in
  let h := MkId (int_add (int_mul 3 (id f)) i) in
  if 0 <=? id r then
    let f1 := int_div (id r) 3 in
    fs' ← set_neighbor fs f1 (id r - 3 * f1) h;
    Some (set_faces m1 (Field.mk fs'))
  else
    bs ← Array.update (boundaries_ m1) (-1 - id r) (set_reverse h);
    Some (set_boundaries m1 bs).

(** *** Marking features as erased *)

Definition unsafe_set_erased_vertex (m : mesh) (v : VertexId) : option mesh :=
  ve ← Field.update (vertex_to_edge_ m) v (λ _, MkId erased_id);
  Some (MkTopology (int_sub (n_vertices_ m) 1) (n_faces_ m) (n_boundary_edges_ m)
                   (faces_ m) ve (boundaries_ m) (erased_boundaries_ m)).

Definition unsafe_set_erased_face (m : mesh) (f : FaceId) : option mesh :=
  fs ← Field.update (faces_ m) f
         (λ fi, MkFaceInfo (Vector3.mk (MkId erased_id)
                                       (Vector3.y (vertices fi))
                                       (Vector3.z (vertices fi)))
                           (neighbors fi));
  Some (MkTopology (n_vertices_ m) (int_sub (n_faces_ m) 1) (n_boundary_edges_ m)
                   fs (vertex_to_edge_ m) (boundaries_ m) (erased_boundaries_ m)).

Definition unsafe_set_erased_halfedge (m : mesh) (b : HalfedgeId) : option mesh :=
  let i := (-1 - id b) in
  bs ← Array.update (boundaries_ m) i (set_src (MkId erased_id));
  bs' ← Array.update bs i (set_next (erased_boundaries_ m));
  Some (MkTopology (n_vertices_ m) (n_faces_ m) (int_sub (n_boundary_edges_ m) 1)
                   (faces_ m) (vertex_to_edge_ m) bs' b).

(** The overloads of [erased], [valid] and [unsafe_set_erased] on
    [VertexId], [FaceId] and [HalfedgeId]. *)
Class Handle (k : kind) := {
  erased : mesh → Id k → option bool;
  valid : mesh → Id k → option bool;
  unsafe_set_erased : mesh → Id k → option mesh
}.
#[local] Instance Handle_vertex : Handle Vertex :=
  {| erased := erased_vertex; valid := valid_vertex;
     unsafe_set_erased := unsafe_set_erased_vertex |}.
#[local] Instance Handle_face : Handle Face :=
  {| erased := erased_face; valid := valid_face;
     unsafe_set_erased := unsafe_set_erased_face |}.
#[local] Instance Handle_halfedge : Handle Halfedge :=
  {| erased := erased_halfedge; valid := valid_halfedge;
     unsafe_set_erased := unsafe_set_erased_halfedge |}.

(** *** The array range and the sentinel slot of each kind of handle *)

Definition vertex_in_range (m : mesh) (v : VertexId) : bool :=
  Field.valid (vertex_to_edge_ m) v.
Definition face_in_range (m : mesh) (f : FaceId) : bool :=
  Field.valid (faces_ m) f.
Definition halfedge_in_range (m : mesh) (e : HalfedgeId) : bool :=
  if 0 <=? id e then face_in_range m (MkId (int_div (id e) 3))
  else Array.valid (boundaries_ m) (-1 - id e).

Definition vertex_sentinel (m : mesh) (v : VertexId) : option Z :=
  id <$> Field.get (vertex_to_edge_ m) v.
Definition face_sentinel (m : mesh) (f : FaceId) : option Z :=
  (λ fi, id (Vector3.x (vertices fi))) <$> Field.get (faces_ m) f.
Definition halfedge_sentinel (m : mesh) (e : HalfedgeId) : option Z :=
  if 0 <=? id e then face_sentinel m (MkId (int_div (id e) 3))
  else (λ b, id (BoundaryInfo.src b)) <$> Array.get (boundaries_ m) (-1 - id e).

(** What [valid] and [erased] owe to the range test and to the sentinel:
    [erased] is the comparison of the one sentinel slot with [erased_id];
    [valid] always answers, and answers yes exactly for an id in range that
    is not erased; outside the range it answers no although the sentinel
    cannot be read there. *)
Definition tombstone_law {k} `{Handle k} (m : mesh)
    (in_range : Id k → bool) (sentinel : Id k → option Z) : Prop :=
  ∀ i : Id k,
    erased m i = (λ s, s =? erased_id) <$> sentinel i ∧
    is_Some (valid m i) ∧
    (valid m i = Some true ↔ in_range i = true ∧ erased m i = Some false) ∧
    (erased m i = Some true → valid m i = Some false) ∧
    (in_range i = false → valid m i = Some false ∧ sentinel i = None).

(** *** Ranges of all ids, erased entries included *)

(** The ids [lo], [lo+1], ..., [lo+n-1]. *)
Definition id_range {k} (lo : Z) (n : nat) : list (Id k) :=
  (λ i : nat, MkId (lo + Z.of_nat i)) <$> seq 0 n.

Definition all_vertices (m : mesh) : list VertexId :=
  id_range 0 (length (Field.flat (vertex_to_edge_ m))).
Definition all_faces (m : mesh) : list FaceId :=
  id_range 0 (length (Field.flat (faces_ m))).
Definition all_boundary_edges (m : mesh) : list HalfedgeId :=
  id_range (- Array.size (boundaries_ m)) (length (boundaries_ m)).
Definition all_interior_halfedges (m : mesh) : list HalfedgeId :=
  id_range 0 (3 * length (Field.flat (faces_ m))).
Definition all_halfedges (m : mesh) : list HalfedgeId :=
  id_range (- Array.size (boundaries_ m))
           (length (boundaries_ m) + 3 * length (Field.flat (faces_ m))).

(** *** The circulator around a vertex *)

Record TriangleTopologyOutgoing := MkOutgoing {
  e : HalfedgeId;
  first : bool
}.

(** [operator++] *)
Definition outgoing_incr (m : mesh) (it : TriangleTopologyOutgoing)
  : option TriangleTopologyOutgoing :=
  e' ← left m (e it); Some (MkOutgoing e' false).

(** [operator!=] *)
Definition outgoing_neq (it o : TriangleTopologyOutgoing) : bool :=
  first it || negb (bool_decide (e it = e o)).

(** [operator*] *)
Definition outgoing_deref (it : TriangleTopologyOutgoing) : HalfedgeId := e it.

(** [outgoing(v)]: the range from the circulator to itself. *)
Definition outgoing (m : mesh) (v : VertexId)
  : option (TriangleTopologyOutgoing * TriangleTopologyOutgoing) :=
  e0 ← halfedge_vertex m v;
  let c := MkOutgoing e0 (Id_valid e0) in
  Some (c, c).

(** [for (auto e : range(it,end))], collecting the halfedges the body sees. *)
Fixpoint outgoing_loop (fuel : nat) (m : mesh)
    (it end_ : TriangleTopologyOutgoing) : outcome (list HalfedgeId) :=
  match fuel with
  | O => OutOfFuel
  | S fuel' =>
      if outgoing_neq it end_ then
        match outgoing_incr m it with
        | None => Fault
        | Some it' =>
            match outgoing_loop fuel' m it' end_ with
            | Done l => Done (outgoing_deref it :: l)
            | o => o
            end
        end
      else Done []
  end.

(** The sequence [outgoing(v)] produces when it is iterated. *)
Definition outgoing_list (fuel : nat) (m : mesh) (v : VertexId)
  : outcome (list HalfedgeId) :=
  match outgoing m v with
  | None => Fault
  | Some (b, e_) => outgoing_loop fuel m b e_
  end.

(** *** The shape of the structure around a vertex *)

(** [k] steps of a partial step function. *)
Fixpoint iter_opt {A} (f : A → option A) (k : nat) (a : A) : option A :=
  match k with
  | O => Some a
  | S k' => b ← f a; iter_opt f k' b
  end.

(** The halfedge reached from [h] by [k] steps of [left]. *)
Definition left_iter (m : mesh) (k : nat) (h : HalfedgeId) : option HalfedgeId :=
  iter_opt (left m) k h.

(** The valid halfedges. *)
Definition live (m : mesh) (h : HalfedgeId) : Prop := valid m h = Some true.

(** The links between valid halfedges: going back and forth along a
    boundary or inside a face returns to the same halfedge, the reverse of
    the reverse is the halfedge itself, and the reverse of a halfedge starts
    where the halfedge ends. *)
Record links_consistent (m : mesh) : Prop := {
  links_prev : ∀ h : HalfedgeId, valid m h = Some true →
    ∃ p, prev m h = Some p ∧ valid m p = Some true ∧ next m p = Some h;
  links_reverse : ∀ h : HalfedgeId, valid m h = Some true →
    ∃ r, reverse m h = Some r ∧ valid m r = Some true ∧
         reverse m r = Some h ∧ src m r = dst m h
}.

(** The halfedges leaving [v] form one fan: [halfedge(v)] is one of them and
    [left] leads from it to every other one; an isolated vertex has none. *)
Definition manifold_at (m : mesh) (v : VertexId) : Prop :=
  ∃ e0, halfedge_vertex m v = Some e0 ∧
    if Id_valid e0 then
      valid m e0 = Some true ∧ src m e0 = Some v ∧
      ∀ h : HalfedgeId, valid m h = Some true → src m h = Some v →
                        ∃ k, left_iter m k e0 = Some h
    else
      ∀ h : HalfedgeId, valid m h = Some true → src m h ≠ Some v.

(** The first [n] points of the orbit of [a]. *)
Definition orbit {A} (f : A → option A) (n : nat) (a : A) : list A :=
  omap (λ k, iter_opt f k a) (seq 0 n).

(** Modelled from the spec: the body of [degree] is not among the sources.
    The edge degree of [v] is the number of edges at [v]; each of them has
    exactly one halfedge that leaves [v]. *)
Definition leaves (m : mesh) (v : VertexId) (h : HalfedgeId) : bool :=
  bool_decide (valid m h = Some true) && bool_decide (src m h = Some v).
Definition degree (m : mesh) (v : VertexId) : nat :=
  length (filter (λ h, leaves m v h = true) (all_halfedges m)).

(** *** The mutable topology and its fields *)

Section Fields.

(** The element types a field can have, and the values fields hold: the
    type [T] of the templates is passed as a tag. *)
Context {type_tag : Type} `{EqDecision type_tag}.
Context {value : Type}.
Variable zero : value.

Abbreviation UntypedArray := (UntypedArray type_tag value).
Abbreviation FieldId := (FieldId type_tag).
Abbreviation MutableTriangleTopology := (MutableTriangleTopology type_tag value).

(** Modelled from the spec: [UntypedArray.h] is not among the sources.
    [UntypedArray(Types<T>(),n)] has [n] elements, and the typed view
    [get<T,Id>()] is there for the right [T] only. *)
Definition UntypedArray_make (T : type_tag) (n : Z) : UntypedArray :=
  MkUntypedArray T (replicate (Z.to_nat n) zero).
Definition UntypedArray_get (T : type_tag) (k : kind) (a : UntypedArray)
  : exception + Field.t value k :=
  if decide (ua_type a = T) then inr (Field.mk (ua_data a)) else inl AssertionError.

Definition FieldId_valid {k} (i : FieldId k) : bool :=
  negb (field_id i =? invalid_id).

(** The three instances of the macro [FIELD_ACCESS_FUNCTIONS(prim, Id,
    size_expr)] differ by the vector, the table and the size they use. *)
Definition prim_fields (k : kind) (mm : MutableTriangleTopology) : list UntypedArray :=
  match k with
  | Vertex => vertex_fields mm
  | Face => face_fields mm
  | Halfedge => halfedge_fields mm
  end.

Definition id_to_prim_field (k : kind) (mm : MutableTriangleTopology) : gmap Z Z :=
  match k with
  | Vertex => id_to_vertex_field mm
  | Face => id_to_face_field mm
  | Halfedge => id_to_halfedge_field mm
  end.

Definition size_expr (k : kind) (mm : MutableTriangleTopology) : Z :=
  match k with
  | Vertex => Field.size (vertex_to_edge_ (base mm))
  | Face => Field.size (faces_ (base mm))
  | Halfedge => int_mul (Field.size (faces_ (base mm))) 3
  end.

Definition set_next_field_id (mm : MutableTriangleTopology) (n : Z)
  : MutableTriangleTopology :=
  MkMutable (base mm) (vertex_fields mm) (face_fields mm) (halfedge_fields mm)
            (id_to_vertex_field mm) (id_to_face_field mm) (id_to_halfedge_field mm) n.

Definition set_prim_field (k : kind) (mm : MutableTriangleTopology)
    (fs : list UntypedArray) (tbl : gmap Z Z) : MutableTriangleTopology :=
  match k with
  | Vertex =>
      MkMutable (base mm) fs (face_fields mm) (halfedge_fields mm)
                tbl (id_to_face_field mm) (id_to_halfedge_field mm) (next_field_id mm)
  | Face =>
      MkMutable (base mm) (vertex_fields mm) fs (halfedge_fields mm)
                (id_to_vertex_field mm) tbl (id_to_halfedge_field mm) (next_field_id mm)
  | Halfedge =>
      MkMutable (base mm) (vertex_fields mm) (face_fields mm) fs
                (id_to_vertex_field mm) (id_to_face_field mm) tbl (next_field_id mm)
  end.

(** [add_##prim##_field<T>(id)].  The state comes back in both cases: the
    counter of ids is advanced before the assertion is checked. *)
Definition add_field (k : kind) (T : type_tag) (mm : MutableTriangleTopology)
    (i : Z) : MutableTriangleTopology * (exception + FieldId k) :=
  let '(i, mm) :=
    if i =? invalid_id
    then (next_field_id mm, set_next_field_id mm (int_add (next_field_id mm) 1))
    else (i, set_next_field_id mm (Z.max (next_field_id mm) (int_add i 1))) in
  if bool_decide (is_Some (id_to_prim_field k mm !! i)) then (mm, inl AssertionError)
  else
    let fs := prim_fields k mm ++ [UntypedArray_make T (size_expr k mm)] in
    let tbl := <[i := wrap (Z.of_nat (length fs) - 1)]> (id_to_prim_field k mm) in
    (set_prim_field k mm fs tbl, inr (MkFieldId T i)).

(** [has_##prim##_field(id)] *)
Definition has_field {k} (mm : MutableTriangleTopology) (i : FieldId k) : bool :=
  FieldId_valid i && bool_decide (is_Some (id_to_prim_field k mm !! field_id i)).

(** Modelled from the spec: [Hashtable.h] is not among the sources.
    [Hashtable::get] of an absent key fails with a lookup error. *)
Definition Hashtable_get (tbl : gmap Z Z) (i : Z) : exception + Z :=
  match tbl !! i with
  | Some x => inr x
  | None => inl KeyError
  end.

(** [field(id)]: [prim##_fields[id_to_##prim##_field.get(id)].get<T,Id>()] *)
Definition field {k} (mm : MutableTriangleTopology) (i : FieldId k)
  : field_result value k :=
  match Hashtable_get (id_to_prim_field k mm) (field_id i) with
  | inl x => FieldThrows x
  | inr j =>
      match Array.get (prim_fields k mm) j with
      | None => FieldFault
      | Some a =>
          match UntypedArray_get (field_type i) k a with
          | inl x => FieldThrows x
          | inr f => FieldIs f
          end
      end
  end.

(** The current element capacity of each kind. *)
Definition capacity (k : kind) (mm : MutableTriangleTopology) : Z :=
  match k with
  | Vertex => Field.size (vertex_to_edge_ (base mm))
  | Face => Field.size (faces_ (base mm))
  | Halfedge => 3 * Field.size (faces_ (base mm))
  end.

(** The sizes the registry computes with stay inside [int]. *)
Definition fields_within_limits (mm : MutableTriangleTopology) : Prop :=
  within_limits (base mm) ∧
  ∀ k, Z.of_nat (length (prim_fields k mm)) < int_max.

End Fields.

(** *** The conditions as tests *)

(** Executable versions of the two conditions, for concrete meshes. *)
Definition links_ok_at (m : mesh) (h : HalfedgeId) : bool :=
  match prev m h, reverse m h with
  | Some p, Some r =>
      bool_decide (valid m p = Some true) && bool_decide (next m p = Some h) &&
      bool_decide (valid m r = Some true) && bool_decide (reverse m r = Some h) &&
      bool_decide (src m r = dst m h)
  | _, _ => false
  end.

Definition links_consistent_b (m : mesh) : bool :=
  forallb (λ h, implb (bool_decide (valid m h = Some true)) (links_ok_at m h))
          (all_halfedges m).

Definition manifold_at_b (m : mesh) (v : VertexId) : bool :=
  match halfedge_vertex m v with
  | None => false
  | Some e0 =>
      if Id_valid e0 then
        bool_decide (valid m e0 = Some true) && bool_decide (src m e0 = Some v) &&
        forallb (λ h, implb (leaves m v h)
                   (bool_decide (h ∈ orbit (left m) (length (all_halfedges m)) e0)))
                (all_halfedges m)
      else forallb (λ h, negb (leaves m v h)) (all_halfedges m)
  end.

(** *** The shape of a whole mesh *)

(** The other invariants of the structure that the edits rely on: the
    source of a valid halfedge is a valid vertex, no halfedge is a loop, and
    the halfedges around every valid vertex form one fan. *)
Record manifold_mesh (m : mesh) : Prop := {
  mm_limits : within_limits m;
  mm_links : links_consistent m;
  mm_src : ∀ (h : HalfedgeId) v, valid m h = Some true → src m h = Some v →
                                 valid m v = Some true;
  mm_no_loop : ∀ h : HalfedgeId, valid m h = Some true → src m h ≠ dst m h;
  mm_fan : ∀ v : VertexId, valid m v = Some true → manifold_at m v
}.

Definition manifold_mesh_b (m : mesh) : bool :=
  links_consistent_b m &&
  forallb (λ h : HalfedgeId,
             implb (bool_decide (valid m h = Some true))
                   (match src m h with
                    | Some v => bool_decide (valid m v = Some true)
                    | None => false
                    end && negb (bool_decide (src m h = dst m h))))
          (all_halfedges m) &&
  forallb (λ v : VertexId,
             implb (bool_decide (valid m v = Some true)) (manifold_at_b m v))
          (all_vertices m).

(** *** Looking an edge up *)

(** The first halfedge of [l] that ends at [v1], the invalid id if there is
    none. *)
Fixpoint find_dst (m : mesh) (v1 : VertexId) (l : list HalfedgeId)
  : option HalfedgeId :=
  match l with
  | [] => Some Id_default
  | h :: l' => d ← dst m h; if decide (d = v1) then Some h else find_dst m v1 l'
  end.

(** Modelled from the spec: the body of [halfedge(VertexId,VertexId)] is not
    among the sources.  It searches the halfedges around [v0] for one that
    ends at [v1], and returns an invalid id if there is none. *)
Definition halfedge_between (fuel : nat) (m : mesh) (v0 v1 : VertexId)
  : outcome HalfedgeId :=
  l ← outgoing_list fuel m v0; of_option (find_dst m v1 l).

(** *** Flipping an edge *)

(** Modelled from the spec: the body of [is_flip_safe] is not among the
    sources.  Both incident faces must exist ([e] is a valid halfedge, and
    neither [e] nor its reverse is on the boundary) and the two opposite
    vertices must not already be connected. *)
Definition is_flip_safe (fuel : nat) (m : mesh) (e0 : HalfedgeId) : outcome bool :=
  ok ← of_option (valid m e0);
  if negb ok then Done false
  else if is_boundary m e0 then Done false
  else
    e1 ← of_option (reverse m e0);
    if is_boundary m e1 then Done false
    else
      o0 ← of_option (opposite m e0);
      o1 ← of_option (opposite m e1);
      h ← halfedge_between fuel m o0 o1;
      Done (negb (Id_valid h)).

Definition set_face_vertices (vs : Vector3.t VertexId) (fi : FaceInfo) : FaceInfo :=
  MkFaceInfo vs (neighbors fi).

(** [if (ve==a || ve==b) ve = h] on the stored halfedge of [v]. *)
Definition relink_vertex (ve : Field.t HalfedgeId Vertex) (v : VertexId)
    (a b h : HalfedgeId) : option (Field.t HalfedgeId Vertex) :=
  Field.update ve v (λ old, if bool_decide (old = a ∨ old = b) then h else old).

(** Modelled from the spec: the body of [unsafe_flip_edge] is not among the
    sources.  The two triangles next to [e0], which are [(v0,v1,o0)] and
    [(v1,v0,o1)], are replaced by [(o0,o1,v1)] and [(o1,o0,v0)] in the same
    two face records: the diagonal [v0-v1] gives way to [o0-o1].  The four
    outer halfedges get new ids and stay linked to the same reverses, a
    vertex whose stored halfedge was one that changed its id is given an
    outgoing halfedge again, and the result is the halfedge from [o0] to
    [o1], which is [e0] rotated right. *)
Definition unsafe_flip_edge (m : mesh) (e0 : HalfedgeId)
  : option (mesh * HalfedgeId) :=
  e1 ← reverse m e0;
  let f0 := face m e0 in
  let f1 := face m e1 in
  n0 ← next m e0; p0 ← prev m e0;
  n1 ← next m e1; p1 ← prev m e1;
  rn0 ← reverse m n0; rp0 ← reverse m p0;
  rn1 ← reverse m n1; rp1 ← reverse m p1;
  v0 ← src m e0; o0 ← src m p0;
  v1 ← src m e1; o1 ← src m p1;
  fs ← Field.update (faces_ m) f0 (set_face_vertices (Vector3.mk o0 o1 v1));
  fs ← Field.update fs f1 (set_face_vertices (Vector3.mk o1 o0 v0));
  fs ← set_neighbor (Field.flat fs) (idx f0) 0 (halfedge m f1 0);
  fs ← set_neighbor fs (idx f1) 0 (halfedge m f0 0);
  m ← unsafe_set_reverse (set_faces m (Field.mk fs)) f0 1 rp1;
  m ← unsafe_set_reverse m f0 2 rn0;
  m ← unsafe_set_reverse m f1 1 rp0;
  m ← unsafe_set_reverse m f1 2 rn1;
  ve ← relink_vertex (vertex_to_edge_ m) v0 e0 n1 (halfedge m f1 2);
  ve ← relink_vertex ve v1 e1 n0 (halfedge m f0 2);
  ve ← relink_vertex ve o0 p0 p0 (halfedge m f0 0);
  ve ← relink_vertex ve o1 p1 p1 (halfedge m f1 0);
  Some (set_vertex_to_edge m ve, halfedge m f0 0).

(** Modelled from the spec: the body of [flip_edge] is not among the
    sources.  It throws if [is_flip_safe] fails, and calls
    [unsafe_flip_edge] otherwise. *)
Definition flip_edge (fuel : nat) (m : mesh) (e0 : HalfedgeId)
  : outcome (mesh * (exception + HalfedgeId)) :=
  safe ← is_flip_safe fuel m e0;
  if (safe : bool) then
    '(m', e') ← of_option (unsafe_flip_edge m e0);
    Done (m', inr e')
  else Done (m, inl RuntimeError).

(** What an edit of the links between halfedges leaves alone: the counts,
    the vertices of the faces, the sources of the boundary halfedges, the
    vertex map and the list of erased slots. *)
Definition face_vertices (m : mesh) : list (Vector3.t VertexId) :=
  vertices <$> Field.flat (faces_ m).
Definition boundary_sources (m : mesh) : list VertexId :=
  BoundaryInfo.src <$> boundaries_ m.
Definition same_shape (m m' : mesh) : Prop :=
  n_vertices_ m' = n_vertices_ m ∧ n_faces_ m' = n_faces_ m ∧
  n_boundary_edges_ m' = n_boundary_edges_ m ∧
  face_vertices m' = face_vertices m ∧
  boundary_sources m' = boundary_sources m ∧
  vertex_to_edge_ m' = vertex_to_edge_ m ∧
  erased_boundaries_ m' = erased_boundaries_ m.

(** *** Adding a face *)

(** Does the oriented edge from [v0] to [v1] already belong to a face: is
    the halfedge between them valid and not a boundary halfedge? *)
Definition edge_taken (fuel : nat) (m : mesh) (v0 v1 : VertexId) : outcome bool :=
  h ← halfedge_between fuel m v0 v1;
  Done (Id_valid h && negb (is_boundary m h)).

Section AddFace.

(** What [add_face] does when none of the three edges is taken, its other
    tests and the wiring of the new face, is not described by the spec in
    detail; it is a parameter here. *)
Variable add_face_wire :
  mesh → Vector3.t VertexId → outcome (mesh * (exception + FaceId)).

(** Modelled from the spec: the body of [add_face] is not among the
    sources.  If the result would not be manifold, no change is made and
    [ValueError] is thrown; of the tests this takes, the one for an oriented
    edge of the new face that already belongs to a face is modelled. *)
Definition add_face (fuel : nat) (m : mesh) (v : Vector3.t VertexId)
  : outcome (mesh * (exception + FaceId)) :=
  t0 ← edge_taken fuel m (Vector3.x v) (Vector3.y v);
  t1 ← edge_taken fuel m (Vector3.y v) (Vector3.z v);
  t2 ← edge_taken fuel m (Vector3.z v) (Vector3.x v);
  if (t0 || t1 || t2 : bool) then Done (m, inl ValueError)
  else add_face_wire m v.

End AddFace.

(** At most one halfedge runs from one vertex to another. *)
Definition no_duplicate_edges (m : mesh) : Prop :=
  ∀ h h' : HalfedgeId, valid m h = Some true → valid m h' = Some true →
    src m h = src m h' → dst m h = dst m h' → h = h'.

Definition no_duplicate_edges_b (m : mesh) : bool :=
  forallb (λ h : HalfedgeId,
    forallb (λ h' : HalfedgeId,
      implb (bool_decide (valid m h = Some true) &&
             bool_decide (valid m h' = Some true) &&
             bool_decide (src m h = src m h') && bool_decide (dst m h = dst m h'))
            (bool_decide (h = h')))
      (all_halfedges m))
    (all_halfedges m).

(** The invalid id is not the id of a slot of the halfedge arrays. *)
Definition invalid_id_outside (m : mesh) : Prop :=
  invalid_id < - Array.size (boundaries_ m) ∨
  3 * Field.size (faces_ m) ≤ invalid_id.

(** The oriented edge from [a] to [b] is an edge of the triangle [v]. *)
Definition edge_of (v : Vector3.t VertexId) (a b : VertexId) : Prop :=
  (a = Vector3.x v ∧ b = Vector3.y v) ∨
  (a = Vector3.y v ∧ b = Vector3.z v) ∨
  (a = Vector3.z v ∧ b = Vector3.x v).

(** *** Splitting a face or an edge *)

(** The splits are followed on the structure arrays and the counts; the
    fields of a mutable topology, which a split resizes along with the
    arrays, take no part in them. *)

(** Modelled from the spec: the body of [add_vertex] is not among the
    sources.  It allocates the slot of a new isolated vertex, a vertex
    whose stored halfedge is the invalid handle, at the end of the vertex
    array, and returns its id. *)
Definition add_vertex (m : mesh) : mesh * VertexId :=
  (MkTopology (int_add (n_vertices_ m) 1) (n_faces_ m) (n_boundary_edges_ m)
              (faces_ m)
              (Field.mk (Field.flat (vertex_to_edge_ m) ++ [Id_default]))
              (boundaries_ m) (erased_boundaries_ m),
   MkId (Field.size (vertex_to_edge_ m))).

(** Modelled from the spec: new faces are added at the end of the face
    array.  The slot of one new face, still to be filled in. *)
Definition new_face (m : mesh) : mesh * FaceId :=
  (MkTopology (n_vertices_ m) (int_add (n_faces_ m) 1) (n_boundary_edges_ m)
              (Field.mk (Field.flat (faces_ m) ++
                 [MkFaceInfo (Vector3.mk Id_default Id_default Id_default)
                             (Vector3.mk Id_default Id_default Id_default)]))
              (vertex_to_edge_ m) (boundaries_ m) (erased_boundaries_ m),
   MkId (Field.size (faces_ m))).

(** Modelled from the spec: the body of [unsafe_new_boundary] is not among
    the sources.  It makes a new boundary halfedge at [s], opposite of [r]:
    a slot of the list of erased boundary slots is taken if there is one,
    a new slot at the end of the boundary array otherwise. *)
Definition unsafe_new_boundary (m : mesh) (s : VertexId) (r : HalfedgeId)
  : option (mesh * HalfedgeId) :=
  if Id_valid (erased_boundaries_ m) then
    let e := erased_boundaries_ m in
    b ← Array.get (boundaries_ m) (-1 - id e);
    bs ← Array.update (boundaries_ m) (-1 - id e) (λ b, set_reverse r (set_src s b));
    Some (MkTopology (n_vertices_ m) (n_faces_ m) (int_add (n_boundary_edges_ m) 1)
                     (faces_ m) (vertex_to_edge_ m) bs (BoundaryInfo.next b), e)
  else
    Some (MkTopology (n_vertices_ m) (n_faces_ m) (int_add (n_boundary_edges_ m) 1)
                     (faces_ m) (vertex_to_edge_ m)
                     (boundaries_ m ++ [BoundaryInfo.mk Id_default Id_default r s])
                     (erased_boundaries_ m),
          MkId (int_sub (-1) (Array.size (boundaries_ m)))).

(** The corner of an interior halfedge in its face. *)
Definition corner (m : mesh) (h : HalfedgeId) : Z := id h - 3 * id (face m h).

(** Modelled from the spec: the body of [split_face(f,c)] is not among the
    sources.  The triangle [(v0,v1,v2)] of [f] is subdivided into three by
    connecting [c] to its three corners: the record of [f] is kept, for the
    triangle [(v0,v1,c)], and two new faces are added at the end, for
    [(v1,v2,c)] and [(v2,v0,c)].  The three outer halfedges are the
    halfedges 0 of the three faces and keep their reverses; a corner of the
    old face whose stored halfedge got a new id is given that id; and [c]
    gets a halfedge of [f], so that [face(halfedge(c))==f] afterwards. *)
Definition split_face_links (m : mesh) (f : FaceId) (c : VertexId) : option mesh :=
  fi ← Field.get (faces_ m) f;
  let v := vertices fi in
  let n := neighbors fi in
  let f1 : FaceId := MkId (Field.size (faces_ m)) in
  let f2 : FaceId := MkId (int_add (Field.size (faces_ m)) 1) in
  fs ← Field.update (faces_ m) f
         (λ _, MkFaceInfo (Vector3.mk (Vector3.x v) (Vector3.y v) c)
                          (Vector3.mk (Vector3.x n) (halfedge m f1 2) (halfedge m f2 1)));
  let fs := Field.mk (Field.flat fs ++
    [MkFaceInfo (Vector3.mk (Vector3.y v) (Vector3.z v) c)
                (Vector3.mk (Vector3.y n) (halfedge m f2 2) (halfedge m f 1));
     MkFaceInfo (Vector3.mk (Vector3.z v) (Vector3.x v) c)
                (Vector3.mk (Vector3.z n) (halfedge m f 2) (halfedge m f1 1))]) in
  let m := MkTopology (n_vertices_ m) (int_add (n_faces_ m) 2) (n_boundary_edges_ m)
                      fs (vertex_to_edge_ m) (boundaries_ m) (erased_boundaries_ m) in
  m ← unsafe_set_reverse m f1 0 (Vector3.y n);
  m ← unsafe_set_reverse m f2 0 (Vector3.z n);
  ve ← relink_vertex (vertex_to_edge_ m) (Vector3.y v)
         (halfedge m f 1) (halfedge m f 1) (halfedge m f1 0);
  ve ← relink_vertex ve (Vector3.z v)
         (halfedge m f 2) (halfedge m f 2) (halfedge m f2 0);
  ve ← Field.update ve c (λ _, halfedge m f 2);
  Some (set_vertex_to_edge m ve).

(** Modelled from the spec: [split_face(f,c)] inserts an existing isolated
    vertex.  Handle validity is checked at entry; a call that fails
    changes nothing.  The boolean tells whether the split was made. *)
Definition split_face_at (m : mesh) (f : FaceId) (c : VertexId)
  : outcome (mesh * bool) :=
  vf ← of_option (valid m f);
  vc ← of_option (valid m c);
  if negb (vf && vc) then Done (m, false)
  else
    iso ← of_option (isolated m c);
    if negb iso then Done (m, false)
    else
      m' ← of_option (split_face_links m f c);
      Done (m', true).

(** Modelled from the spec: [split_face(f)] inserts a new vertex, and
    returns its id. *)
Definition split_face (m : mesh) (f : FaceId) : outcome (mesh * option VertexId) :=
  vf ← of_option (valid m f);
  if negb vf then Done (m, None)
  else
    let '(m1, c) := add_vertex m in
    '(m2, ok) ← split_face_at m1 f c;
    Done (if (ok : bool) then (m2, Some c) else (m, None)).

(** Modelled from the spec: the body of [unsafe_split_halfedge] is not
    among the sources.  The halfedge [h] from [a] to [b], in the face
    [(a,b,x)], is split with the vertex [c]: the face of [h] becomes
    [(a,c,x)], with the same three halfedge ids, and the face [nf] becomes
    [(c,b,x)].  The halfedge from [b] to [x] is now in [nf] and keeps its
    reverse, and the two halfedges between [c] and [x] are linked.
    Returned are [h], which now ends at [c], and the halfedge of [nf] that
    starts at [c]; these two are not linked to anything. *)
Definition unsafe_split_halfedge (m : mesh) (h : HalfedgeId) (nf : FaceId)
    (c : VertexId) : option (mesh * (HalfedgeId * HalfedgeId)) :=
  let f := face m h in
  n ← next m h;
  p ← prev m h;
  rn ← reverse m n;
  b ← src m n;
  x ← src m p;
  fi ← Field.get (faces_ m) f;
  vs ← Vector3.set (vertices fi) (corner m n) c;
  fs ← Field.update (faces_ m) f (set_face_vertices vs);
  fs ← Field.update fs nf
         (λ _, MkFaceInfo (Vector3.mk c b x) (Vector3.mk Id_default rn n));
  m ← unsafe_set_reverse (set_faces m fs) nf 1 rn;
  m ← unsafe_set_reverse m nf 2 n;
  ve ← relink_vertex (vertex_to_edge_ m) b n n (halfedge m nf 1);
  Some (set_vertex_to_edge m ve, (h, halfedge m nf 0)).

(** Modelled from the spec: the body of [split_edge(e,c)] is not among the
    sources.  The vertex [c] is inserted in the middle of the edge of [e],
    and splits both adjacent faces, or the one adjacent face and the
    boundary halfedge if the edge is a boundary edge.  [h] is the halfedge
    of the edge that is interior, [r] its reverse; each adjacent face is
    split into itself and a new face at the end of the face array.  On the
    boundary, [c] gets the new boundary halfedge, a boundary vertex
    storing a boundary halfedge. *)
Definition split_edge_links (m : mesh) (e : HalfedgeId) (c : VertexId) : option mesh :=
  h ← (if is_boundary m e then reverse m e else Some e);
  r ← reverse m h;
  let '(m, nf) := new_face m in
  '(m, (h0, h1)) ← unsafe_split_halfedge m h nf c;
  if is_boundary m r then
    nx ← next m r;
    '(m, r') ← unsafe_new_boundary m c h0;
    m ← unsafe_set_reverse m (face m h0) (corner m h0) r';
    m ← unsafe_set_reverse m nf 0 r;
    m ← unsafe_boundary_link m r r';
    m ← unsafe_boundary_link m r' nx;
    ve ← Field.update (vertex_to_edge_ m) c (λ _, r');
    Some (set_vertex_to_edge m ve)
  else
    let '(m, nf') := new_face m in
    '(m, (r0, r1)) ← unsafe_split_halfedge m r nf' c;
    m ← unsafe_set_reverse m (face m h0) (corner m h0) r1;
    m ← unsafe_set_reverse m nf 0 r0;
    ve ← Field.update (vertex_to_edge_ m) c (λ _, h1);
    Some (set_vertex_to_edge m ve).

(** Modelled from the spec: [split_edge(e,c)] inserts an existing isolated
    vertex; a call that fails changes nothing. *)
Definition split_edge_at (m : mesh) (e : HalfedgeId) (c : VertexId)
  : outcome (mesh * bool) :=
  ve ← of_option (valid m e);
  vc ← of_option (valid m c);
  if negb (ve && vc) then Done (m, false)
  else
    iso ← of_option (isolated m c);
    if negb iso then Done (m, false)
    else
      m' ← of_option (split_edge_links m e c);
      Done (m', true).

(** Modelled from the spec: [split_edge(e)] inserts a new vertex, and
    returns its id. *)
Definition split_edge (m : mesh) (e : HalfedgeId) : outcome (mesh * option VertexId) :=
  ve ← of_option (valid m e);
  if negb ve then Done (m, None)
  else
    let '(m1, c) := add_vertex m in
    '(m2, ok) ← split_edge_at m1 e c;
    Done (if (ok : bool) then (m2, Some c) else (m, None)).

(** *** Sequences of flips and splits *)

Inductive edit :=
  | FlipEdge (e : HalfedgeId)                  (* flip_edge(e) *)
  | SplitFace (f : FaceId)                     (* split_face(f) *)
  | SplitFaceAt (f : FaceId) (c : VertexId)    (* split_face(f,c) *)
  | SplitEdge (e : HalfedgeId)                 (* split_edge(e) *)
  | SplitEdgeAt (e : HalfedgeId) (c : VertexId). (* split_edge(e,c) *)

(** The splits that are given an existing isolated vertex. *)
Definition uses_isolated_vertex (ed : edit) : bool :=
  match ed with
  | SplitFaceAt _ _ | SplitEdgeAt _ _ => true
  | _ => false
  end.

(** The mesh after an edit that succeeds, nothing after one that fails. *)
Definition apply_edit (fuel : nat) (m : mesh) (ed : edit) : outcome (option mesh) :=
  match ed with
  | FlipEdge e =>
      '(m', r) ← flip_edge fuel m e;
      Done (match r with inr _ => Some m' | inl _ => None end)
  | SplitFace f =>
      '(m', r) ← split_face m f;
      Done (match r with Some _ => Some m' | None => None end)
  | SplitFaceAt f c =>
      '(m', ok) ← split_face_at m f c;
      Done (if (ok : bool) then Some m' else None)
  | SplitEdge e =>
      '(m', r) ← split_edge m e;
      Done (match r with Some _ => Some m' | None => None end)
  | SplitEdgeAt e c =>
      '(m', ok) ← split_edge_at m e c;
      Done (if (ok : bool) then Some m' else None)
  end.

(** The three counts that [chi] is computed from. *)
Definition counts (m : mesh) : Z * Z * Z :=
  (n_vertices_ m, n_faces_ m, n_boundary_edges_ m).

(** The counts are counts, and [3*n_faces_+n_boundary_edges_], which
    [n_edges] forms, fits in an [int]. *)
Definition counts_within_limits (m : mesh) : Prop :=
  0 ≤ n_vertices_ m ≤ int_max ∧ 0 ≤ n_faces_ m ∧ 0 ≤ n_boundary_edges_ m ∧
  3 * n_faces_ m + n_boundary_edges_ m ≤ int_max.

(** The limits of [int] for an edited mesh: the counts and the sizes of the
    arrays fit, and the invalid id is not the id of a slot. *)
Definition stays_within_limits (m : mesh) : Prop :=
  counts_within_limits m ∧ within_limits m ∧ invalid_id_outside m.

(** One edit that succeeds and stays within the limits. *)
Definition edit_step (ed : edit) (m m' : mesh) : Prop :=
  (∃ fuel, apply_edit fuel m ed = Done (Some m')) ∧ stays_within_limits m'.

(** No valid vertex is isolated, as [has_isolated_vertices()] tests it;
    so it is in a closed manifold mesh, where every vertex has its fan of
    faces. *)
Definition no_isolated_vertex (m : mesh) : Prop :=
  ∀ v : VertexId, valid m v = Some true → isolated m v = Some false.

(** The same, told of the stored halfedges: a stored halfedge is the mark
    of an erased vertex or a valid handle; and the same but for the slot
    of one vertex. *)
Definition link_ok (h : HalfedgeId) : Prop :=
  id h = erased_id ∨ Id_valid h = true.
Definition links_ok (ve : Field.t HalfedgeId Vertex) : Prop :=
  ∀ w h, Field.get ve w = Some h → link_ok h.
Definition links_ok_except (c : VertexId) (ve : Field.t HalfedgeId Vertex) : Prop :=
  ∀ w h, w ≠ c → Field.get ve w = Some h → link_ok h.

(** A sequence of edits, each applied to the result of the one before. *)
Fixpoint edit_steps (eds : list edit) (m m' : mesh) : Prop :=
  match eds with
  | [] => m' = m
  | ed :: eds' => ∃ m1, edit_step ed m m1 ∧ edit_steps eds' m1 m'
  end.

(** The executable form: the edits one after the other, as long as they
    succeed. *)
Fixpoint apply_edits (fuel : nat) (m : mesh) (eds : list edit) : outcome (option mesh) :=
  match eds with
  | [] => Done (Some m)
  | ed :: eds' =>
      r ← apply_edit fuel m ed;
      match r with
      | Some m1 => apply_edits fuel m1 eds'
      | None => Done None
      end
  end.

(** *** Compaction *)

(** The entries of [l] that [keep] marks, in order. *)
Fixpoint compact {A} (keep : list bool) (l : list A) : list A :=
  match keep, l with
  | b :: keep', a :: l' => if b then a :: compact keep' l' else compact keep' l'
  | _, _ => []
  end.

(** The new index of each old index: the kept entries are numbered in
    order from [next], an erased entry has no new index. *)
Fixpoint old_to_new (keep : list bool) (next : Z) : list (option Z) :=
  match keep with
  | [] => []
  | true :: keep' => Some next :: old_to_new keep' (int_add next 1)
  | false :: keep' => None :: old_to_new keep' next
  end.

(** The permutation as the array of [int]s that is returned; the entry of
    an erased primitive, which has no new index, is the invalid id. *)
Definition permutation_array (perm : list (option Z)) : list Z :=
  default invalid_id <$> perm.

Definition identity_permutation (n : nat) : list Z :=
  (λ i : nat, Z.of_nat i) <$> seq 0 n.

(** A reference through a permutation: to the new index of a kept entry,
    to nothing if the entry was erased, unchanged if it points outside the
    array. *)
Definition remap_vertex (vperm : list (option Z)) (v : VertexId) : VertexId :=
  match Array.get vperm (id v) with
  | Some (Some j) => MkId j
  | Some None => Id_default
  | None => v
  end.

Definition remap_halfedge (fperm bperm : list (option Z)) (h : HalfedgeId)
  : HalfedgeId :=
  if 0 <=? id h then
    let f := int_div (id h) 3 in
    match Array.get fperm f with
    | Some (Some f') => MkId (int_add (int_mul 3 f') (id h - 3 * f))
    | Some None => Id_default
    | None => h
    end
  else
    match Array.get bperm (-1 - id h) with
    | Some (Some b') => MkId (-1 - b')
    | Some None => Id_default
    | None => h
    end.

Definition live_vertex_slot (h : HalfedgeId) : bool := negb (id h =? erased_id).
Definition live_face_slot (fi : FaceInfo) : bool :=
  negb (id (Vector3.x (vertices fi)) =? erased_id).
Definition live_boundary_slot (b : BoundaryInfo.t) : bool :=
  negb (id (BoundaryInfo.src b) =? erased_id).

Definition remap_face (rv : VertexId → VertexId) (rh : HalfedgeId → HalfedgeId)
    (fi : FaceInfo) : FaceInfo :=
  MkFaceInfo (Vector3.map rv (vertices fi)) (Vector3.map rh (neighbors fi)).

Definition remap_boundary (rv : VertexId → VertexId) (rh : HalfedgeId → HalfedgeId)
    (b : BoundaryInfo.t) : BoundaryInfo.t :=
  BoundaryInfo.mk (rh (BoundaryInfo.prev b)) (rh (BoundaryInfo.next b))
                  (rh (BoundaryInfo.reverse b)) (rv (BoundaryInfo.src b)).

Section Garbage.
Context {type_tag value : Type}.

Definition compact_fields (keep : list bool)
    (fs : list (UntypedArray type_tag value)) : list (UntypedArray type_tag value) :=
  (λ a, MkUntypedArray (ua_type a) (compact keep (ua_data a))) <$> fs.

(** Modelled from the spec: the body of [collect_garbage] is not among the
    sources.  It compacts the vertex, face and boundary arrays to remove the
    erased entries, renumbers every stored id accordingly, compacts the
    registered fields in step (three entries per face for a halfedge
    field), leaves no erased boundary slot in the free list, and returns the
    three maps from old to new indices.  The live counts are not changed. *)
Definition collect_garbage (mm : MutableTriangleTopology type_tag value)
  : MutableTriangleTopology type_tag value * (list Z * list Z * list Z) :=
  let m := base mm in
  let keep_v := live_vertex_slot <$> Field.flat (vertex_to_edge_ m) in
  let keep_f := live_face_slot <$> Field.flat (faces_ m) in
  let keep_b := live_boundary_slot <$> boundaries_ m in
  let keep_h := keep_f ≫= (λ b, [b; b; b]) in
  let vperm := old_to_new keep_v 0 in
  let fperm := old_to_new keep_f 0 in
  let bperm := old_to_new keep_b 0 in
  let rv := remap_vertex vperm in
  let rh := remap_halfedge fperm bperm in
  let m' :=
    MkTopology (n_vertices_ m) (n_faces_ m) (n_boundary_edges_ m)
      (Field.mk (remap_face rv rh <$> compact keep_f (Field.flat (faces_ m))))
      (Field.mk (rh <$> compact keep_v (Field.flat (vertex_to_edge_ m))))
      (remap_boundary rv rh <$> compact keep_b (boundaries_ m))
      Id_default in
  (MkMutable m'
     (compact_fields keep_v (vertex_fields mm))
     (compact_fields keep_f (face_fields mm))
     (compact_fields keep_h (halfedge_fields mm))
     (id_to_vertex_field mm) (id_to_face_field mm) (id_to_halfedge_field mm)
     (next_field_id mm),
   (permutation_array vperm, permutation_array fperm, permutation_array bperm)).

End Garbage.

(** A mutable mesh without garbage: no erased slot in the three arrays, an
    empty list of erased boundary slots, and no field longer than the array
    it goes with. *)
Definition compacted {type_tag value}
    (mm : MutableTriangleTopology type_tag value) : Prop :=
  let m := base mm in
  Forall (λ h, live_vertex_slot h = true) (Field.flat (vertex_to_edge_ m)) ∧
  Forall (λ fi, live_face_slot fi = true) (Field.flat (faces_ m)) ∧
  Forall (λ b, live_boundary_slot b = true) (boundaries_ m) ∧
  erased_boundaries_ m = Id_default ∧
  Forall (λ a, (length (ua_data a) ≤ length (Field.flat (vertex_to_edge_ m)))%nat)
         (vertex_fields mm) ∧
  Forall (λ a, (length (ua_data a) ≤ length (Field.flat (faces_ m)))%nat)
         (face_fields mm) ∧
  Forall (λ a, (length (ua_data a) ≤ 3 * length (Field.flat (faces_ m)))%nat)
         (halfedge_fields mm).

(** [erased_id] is neither the invalid id nor an index into the arrays. *)
Definition erased_id_outside (m : mesh) : Prop :=
  erased_id ≠ invalid_id ∧
  ¬ (0 ≤ erased_id < Field.size (vertex_to_edge_ m)) ∧
  ¬ (- Array.size (boundaries_ m) ≤ erased_id < 3 * Field.size (faces_ m)).

(** The read [faces[g].neighbors[j]]. *)
Definition neighbor_at (fs : list FaceInfo) (g j : Z) : option HalfedgeId :=
  fi ← Array.get fs g; Vector3.get (neighbors fi) j.

(** What the walking routines other than [reverse] read of a boundary slot. *)
Definition boundary_walk (b : BoundaryInfo.t) : HalfedgeId * HalfedgeId * VertexId :=
  (BoundaryInfo.prev b, BoundaryInfo.next b, BoundaryInfo.src b).

(** *** Tuples of neighbors *)

(** [opposite(FaceId,VertexId)]: the halfedge of [f] across from [v].  The
    call asserts [valid(f) && faces_[f].vertices.contains(v)], with the
    short circuit of [&&]; where the assertion does not hold the call has
    no value. *)
Definition opposite_face (m : mesh) (f : FaceId) (v : VertexId)
  : option HalfedgeId :=
  ok ← valid m f;
  if negb ok then None
  else
    fi ← Field.get (faces_ m) f;
    let vs := vertices fi in
    if negb (Vector3.contains vs v) then None
    else
      Some (MkId (int_add (int_mul 3 (id f))
                    (if bool_decide (Vector3.x vs = v) then 1
                     else if bool_decide (Vector3.y vs = v) then 2 else 0))).

(** [halfedges(FaceId)] *)
Definition halfedges_face (m : mesh) (f : FaceId) : Vector3.t HalfedgeId :=
  Vector3.mk (MkId (int_add (int_mul 3 (id f)) 0))
             (MkId (int_add (int_mul 3 (id f)) 1))
             (MkId (int_add (int_mul 3 (id f)) 2)).

(** [faces(FaceId)] *)
Definition faces_face (m : mesh) (f : FaceId) : option (Vector3.t FaceId) :=
  fi ← Field.get (faces_ m) f; Some (Vector3.map (face m) (neighbors fi)).

(** [vertices(HalfedgeId)] *)
Definition vertices_halfedge (m : mesh) (e : HalfedgeId)
  : option (VertexId * VertexId) :=
  s ← src m e; d ← dst m e; Some (s, d).

(** [vertices(FaceId)] *)
Definition vertices_face (m : mesh) (f : FaceId) : option (Vector3.t VertexId) :=
  vertices <$> Field.get (faces_ m) f.

(** [faces(HalfedgeId)]: [vec(face(e), face(reverse(e)))] *)
Definition faces_halfedge (m : mesh) (e : HalfedgeId) : option (FaceId * FaceId) :=
  r ← reverse m e; Some (face m e, face m r).

(** *** The circulator of the incoming halfedges *)

Record TriangleTopologyIncoming := MkIncoming {
  in_e : HalfedgeId;
  in_first : bool
}.

(** [operator++] *)
Definition incoming_incr (m : mesh) (it : TriangleTopologyIncoming)
  : option TriangleTopologyIncoming :=
  e' ← left m (in_e it); Some (MkIncoming e' false).

(** [operator!=] *)
Definition incoming_neq (it o : TriangleTopologyIncoming) : bool :=
  in_first it || negb (bool_decide (in_e it = in_e o)).

(** [operator*] *)
Definition incoming_deref (m : mesh) (it : TriangleTopologyIncoming)
  : option HalfedgeId :=
  reverse m (in_e it).

(** [incoming(v)] *)
Definition incoming (m : mesh) (v : VertexId)
  : option (TriangleTopologyIncoming * TriangleTopologyIncoming) :=
  e0 ← halfedge_vertex m v;
  let c := MkIncoming e0 (Id_valid e0) in
  Some (c, c).

(** [for (auto e : range(it,end))], collecting the halfedges the body sees. *)
Fixpoint incoming_loop (fuel : nat) (m : mesh)
    (it end_ : TriangleTopologyIncoming) : outcome (list HalfedgeId) :=
  match fuel with
  | O => OutOfFuel
  | S fuel' =>
      if incoming_neq it end_ then
        match incoming_deref m it with
        | None => Fault
        | Some r =>
            match incoming_incr m it with
            | None => Fault
            | Some it' =>
                match incoming_loop fuel' m it' end_ with
                | Done l => Done (r :: l)
                | o => o
                end
            end
        end
      else Done []
  end.

Definition incoming_list (fuel : nat) (m : mesh) (v : VertexId)
  : outcome (list HalfedgeId) :=
  match incoming m v with
  | None => Fault
  | Some (b, e_) => incoming_loop fuel m b e_
  end.

(** *** Iterating over the ids that are not erased *)

Section Iter.
Context {k : kind} `{Handle k}.

(** [while (i!=end && mesh.erased(i)) i.id++;] *)
Fixpoint skip_erased (fuel : nat) (m : mesh) (i end_ : Id k) : outcome (Id k) :=
  match fuel with
  | O => OutOfFuel
  | S fuel' =>
      if bool_decide (i ≠ end_) then
        match erased m i with
        | None => Fault
        | Some true => skip_erased fuel' m (MkId (int_add (id i) 1)) end_
        | Some false => Done i
        end
      else Done i
  end.

(** The constructor [TriangleTopologyIter(mesh,i,end)]. *)
Definition TriangleTopologyIter_make (fuel : nat) (m : mesh) (i end_ : Id k)
  : outcome (TriangleTopologyIter k) :=
  i' ← skip_erased fuel m i end_; Done (MkIter i' end_).

(** The prefix [operator++]. *)
Definition iter_incr (fuel : nat) (m : mesh) (it : TriangleTopologyIter k)
  : outcome (TriangleTopologyIter k) :=
  i' ← skip_erased fuel m (MkId (int_add (id (iter_i it)) 1)) (iter_end it);
  Done (MkIter i' (iter_end it)).

(** [operator!=] *)
Definition iter_neq (it o : TriangleTopologyIter k) : bool :=
  bool_decide (iter_i it ≠ iter_i o).

(** [operator*] *)
Definition iter_deref (it : TriangleTopologyIter k) : Id k := iter_i it.

(** [for (auto i : range(it,end))], collecting the ids the body sees. *)
Fixpoint iter_loop (fuel : nat) (m : mesh) (it end_ : TriangleTopologyIter k)
  : outcome (list (Id k)) :=
  match fuel with
  | O => OutOfFuel
  | S fuel' =>
      if iter_neq it end_ then
        it' ← iter_incr fuel' m it;
        l ← iter_loop fuel' m it' end_;
        Done (iter_deref it :: l)
      else Done []
  end.

(** The range from [TriangleTopologyIter(mesh,lo,hi)] to
    [TriangleTopologyIter(mesh,hi,hi)], iterated. *)
Definition iter_range (fuel : nat) (m : mesh) (lo hi : Id k)
  : outcome (list (Id k)) :=
  b ← TriangleTopologyIter_make fuel m lo hi;
  e_ ← TriangleTopologyIter_make fuel m hi hi;
  iter_loop fuel m b e_.

End Iter.

(** [vertices()], [faces()], [boundary_edges()], [interior_halfedges()] and
    [halfedges()].  As in [all_boundary_edges], the negation of a size is
    written without reduction. *)
Definition vertices_range (fuel : nat) (m : mesh) : outcome (list VertexId) :=
  iter_range fuel m (MkId 0) (MkId (Field.size (vertex_to_edge_ m))).
Definition faces_range (fuel : nat) (m : mesh) : outcome (list FaceId) :=
  iter_range fuel m (MkId 0) (MkId (Field.size (faces_ m))).
Definition boundary_edges_range (fuel : nat) (m : mesh) : outcome (list HalfedgeId) :=
  iter_range fuel m (MkId (- Array.size (boundaries_ m))) (MkId 0).
Definition interior_halfedges_range (fuel : nat) (m : mesh)
  : outcome (list HalfedgeId) :=
  iter_range fuel m (MkId 0) (MkId (int_mul 3 (Field.size (faces_ m)))).
Definition halfedges_range (fuel : nat) (m : mesh) : outcome (list HalfedgeId) :=
  iter_range fuel m (MkId (- Array.size (boundaries_ m)))
                    (MkId (int_mul 3 (Field.size (faces_ m)))).

(** *** More of [Field] *)

(** [Field::id_range()]: the ids from [Id(0)] to [Id(size())]. *)
Definition Field_id_range {A k} (f : Field.t A k) : list (Id k) :=
  id_range 0 (length (Field.flat f)).

(** [Field(const Hashtable<Id,T>& source, const int size, const T def)]:
    [size] entries filled with [def], then [flat[p.x.idx()] = p.y] for every
    entry [p] of the table, in the order of the table. *)
Definition Field_of_table {A k} (source : gmap Z A) (size : Z) (def : A)
  : option (Field.t A k) :=
  Field.mk <$>
    map_fold (λ key y (acc : option (list A)),
                l ← acc; Array.update l key (λ _, y))
             (Some (replicate (Z.to_nat size) def)) source.

(** *** The registry of fields *)

(** Every id in one of the three tables is below the counter of ids. *)
Definition ids_below_next {type_tag value}
    (mm : MutableTriangleTopology type_tag value) : Prop :=
  ∀ k i, is_Some (id_to_prim_field k mm !! i) → i < next_field_id mm.

(** The tables point into the vectors of fields. *)
Definition tables_in_range {type_tag value}
    (mm : MutableTriangleTopology type_tag value) : Prop :=
  ∀ k i j, id_to_prim_field k mm !! i = Some j →
           0 ≤ j < Z.of_nat (length (prim_fields k mm)).

(* ================================================================== *)
(** ** Properties *)

(** *** Orbits of a partial injection on a finite set *)

Section Orbit.
Context {A : Type} `{EqDecision A}.
Variable f : A → option A.
Variable P : A → Prop.
Variable univ : list A.
Hypothesis f_closed : ∀ a, P a → ∃ b, f a = Some b ∧ P b.
Hypothesis f_inj : ∀ a b c, P a → P b → f a = Some c → f b = Some c → a = b.
Hypothesis P_univ : ∀ a, P a → a ∈ univ.

Lemma iter_opt_add i j a :
  iter_opt f (i + j) a = iter_opt f i a ≫= iter_opt f j.
Proof.
  revert a. induction i as [|i IH]; intros a; simpl; [done|].
  destruct (f a) as [b|]; simpl; [apply IH | done].
Qed.

Lemma iter_opt_S_r k a : iter_opt f (S k) a = iter_opt f k a ≫= f.
Proof.
  replace (S k) with (k + 1)%nat by lia. rewrite iter_opt_add.
  destruct (iter_opt f k a) as [b|]; simpl; [|done].
  by destruct (f b).
Qed.

Lemma iter_opt_closed k a : P a → ∃ b, iter_opt f k a = Some b ∧ P b.
Proof.
  revert a. induction k as [|k IH]; intros a Ha; simpl; [eauto|].
  destruct (f_closed a Ha) as (b & -> & Hb). simpl. by apply IH.
Qed.

Lemma iter_opt_inj k a b c :
  P a → P b → iter_opt f k a = Some c → iter_opt f k b = Some c → a = b.
Proof.
  revert a b. induction k as [|k IH]; intros a b Ha Hb; simpl.
  - congruence.
  - destruct (f_closed a Ha) as (a' & Ea & Ha').
    destruct (f_closed b Hb) as (b' & Eb & Hb').
    rewrite Ea, Eb. simpl. intros H1 H2.
    assert (a' = b') as -> by eauto.
    eapply f_inj; eauto.
Qed.

Abbreviation orbit := (orbit f).

Lemma orbit_lookup n a i b :
  P a → orbit n a !! i = Some b ↔ (i < n)%nat ∧ iter_opt f i a = Some b.
Proof.
  intros Ha. unfold orbit.
  assert (∀ s, omap (λ k, iter_opt f k a) (seq s n) !! i = Some b ↔
               (i < n)%nat ∧ iter_opt f (s + i) a = Some b) as H.
  { revert i. induction n as [|n IH]; intros i s; simpl.
    - split; [done | lia].
    - destruct (iter_opt_closed s a Ha) as (c & Ec & _). rewrite Ec.
      destruct i as [|i]; simpl.
      + rewrite Nat.add_0_r, Ec. split; [intros; split; [lia | done] | tauto].
      + rewrite IH. replace (S s + i)%nat with (s + S i)%nat by lia.
        split; intros [? ?]; split; (lia || done). }
  apply (H 0%nat).
Qed.

Lemma orbit_length n a : P a → length (orbit n a) = n.
Proof.
  intros Ha. unfold orbit. generalize 0%nat.
  induction n as [|n IH]; intros s; simpl; [done|].
  destruct (iter_opt_closed s a Ha) as (c & -> & _). simpl. by rewrite IH.
Qed.

Lemma orbit_elem n a b :
  P a → b ∈ orbit n a ↔ ∃ i, (i < n)%nat ∧ iter_opt f i a = Some b.
Proof.
  intros Ha. rewrite list_elem_of_lookup.
  split; intros [i Hi]; exists i; by apply orbit_lookup.
Qed.

Lemma orbit_P n a b : P a → b ∈ orbit n a → P b.
Proof.
  intros Ha (i & _ & Hi)%orbit_elem; [|done].
  destruct (iter_opt_closed i a Ha) as (c & Ec & Hc). congruence.
Qed.

(** Either the first [n] points are pairwise distinct, or the orbit has
    already come back to [a]. *)
Lemma orbit_NoDup_or_period n a :
  P a →
  NoDup (orbit n a) ∨ ∃ p, (0 < p < n)%nat ∧ iter_opt f p a = Some a.
Proof.
  intros Ha. induction n as [|n [IH|IH]].
  - left. unfold orbit. simpl. constructor.
  - destruct (iter_opt_closed n a Ha) as (c & Ec & Hc).
    assert (orbit (S n) a = orbit n a ++ [c]) as Happ.
    { unfold orbit. rewrite seq_S, omap_app. simpl. by rewrite Ec. }
    destruct (decide (c ∈ orbit n a)) as [Hin|Hnin].
    + right. apply orbit_elem in Hin as (i & Hi & Ei); [|done].
      exists (n - i)%nat. split; [lia|].
      destruct (iter_opt_closed (n - i) a Ha) as (d & Ed & Hd).
      rewrite Ed. f_equal.
      apply (iter_opt_inj i d a c); try done.
      replace n with ((n - i) + i)%nat in Ec by lia.
      rewrite iter_opt_add, Ed in Ec. exact Ec.
    + left. rewrite Happ. apply NoDup_app. split_and!; [done | | apply NoDup_singleton].
      intros x Hx ->%list_elem_of_singleton. done.
  - right. destruct IH as (p & Hp & Ep). exists p. split; [lia | done].
Qed.

Lemma orbit_returns a :
  P a → ∃ p, (0 < p ≤ length univ)%nat ∧ iter_opt f p a = Some a.
Proof.
  intros Ha.
  destruct (orbit_NoDup_or_period (S (length univ)) a Ha) as [Hnd|(p & Hp & Ep)].
  - exfalso.
    assert (orbit (S (length univ)) a ⊆+ univ) as Hsub.
    { apply NoDup_submseteq; [done|]. intros x Hx. eapply P_univ, orbit_P; eauto. }
    apply submseteq_length in Hsub. rewrite orbit_length in Hsub by done. lia.
  - exists p. split; [lia | done].
Qed.

(** The period of [a]: the least positive number of steps that lead back. *)
Lemma orbit_period a :
  P a →
  ∃ p, (0 < p ≤ length univ)%nat ∧ iter_opt f p a = Some a ∧
       ∀ j, (0 < j < p)%nat → iter_opt f j a ≠ Some a.
Proof.
  intros Ha. destruct (orbit_returns a Ha) as (p & Hp & Ep).
  revert Hp Ep. induction p as [p IH] using lt_wf_ind. intros Hp Ep.
  destruct (decide (Exists (λ j, (0 < j)%nat ∧ iter_opt f j a = Some a) (seq 0 p)))
    as [Hex|Hno].
  - apply Exists_exists in Hex as (j & Hj%elem_of_seq & Hj0 & Ej).
    destruct (IH j ltac:(lia) ltac:(lia) Ej) as (q & Hq & Eq & Hmin).
    exists q. split_and!; [lia | lia | done | done].
  - exists p. split_and!; [lia | lia | done |].
    intros j Hj Ej. apply Hno, Exists_exists. exists j.
    rewrite elem_of_seq. split_and!; (lia || done).
Qed.

Lemma orbit_period_NoDup a p :
  P a → iter_opt f p a = Some a →
  (∀ j, (0 < j < p)%nat → iter_opt f j a ≠ Some a) →
  NoDup (orbit p a).
Proof.
  intros Ha Ep Hmin. apply NoDup_alt. intros i j x Hi Hj.
  apply orbit_lookup in Hi as [Hi Ei]; [|done].
  apply orbit_lookup in Hj as [Hj Ej]; [|done].
  assert (∀ i j, (i < j)%nat → (j < p)%nat →
            iter_opt f i a = Some x → iter_opt f j a = Some x → False) as Hlt.
  { clear i j Hi Hj Ei Ej. intros i j Hij Hj Ei Ej.
    apply (Hmin (j - i)%nat); [lia|].
    destruct (iter_opt_closed (j - i) a Ha) as (d & Ed & Hd).
    rewrite Ed. f_equal. apply (iter_opt_inj i d a x); try done.
    replace j with ((j - i) + i)%nat in Ej by lia.
    rewrite iter_opt_add, Ed in Ej. exact Ej. }
  destruct (lt_eq_lt_dec i j) as [[H|H]|H]; [|done|]; exfalso; eauto.
Qed.

Lemma orbit_period_mod a p k :
  P a → (0 < p)%nat → iter_opt f p a = Some a →
  iter_opt f k a = iter_opt f (k `mod` p) a.
Proof.
  intros Ha Hp Ep. induction k as [k IH] using lt_wf_ind.
  destruct (decide (k < p)%nat) as [Hlt|Hge].
  - by rewrite Nat.mod_small.
  - replace k with (p + (k - p))%nat at 1 by lia.
    rewrite iter_opt_add, Ep. simpl. rewrite IH by lia.
    f_equal. replace k with ((k - p) + 1 * p)%nat at 2 by lia.
    by rewrite Nat.Div0.mod_add.
Qed.

End Orbit.

(** *** Arithmetic of the handle encoding *)

Lemma wrap_small z : is_int z → wrap z = z.
Proof.
  unfold is_int, int_min, int_max, wrap. intros H.
  rewrite Z.mod_small by lia. lia.
Qed.

Lemma wrap_is_int z : is_int (wrap z).
Proof.
  unfold is_int, int_min, int_max, wrap.
  pose proof (Z.mod_pos_bound (z + 2 ^ 31) (2 ^ 32)). lia.
Qed.

Lemma array_valid_spec {A} (l : list A) i :
  Array.valid l i = true ↔ 0 ≤ i < Array.size l.
Proof. unfold Array.valid. rewrite andb_true_iff. lia. Qed.

Lemma array_get_unfold {A} (l : list A) i :
  Array.get l i = if 0 <=? i then l !! Z.to_nat i else None.
Proof.
  unfold Array.get, Array.valid, Array.size.
  destruct (0 <=? i) eqn:E; simpl; [|done]. apply Z.leb_le in E.
  destruct (i <? Z.of_nat (length l)) eqn:E'; [done|]. apply Z.ltb_ge in E'.
  symmetry. apply lookup_ge_None. lia.
Qed.

Lemma array_get_is_Some {A} (l : list A) i :
  is_Some (Array.get l i) ↔ 0 ≤ i < Array.size l.
Proof.
  rewrite array_get_unfold. unfold Array.size. case_match.
  - rewrite lookup_lt_is_Some. lia.
  - split; [intros [? ?]; discriminate | lia].
Qed.

Lemma array_get_valid {A} (l : list A) i :
  Array.valid l i = true → is_Some (Array.get l i).
Proof. rewrite array_valid_spec. apply array_get_is_Some. Qed.

Lemma array_get_invalid {A} (l : list A) i :
  Array.valid l i = false → Array.get l i = None.
Proof.
  intros H. destruct (Array.get l i) eqn:E; [|done].
  assert (is_Some (Array.get l i)) as Hs by (rewrite E; eauto).
  apply array_get_is_Some, array_valid_spec in Hs. congruence.
Qed.

(** *** Validity and deletion *)

Lemma and_not_law (a : bool) (s : option Z) :
  (a = true → is_Some s) → (a = false → s = None) →
  let er := (λ x, x =? erased_id) <$> s in
  is_Some (and_not a er) ∧
  (and_not a er = Some true ↔ a = true ∧ er = Some false) ∧
  (er = Some true → and_not a er = Some false) ∧
  (a = false → and_not a er = Some false ∧ s = None).
Proof.
  intros Ht Hf er. subst er. destruct a; simpl.
  - destruct (Ht eq_refl) as [x ->]. simpl.
    destruct (x =? erased_id); simpl; split_and!; eauto; try done;
      (split; [done | intros [_ ?]; done]).
  - rewrite (Hf eq_refl). simpl. split_and!; eauto; try done.
    split; [done | intros [? _]; done].
Qed.

Lemma vertex_tombstone_law (m : mesh) :
  tombstone_law m (vertex_in_range m) (vertex_sentinel m).
Proof.
  intros v.
  assert (erased m v = (λ s, s =? erased_id) <$> vertex_sentinel m v) as He.
  { simpl. unfold erased_vertex, vertex_sentinel.
    destruct (Field.get (vertex_to_edge_ m) v); done. }
  split; [exact He|].
  simpl in *. unfold valid_vertex. rewrite He.
  apply and_not_law; unfold vertex_in_range, vertex_sentinel, Field.valid, Field.get.
  - intros Hv. apply array_get_valid in Hv. destruct Hv as [x ->]. simpl. eauto.
  - intros Hv. apply array_get_invalid in Hv. by rewrite Hv.
Qed.

Lemma face_tombstone_law (m : mesh) :
  tombstone_law m (face_in_range m) (face_sentinel m).
Proof.
  intros f.
  assert (erased m f = (λ s, s =? erased_id) <$> face_sentinel m f) as He.
  { simpl. unfold erased_face, face_sentinel.
    destruct (Field.get (faces_ m) f); done. }
  split; [exact He|].
  simpl in *. unfold valid_face. rewrite He.
  apply and_not_law; unfold face_in_range, face_sentinel, Field.valid, Field.get.
  - intros Hv. apply array_get_valid in Hv. destruct Hv as [x ->]. simpl. eauto.
  - intros Hv. apply array_get_invalid in Hv. by rewrite Hv.
Qed.

Lemma halfedge_tombstone_law (m : mesh) :
  tombstone_law m (halfedge_in_range m) (halfedge_sentinel m).
Proof.
  intros h.
  destruct (0 <=? id h) eqn:Hsign.
  - pose proof (face_tombstone_law m (MkId (int_div (id h) 3))) as Hf.
    simpl in *.
    unfold erased_halfedge, valid_halfedge, halfedge_in_range, halfedge_sentinel.
    rewrite Hsign.
    replace (fi ← Array.get (Field.flat (faces_ m)) (int_div (id h) 3);
             Some (id (Vector3.x (vertices fi)) =? erased_id))
      with (erased_face m (MkId (int_div (id h) 3))) by done.
    exact Hf.
  - assert (erased m h = (λ s, s =? erased_id) <$> halfedge_sentinel m h) as He.
    { simpl. unfold erased_halfedge, halfedge_sentinel. rewrite Hsign.
      destruct (Array.get (boundaries_ m) (-1 - id h)); done. }
    split; [exact He|].
    assert (valid m h =
            and_not (Array.valid (boundaries_ m) (-1 - id h)) (erased m h)) as Hv.
    { simpl. unfold valid_halfedge, erased_halfedge, and_not. rewrite Hsign.
      destruct (Array.valid (boundaries_ m) (-1 - id h)); [|done].
      destruct (Array.get (boundaries_ m) (-1 - id h)); done. }
    rewrite Hv, He.
    unfold halfedge_in_range, halfedge_sentinel. rewrite Hsign.
    apply and_not_law.
    + intros Hr. apply array_get_valid in Hr. destruct Hr as [x ->]. simpl. eauto.
    + intros Hr. apply array_get_invalid in Hr. by rewrite Hr.
Qed.

(** C10. For the three kinds of ids, [valid(id)] holds exactly when the id
    is within the current array range and not erased, so an erased id is not
    valid; an id out of range is invalid although its sentinel cannot be
    read; and [erased] compares one slot with [erased_id]:
    [vertex_to_edge_[v]] for a vertex, [faces_[f].vertices.x] for a face and
    for an interior halfedge of [f], [boundaries_[-1-e].src] for a boundary
    halfedge. *)
Theorem valid_iff_in_range_and_not_erased (m : mesh) :
  tombstone_law m (vertex_in_range m) (vertex_sentinel m) ∧
  tombstone_law m (face_in_range m) (face_sentinel m) ∧
  tombstone_law m (halfedge_in_range m) (halfedge_sentinel m).
Proof.
  split_and!;
    [apply vertex_tombstone_law | apply face_tombstone_law
    | apply halfedge_tombstone_law].
Qed.

(** *** The encoding of halfedges *)

Lemma valid_face_spec (m : mesh) (f : FaceId) :
  valid m f = Some true → 0 ≤ id f < Field.size (faces_ m).
Proof.
  intros H. apply (face_tombstone_law m f) in H as [H _].
  by apply array_valid_spec in H.
Qed.

Lemma quot3_bounds (z : Z) :
  0 ≤ z → 0 ≤ int_div z 3 ∧ 0 ≤ z - 3 * int_div z 3 < 3.
Proof.
  intros Hz. unfold int_div.
  pose proof (Z.quot_rem' z 3) as H1.
  pose proof (Z.rem_bound_pos z 3 Hz eq_refl) as H2.
  pose proof (Z.quot_pos z 3 Hz eq_refl) as H3.
  revert H1 H2 H3. generalize (z `quot` 3) (z `rem` 3). lia.
Qed.

Lemma corner_quot (f i : Z) : 0 ≤ f → 0 ≤ i < 3 → (3 * f + i) `quot` 3 = f.
Proof.
  intros Hf Hi. rewrite Z.quot_div_nonneg by lia.
  symmetry. apply (Z.div_unique _ _ _ i); lia.
Qed.

Lemma halfedge_id (m : mesh) (f : FaceId) (i : Z) :
  within_limits m → valid m f = Some true → 0 ≤ i < 3 →
  id (halfedge m f i) = 3 * id f + i.
Proof.
  intros (Hl & _) Hf Hi. apply valid_face_spec in Hf.
  unfold halfedge, int_add, int_mul. simpl.
  unfold int_max in Hl.
  rewrite (wrap_small (3 * id f)) by (unfold is_int, int_min, int_max; lia).
  apply wrap_small. unfold is_int, int_min, int_max; lia.
Qed.

Lemma valid_halfedge_range (m : mesh) (h : HalfedgeId) :
  valid m h = Some true →
  - Array.size (boundaries_ m) ≤ id h < 3 * Field.size (faces_ m).
Proof.
  intros H. apply (halfedge_tombstone_law m h) in H as [H _].
  unfold halfedge_in_range, face_in_range, Field.valid, idx in H.
  destruct (0 <=? id h) eqn:Hs; apply array_valid_spec in H; simpl in H.
  - apply Z.leb_le in Hs. pose proof (quot3_bounds (id h) Hs).
    unfold Field.size, Array.size, int_div in *. lia.
  - apply Z.leb_gt in Hs. unfold Field.size, Array.size in *. lia.
Qed.

(** C2. In a mesh within the limits of [int], [halfedge(f,i)] of a valid
    face [f] and a corner [i] in [0,3) is the interior halfedge [3*f+i],
    whose face is [f]; a valid halfedge is a boundary halfedge exactly when
    its id is negative, that is when it is [-1-b] for a slot [b] of
    [boundaries_], and it is interior exactly when it is some
    [halfedge(f,i)]; [face(e)] is [FaceId(e/3)] for a non-negative [e] and
    the invalid id for a negative one. *)
Theorem halfedge_encoding (m : mesh) :
  within_limits m →
  (∀ (f : FaceId) (i : Z), valid m f = Some true → 0 ≤ i < 3 →
     id (halfedge m f i) = 3 * id f + i ∧
     valid m (halfedge m f i) = Some true ∧
     is_boundary m (halfedge m f i) = false ∧
     face m (halfedge m f i) = f) ∧
  (∀ h : HalfedgeId, valid m h = Some true →
     (is_boundary m h = true ↔ id h < 0) ∧
     (is_boundary m h = true ↔
        ∃ b, Array.valid (boundaries_ m) b = true ∧ id h = (-1) - b) ∧
     (is_boundary m h = false ↔
        ∃ (f : FaceId) (i : Z),
          valid m f = Some true ∧ 0 ≤ i < 3 ∧ h = halfedge m f i) ∧
     (0 ≤ id h → face m h = MkId (int_div (id h) 3)) ∧
     (id h < 0 → face m h = Id_default ∧ Id_valid (face m h) = false)).
Proof.
  intros Hlim.
  assert (∀ (f : FaceId) (i : Z), valid m f = Some true → 0 ≤ i < 3 →
     id (halfedge m f i) = 3 * id f + i ∧
     valid m (halfedge m f i) = Some true ∧
     is_boundary m (halfedge m f i) = false ∧
     face m (halfedge m f i) = f) as Hcorner.
  { intros f i Hf Hi.
    pose proof (halfedge_id m f i Hlim Hf Hi) as Hid.
    pose proof (valid_face_spec m f Hf) as Hr.
    assert ((0 <=? id (halfedge m f i)) = true) as Hs by (apply Z.leb_le; lia).
    assert (int_div (id (halfedge m f i)) 3 = id f) as Hq
      by (rewrite Hid; apply corner_quot; lia).
    split_and!.
    - exact Hid.
    - simpl. unfold valid_halfedge. rewrite Hs, Hq.
      destruct f; exact Hf.
    - unfold is_boundary. apply Z.ltb_ge. lia.
    - unfold face. rewrite Hs, Hq. by destruct f. }
  split; [exact Hcorner|].
  intros h Hh.
  assert (is_boundary m h = true ↔ id h < 0) as Hb
    by (unfold is_boundary; apply Z.ltb_lt).
  split_and!.
  - exact Hb.
  - rewrite Hb. split.
    + intros Hneg. exists (-1 - id h). split; [|lia].
      apply (halfedge_tombstone_law m h) in Hh as [Hh _].
      unfold halfedge_in_range in Hh.
      destruct (0 <=? id h) eqn:Hs; [apply Z.leb_le in Hs; lia | exact Hh].
    + intros (b & Hv & ->). apply array_valid_spec in Hv. lia.
  - split.
    + intros Hnb.
      assert (0 ≤ id h) as Hs.
      { destruct (decide (id h < 0)) as [Hn|]; [|lia].
        apply Hb in Hn. congruence. }
      exists (MkId (int_div (id h) 3)), (id h - 3 * int_div (id h) 3).
      assert (valid m (MkId (k:=Face) (int_div (id h) 3)) = Some true) as Hf.
      { simpl in Hh. unfold valid_halfedge in Hh.
        destruct (0 <=? id h) eqn:E; [exact Hh | apply Z.leb_gt in E; lia]. }
      assert (0 ≤ id h - 3 * int_div (id h) 3 < 3) as Hi.
      { by apply quot3_bounds. }
      split_and!; [exact Hf | lia | lia |].
      destruct (Hcorner _ _ Hf Hi) as (Hid & _).
      destruct h as [z], (halfedge m _ _) as [z']. simpl in *. f_equal. lia.
    + intros (f & i & Hf & Hi & ->).
      by destruct (Hcorner f i Hf Hi) as (_ & _ & ? & _).
  - intros Hs. unfold face. by apply Z.leb_le in Hs as ->.
  - intros Hs. unfold face. apply Z.leb_gt in Hs as ->.
    split; [done|]. unfold Id_valid, Id_default. simpl.
    by rewrite Z.eqb_refl.
Qed.

(** *** Erasing a boundary halfedge *)

Lemma array_update_Some {A} (l : list A) i (g : A → A) :
  Array.valid l i = true →
  ∃ a, Array.get l i = Some a ∧
       Array.update l i g = Some (<[Z.to_nat i := g a]> l).
Proof.
  intros Hv. destruct (array_get_valid _ _ Hv) as [a Ha].
  exists a. split; [done|]. unfold Array.update. by rewrite Ha.
Qed.

Lemma array_get_insert_eq {A} (l : list A) i (a : A) :
  Array.valid l i = true → Array.get (<[Z.to_nat i := a]> l) i = Some a.
Proof.
  intros Hv. apply array_valid_spec in Hv. rewrite array_get_unfold.
  unfold Array.size in *.
  destruct (0 <=? i) eqn:E; [|apply Z.leb_gt in E; lia].
  apply list_lookup_insert_eq. lia.
Qed.

Lemma array_get_insert_ne {A} (l : list A) i j (a : A) :
  0 ≤ i → j ≠ i → Array.get (<[Z.to_nat i := a]> l) j = Array.get l j.
Proof.
  intros Hi Hne. rewrite !array_get_unfold. destruct (0 <=? j) eqn:E; [|done].
  apply Z.leb_le in E. apply list_lookup_insert_ne. lia.
Qed.

(** C8. Erasing the boundary halfedge [b] of an allocated slot writes
    [erased_id] into the slot's [src], makes its [next] the previous head of
    the list of erased slots, makes [b] the new head, and takes one off the
    count of boundary edges; the slot's [prev] and [reverse], the other
    slots, the faces, the vertex map, the other two counts and the sizes of
    the arrays stay as they were. *)
Theorem unsafe_set_erased_boundary (m : mesh) (b : HalfedgeId) :
  Array.valid (boundaries_ m) (-1 - id b) = true →
  int_min < n_boundary_edges_ m ≤ int_max →
  ∃ (m' : mesh) (old : BoundaryInfo.t),
    unsafe_set_erased m b = Some m' ∧
    Array.get (boundaries_ m) (-1 - id b) = Some old ∧
    Array.get (boundaries_ m') (-1 - id b) =
      Some (BoundaryInfo.mk (BoundaryInfo.prev old) (erased_boundaries_ m)
                            (BoundaryInfo.reverse old) (MkId erased_id)) ∧
    erased_boundaries_ m' = b ∧
    n_boundary_edges_ m' = n_boundary_edges_ m - 1 ∧
    (∀ j, j ≠ -1 - id b →
          Array.get (boundaries_ m') j = Array.get (boundaries_ m) j) ∧
    Array.size (boundaries_ m') = Array.size (boundaries_ m) ∧
    faces_ m' = faces_ m ∧
    vertex_to_edge_ m' = vertex_to_edge_ m ∧
    n_vertices_ m' = n_vertices_ m ∧
    n_faces_ m' = n_faces_ m.
Proof.
  intros Hv Hn. set (i := -1 - id b) in *.
  assert (0 ≤ i) as Hi by (apply array_valid_spec in Hv; lia).
  destruct (array_update_Some _ _ (set_src (MkId erased_id)) Hv)
    as (old & Hold & Hu1).
  set (bs := <[Z.to_nat i := set_src (MkId erased_id) old]> (boundaries_ m)) in *.
  assert (Array.valid bs i = true) as Hv1.
  { apply array_valid_spec. apply array_valid_spec in Hv.
    unfold bs, Array.size in *. by rewrite length_insert. }
  destruct (array_update_Some _ _ (set_next (erased_boundaries_ m)) Hv1)
    as (mid & Hmid & Hu2).
  assert (mid = set_src (MkId erased_id) old) as ->.
  { unfold bs in Hmid. rewrite array_get_insert_eq in Hmid by done. congruence. }
  eexists _, old. split.
  { simpl. unfold unsafe_set_erased_halfedge. fold i.
    rewrite Hu1. simpl. rewrite Hu2. simpl. reflexivity. }
  simpl. split_and!; try done.
  - rewrite array_get_insert_eq by done. done.
  - unfold int_sub. apply wrap_small. unfold is_int. lia.
  - intros j Hj. rewrite array_get_insert_ne by done.
    unfold bs. by rewrite array_get_insert_ne.
  - unfold Array.size, bs. by rewrite !length_insert.
Qed.

(** *** The walk around a vertex *)

Lemma src_valid (m : mesh) (h : HalfedgeId) :
  valid m h = Some true → is_Some (src m h).
Proof.
  intros Hv. pose proof (valid_halfedge_range m h Hv) as Hr.
  apply (halfedge_tombstone_law m h) in Hv as [Hv _].
  unfold halfedge_in_range, face_in_range, Field.valid, idx in Hv.
  unfold src. destruct (0 <=? id h) eqn:Hs.
  - apply Z.leb_le in Hs. simpl in Hv.
    destruct (array_get_valid _ _ Hv) as [fi ->]. simpl.
    destruct (quot3_bounds (id h) Hs) as [_ Hi].
    unfold Vector3.get.
    repeat (case_match; [eauto|]).
    repeat match goal with H : (_ =? _) = false |- _ => apply Z.eqb_neq in H end.
    lia.
  - destruct (array_get_valid _ _ Hv) as [b ->]. simpl. eauto.
Qed.

Lemma int_add_small a b : is_int (a + b) → int_add a b = a + b.
Proof. apply wrap_small. Qed.

(** Inside a face, [next] moves to the corner whose vertex is [dst]. *)
Lemma dst_src_next (m : mesh) (p h : HalfedgeId) :
  within_limits m → valid m p = Some true → next m p = Some h →
  is_Some (dst m p) → dst m p = src m h.
Proof.
  intros (Hl & _) Hv Hn Hd. pose proof (valid_halfedge_range m p Hv) as Hr.
  unfold next, dst, src in *. destruct (0 <=? id p) eqn:Hs.
  - apply Z.leb_le in Hs. destruct (quot3_bounds (id p) Hs) as [Hq Hi].
    assert (int_rem (id p) 3 = id p - 3 * int_div (id p) 3) as Hrem.
    { unfold int_rem, int_div. pose proof (Z.quot_rem' (id p) 3). lia. }
    rewrite Hrem in Hn. injection Hn as <-. simpl.
    set (f := int_div (id p) 3) in *. set (i := id p - 3 * f) in *.
    unfold int_max in Hl.
    destruct (i =? 2) eqn:Ei.
    + apply Z.eqb_eq in Ei.
      rewrite int_add_small by (unfold is_int, int_min, int_max; lia).
      assert (id p + -2 = 3 * f + 0) as -> by lia.
      assert ((0 <=? 3 * f + 0) = true) as -> by (apply Z.leb_le; lia).
      rewrite corner_quot by lia. fold f.
      by replace (3 * f + 0 - 3 * f) with 0 by lia.
    + apply Z.eqb_neq in Ei.
      rewrite !int_add_small by (unfold is_int, int_min, int_max; lia).
      assert (id p + 1 = 3 * f + (i + 1)) as -> by lia.
      assert ((0 <=? 3 * f + (i + 1)) = true) as -> by (apply Z.leb_le; lia).
      rewrite corner_quot by lia. fold f.
      by replace (3 * f + (i + 1) - 3 * f) with (i + 1) by lia.
  - destruct (Array.get (boundaries_ m) (-1 - id p)) as [b|]; [|done].
    simpl in *. injection Hn as <-.
    destruct (0 <=? id (BoundaryInfo.next b)) eqn:Hs'; [|done].
    exfalso. apply Z.leb_le in Hs'. destruct Hd as [x Hx].
    rewrite array_get_unfold in Hx.
    destruct (0 <=? -1 - id (BoundaryInfo.next b)) eqn:E;
      [apply Z.leb_le in E; lia | done].
Qed.

Section Walk.
Variable m : mesh.
Hypothesis Hlim : within_limits m.
Hypothesis Hlinks : links_consistent m.

Let live : HalfedgeId → Prop := live m.

Lemma left_closed h :
  live h → ∃ h', left m h = Some h' ∧ live h' ∧ src m h' = src m h.
Proof.
  intros Hh.
  destruct (links_prev m Hlinks h Hh) as (p & Ep & Hp & En).
  destruct (links_reverse m Hlinks p Hp) as (r & Er & Hr & _ & Hsd).
  exists r. unfold left. rewrite Ep. simpl. split_and!; [done | done |].
  rewrite Hsd. apply dst_src_next; try done.
  rewrite <- Hsd. by apply src_valid.
Qed.

Lemma left_inj h1 h2 c :
  live h1 → live h2 → left m h1 = Some c → left m h2 = Some c → h1 = h2.
Proof.
  intros H1 H2 E1 E2.
  destruct (links_prev m Hlinks h1 H1) as (p1 & Ep1 & Hp1 & En1).
  destruct (links_prev m Hlinks h2 H2) as (p2 & Ep2 & Hp2 & En2).
  unfold left in E1, E2. rewrite Ep1 in E1. rewrite Ep2 in E2. simpl in *.
  destruct (links_reverse m Hlinks p1 Hp1) as (r1 & Er1 & _ & Err1 & _).
  destruct (links_reverse m Hlinks p2 Hp2) as (r2 & Er2 & _ & Err2 & _).
  assert (r1 = c) as -> by congruence.
  assert (r2 = c) as -> by congruence.
  assert (p1 = p2) as -> by congruence.
  congruence.
Qed.

Lemma left_closed' h : live h → ∃ h', left m h = Some h' ∧ live h'.
Proof. intros Hh. destruct (left_closed h Hh) as (h' & ? & ? & _). eauto. Qed.

Lemma left_iter_src k h h' :
  live h → left_iter m k h = Some h' → live h' ∧ src m h' = src m h.
Proof.
  unfold left_iter. revert h. induction k as [|k IH]; intros h Hh; simpl.
  - intros [= <-]. done.
  - destruct (left_closed h Hh) as (x & -> & Hx & Hsx). simpl.
    intros Hk. destruct (IH x Hx Hk) as [? ?]. split; [done | congruence].
Qed.

Lemma id_range_elem {k} lo n (i : Id k) :
  i ∈ id_range lo n ↔ lo ≤ id i < lo + Z.of_nat n.
Proof.
  unfold id_range. rewrite list_elem_of_fmap. split.
  - intros (j & -> & Hj%elem_of_seq). simpl. lia.
  - intros Hi. exists (Z.to_nat (id i - lo)). split.
    + destruct i as [z]. simpl in *. f_equal. lia.
    + apply elem_of_seq. lia.
Qed.

Lemma id_range_NoDup {k} lo n : NoDup (id_range (k:=k) lo n).
Proof.
  unfold id_range. apply NoDup_fmap_2; [|apply NoDup_seq].
  intros i j [= H]. lia.
Qed.

Lemma live_all_halfedges h : live h → h ∈ all_halfedges m.
Proof.
  intros Hh. apply valid_halfedge_range in Hh.
  unfold all_halfedges. apply id_range_elem.
  unfold Field.size, Array.size in *. lia.
Qed.

(** The loop of [outgoing] along an orbit of period [p]: entered at the
    [j]-th point with [n] points to go, it collects these [n] points. *)
Lemma outgoing_loop_orbit (e0 : HalfedgeId) (p : nat) (fst : bool) :
  live e0 → (0 < p)%nat → left_iter m p e0 = Some e0 →
  (∀ j, (0 < j < p)%nat → left_iter m j e0 ≠ Some e0) →
  ∀ n j x fuel, (j + n = p)%nat → (n < fuel)%nat →
    left_iter m j e0 = Some x →
    outgoing_loop fuel m (MkOutgoing x (bool_decide (j = 0%nat)))
                  (MkOutgoing e0 fst)
    = Done (omap (λ k, left_iter m k e0) (seq j n)).
Proof.
  intros He0 Hp Ep Hmin. induction n as [|n IH]; intros j x fuel Hj Hf Ex.
  - destruct fuel as [|fuel]; [lia|]. simpl.
    assert (x = e0) as -> by (rewrite Nat.add_0_r in Hj; subst j; congruence).
    unfold outgoing_neq. simpl.
    rewrite (bool_decide_eq_false_2 (j = 0%nat)) by lia.
    by rewrite bool_decide_eq_true_2.
  - destruct fuel as [|fuel]; [lia|]. simpl.
    assert (outgoing_neq (MkOutgoing x (bool_decide (j = 0%nat)))
                         (MkOutgoing e0 fst) = true) as ->.
    { unfold outgoing_neq. simpl. destruct (decide (j = 0%nat)) as [->|Hj0].
      - done.
      - rewrite (bool_decide_eq_false_2 (j = 0%nat)) by done. simpl.
        rewrite bool_decide_eq_false_2; [done|].
        intros ->. apply (Hmin j); [lia | done]. }
    destruct (left_iter_src j e0 x He0 Ex) as [Hx _].
    destruct (left_closed' x Hx) as (x' & Ex' & _).
    assert (left_iter m (S j) e0 = Some x') as ESj.
    { unfold left_iter in *. rewrite iter_opt_S_r, Ex. exact Ex'. }
    unfold outgoing_incr. simpl. rewrite Ex'. simpl.
    pose proof (IH (S j) x' fuel ltac:(lia) ltac:(lia) ESj) as IH'.
    rewrite (bool_decide_eq_false_2 (S j = 0%nat)) in IH' by lia.
    rewrite IH'. by rewrite Ex.
Qed.

End Walk.

Lemma links_consistent_b_sound (m : mesh) :
  links_consistent_b m = true → links_consistent m.
Proof.
  unfold links_consistent_b. rewrite forallb_forall. intros Hall.
  assert (∀ h : HalfedgeId, valid m h = Some true → links_ok_at m h = true) as Hok.
  { intros h Hh. pose proof (live_all_halfedges m h Hh) as Hin.
    apply list_elem_of_In, Hall in Hin.
    by rewrite bool_decide_eq_true_2 in Hin. }
  split; intros h Hh; specialize (Hok h Hh); unfold links_ok_at in Hok;
    destruct (prev m h) as [p|]; try done;
    destruct (reverse m h) as [r|]; try done;
    rewrite !andb_true_iff, !bool_decide_eq_true in Hok;
    destruct Hok as ((((? & ?) & ?) & ?) & ?); eauto 10.
Qed.

Lemma manifold_at_b_sound (m : mesh) (v : VertexId) :
  manifold_at_b m v = true → manifold_at m v.
Proof.
  unfold manifold_at_b, manifold_at.
  destruct (halfedge_vertex m v) as [e0|]; [|done].
  intros H. exists e0. split; [done|].
  destruct (Id_valid e0).
  - rewrite !andb_true_iff, !bool_decide_eq_true, forallb_forall in H.
    destruct H as ((Hv & Hs) & Hall). split_and!; try done.
    intros h Hh Hsh.
    pose proof (live_all_halfedges m h Hh) as Hin.
    apply list_elem_of_In, Hall in Hin.
    unfold leaves in Hin.
    rewrite !bool_decide_eq_true_2 in Hin by done. simpl in Hin.
    apply bool_decide_eq_true in Hin.
    unfold orbit in Hin. apply list_elem_of_omap in Hin as (k & _ & Hk).
    by exists k.
  - rewrite forallb_forall in H. intros h Hh Hsh.
    pose proof (live_all_halfedges m h Hh) as Hin.
    apply list_elem_of_In, H in Hin. unfold leaves in Hin.
    by rewrite !bool_decide_eq_true_2 in Hin.
Qed.

Lemma valid_vertex_in_range (m : mesh) (v : VertexId) :
  valid m v = Some true → 0 ≤ id v < Field.size (vertex_to_edge_ m).
Proof.
  intros H. apply (vertex_tombstone_law m v) in H as [H _].
  by apply array_valid_spec in H.
Qed.

Lemma manifold_mesh_b_sound (m : mesh) :
  within_limits m → manifold_mesh_b m = true → manifold_mesh m.
Proof.
  intros Hlim. unfold manifold_mesh_b.
  rewrite !andb_true_iff, !forallb_forall. intros ((Hlinks & Hh) & Hv).
  assert (∀ h : HalfedgeId, valid m h = Some true →
            (∃ v, src m h = Some v ∧ valid m v = Some true) ∧
            src m h ≠ dst m h) as Hh'.
  { intros h Hlive. pose proof (live_all_halfedges m h Hlive) as Hin.
    apply list_elem_of_In, Hh in Hin.
    rewrite bool_decide_eq_true_2 in Hin by done. simpl in Hin.
    apply andb_true_iff in Hin as [H1 H2].
    destruct (src m h) as [v|] eqn:E; [|done].
    apply bool_decide_eq_true in H1. apply negb_true_iff in H2.
    apply bool_decide_eq_false in H2. split; [by exists v | done]. }
  split.
  - exact Hlim.
  - by apply links_consistent_b_sound.
  - intros h v Hlive Hs. destruct (Hh' h Hlive) as [(v' & Hs' & Hv') _].
    congruence.
  - intros h Hlive. by destruct (Hh' h Hlive).
  - intros v Hlive. apply manifold_at_b_sound.
    assert (v ∈ all_vertices m) as Hin.
    { apply valid_vertex_in_range in Hlive.
      unfold all_vertices. apply id_range_elem.
      unfold Field.size, Array.size in Hlive. lia. }
    apply list_elem_of_In, Hv in Hin.
    by rewrite bool_decide_eq_true_2 in Hin.
Qed.

Lemma degree_of_list (m : mesh) (v : VertexId) (l : list HalfedgeId) :
  within_limits m → NoDup l →
  (∀ h, h ∈ l ↔ valid m h = Some true ∧ src m h = Some v) →
  length l = degree m v.
Proof.
  intros Hlim Hnd Hl. unfold degree. apply Permutation_length.
  apply NoDup_Permutation; [done | apply NoDup_filter, id_range_NoDup |].
  intros h. rewrite list_elem_of_filter, Hl. unfold leaves.
  rewrite andb_true_iff, !bool_decide_eq_true.
  split; [|tauto]. intros [Hv Hs]. split_and!; try done.
  by apply live_all_halfedges.
Qed.

(** C9. In a mesh within the limits of [int] whose links are consistent,
    the walk [outgoing(v)] around a valid vertex [v] whose outgoing
    halfedges form one fan ends: with any fuel above the degree of [v] it
    returns a list [l].  The list has as many entries as the degree of [v],
    has no repetition, holds exactly the valid halfedges that leave [v],
    each entry is followed by its [left] (the last one by the first), it
    starts at [halfedge(v)], and it is empty for an isolated vertex. *)
Theorem outgoing_walk (m : mesh) (v : VertexId) :
  within_limits m → links_consistent m →
  valid m v = Some true → manifold_at m v →
  ∃ l : list HalfedgeId,
    (∀ fuel, (length l < fuel)%nat → outgoing_list fuel m v = Done l) ∧
    length l = degree m v ∧
    NoDup l ∧
    (∀ h, h ∈ l ↔ valid m h = Some true ∧ src m h = Some v) ∧
    (∀ i h, l !! i = Some h → left m h = l !! (S i `mod` length l)%nat) ∧
    (isolated m v = Some false → head l = halfedge_vertex m v) ∧
    (isolated m v = Some true → l = []).
Proof.
  intros Hlim Hlinks Hv (e0 & He0 & Hfan).
  destruct (Id_valid e0) eqn:Hval.
  - destruct Hfan as (Hlive & Hsrc & Hreach).
    pose (P := live m).
    pose proof (left_closed' m Hlim Hlinks) as Hcl.
    pose proof (left_inj m Hlinks) as Hinj.
    destruct (orbit_period (left m) P (all_halfedges m) Hcl Hinj
                (live_all_halfedges m) e0 Hlive)
      as (p & Hp & Ep & Hmin).
    pose proof (orbit_length (left m) P Hcl p e0 Hlive) as Hlen.
    pose proof (orbit_period_NoDup (left m) P Hcl Hinj e0 p Hlive Ep Hmin) as Hnd.
    assert (∀ h, h ∈ orbit (left m) p e0 ↔
                 valid m h = Some true ∧ src m h = Some v) as Hmem.
    { intros h. rewrite (orbit_elem (left m) P Hcl) by done. split.
      - intros (i & _ & Hi).
        destruct (left_iter_src m Hlim Hlinks i e0 h Hlive Hi) as [? ?].
        split; [done | congruence].
      - intros [Hh Hs]. destruct (Hreach h Hh Hs) as [k Hk].
        exists (k `mod` p)%nat. split; [apply Nat.mod_upper_bound; lia|].
        unfold left_iter in Hk.
        by rewrite <- (orbit_period_mod (left m) P e0 p k) by (done || lia). }
    exists (orbit (left m) p e0). rewrite Hlen. split_and!.
    + intros fuel Hf. unfold outgoing_list, outgoing. rewrite He0. simpl.
      rewrite Hval.
      apply (outgoing_loop_orbit m Hlim Hlinks e0 p true Hlive
               ltac:(lia) Ep Hmin p 0%nat e0 fuel); [lia | done | done].
    + rewrite <- Hlen. by apply degree_of_list.
    + exact Hnd.
    + exact Hmem.
    + intros i h Hi.
      apply (orbit_lookup (left m) P Hcl) in Hi as [Hi Ei]; [|done].
      assert (left m h = iter_opt (left m) (S i) e0) as ->
        by (rewrite iter_opt_S_r, Ei; done).
      rewrite (orbit_period_mod (left m) P e0 p (S i)) by (done || lia).
      destruct (iter_opt_closed (left m) P Hcl (S i `mod` p) e0 Hlive)
        as (c & Ec & _).
      rewrite Ec. symmetry.
      apply (orbit_lookup (left m) P Hcl); [done|].
      split; [apply Nat.mod_upper_bound; lia | done].
    + intros _. rewrite He0.
      destruct p as [|p]; [lia|]. unfold orbit. simpl. done.
    + unfold isolated. rewrite He0. simpl. rewrite Hval. done.
  - exists []. split_and!.
    + intros fuel Hf. unfold outgoing_list, outgoing. rewrite He0. simpl.
      rewrite Hval. destruct fuel as [|fuel]; [simpl in Hf; lia|]. simpl.
      unfold outgoing_neq. simpl. by rewrite bool_decide_eq_true_2.
    + apply degree_of_list; [done | constructor |].
      intros h. split; [by intros ?%elem_of_nil|].
      intros [Hh Hs]. by destruct (Hfan h Hh).
    + constructor.
    + intros h. split; [by intros ?%elem_of_nil|].
      intros [Hh Hs]. by destruct (Hfan h Hh).
    + intros i h Hi. done.
    + unfold isolated. rewrite He0. simpl. rewrite Hval. done.
    + done.
Qed.

(** *** Corners of a face *)

(** What the walking routines give at corner [i] of the face [f]. *)
Lemma interior_corner (m : mesh) (h : HalfedgeId) :
  within_limits m → valid m h = Some true → 0 ≤ id h →
  ∃ f i fi,
    id h = 3 * f + i ∧ 0 ≤ i < 3 ∧ 0 ≤ f < Field.size (faces_ m) ∧
    valid m (MkId (k:=Face) f) = Some true ∧
    Array.get (Field.flat (faces_ m)) f = Some fi ∧
    face m h = MkId f ∧
    next m h = Some (MkId (3 * f + (if i =? 2 then 0 else i + 1))) ∧
    prev m h = Some (MkId (3 * f + (if i =? 0 then 2 else i - 1))) ∧
    src m h = Vector3.get (vertices fi) i ∧
    dst m h = Vector3.get (vertices fi) (if i =? 2 then 0 else i + 1) ∧
    reverse m h = Vector3.get (neighbors fi) i.
Proof.
  intros (Hl & _) Hv Hs. pose proof (valid_halfedge_range m h Hv) as Hr.
  destruct (quot3_bounds (id h) Hs) as [Hq Hi].
  set (f := int_div (id h) 3) in *. set (i := id h - 3 * f) in *.
  assert (0 ≤ f < Field.size (faces_ m)) as Hf by lia.
  assert (is_Some (Array.get (Field.flat (faces_ m)) f)) as [fi Hfi]
    by (apply array_get_is_Some; exact Hf).
  assert (int_rem (id h) 3 = i) as Hrem.
  { unfold int_rem. pose proof (Z.quot_rem' (id h) 3).
    unfold i, f, int_div. lia. }
  exists f, i, fi.
  assert ((0 <=? id h) = true) as Hsb by (by apply Z.leb_le).
  unfold face, next, prev, src, dst, reverse. rewrite Hsb, Hrem. fold f. fold i.
  rewrite Hfi. simpl. unfold int_max in Hl.
  assert (id h = 3 * f + i) as Hid by (unfold i; lia).
  assert (valid m (MkId (k:=Face) f) = Some true) as Hvf.
  { simpl in Hv. unfold valid_halfedge in Hv. by rewrite Hsb in Hv. }
  clearbody i f.
  assert (i = 0 ∨ i = 1 ∨ i = 2) as Hcases by lia.
  split_and!; try done; try lia.
  - do 2 f_equal.
    destruct Hcases as [-> | [-> | ->]]; simpl;
      rewrite int_add_small by (unfold is_int, int_min, int_max; lia); lia.
  - do 2 f_equal.
    destruct Hcases as [-> | [-> | ->]]; simpl;
      rewrite int_add_small by (unfold is_int, int_min, int_max; lia); lia.
  - destruct Hcases as [-> | [-> | ->]]; simpl;
      rewrite ?int_add_small by (unfold is_int, int_min, int_max; lia); done.
Qed.

Lemma valid_corner (m : mesh) (f i : Z) :
  within_limits m → valid m (MkId (k:=Face) f) = Some true → 0 ≤ i < 3 →
  valid m (MkId (k:=Halfedge) (3 * f + i)) = Some true.
Proof.
  intros Hlim Hf Hi. pose proof (valid_face_spec _ _ Hf) as Hr. simpl in Hr.
  simpl. unfold valid_halfedge. simpl.
  assert ((0 <=? 3 * f + i) = true) as -> by (apply Z.leb_le; lia).
  by rewrite corner_quot by lia.
Qed.

Lemma valid_face_of_halfedge (m : mesh) (h : HalfedgeId) :
  valid m h = Some true → 0 ≤ id h →
  valid m (MkId (k:=Face) (int_div (id h) 3)) = Some true.
Proof.
  intros Hv Hs. simpl in Hv. unfold valid_halfedge in Hv.
  apply Z.leb_le in Hs. by rewrite Hs in Hv.
Qed.

Lemma src_corner (m : mesh) (f j : Z) :
  0 ≤ f → 0 ≤ j < 3 →
  src m (MkId (3 * f + j)) =
    vs ← face_vertices m !! Z.to_nat f; Vector3.get vs j.
Proof.
  intros Hf Hj. unfold src, face_vertices. simpl.
  assert ((0 <=? 3 * f + j) = true) as -> by (apply Z.leb_le; lia).
  rewrite corner_quot by lia. rewrite array_get_unfold.
  assert ((0 <=? f) = true) as -> by (by apply Z.leb_le).
  rewrite list_lookup_fmap.
  replace (3 * f + j - 3 * f) with j by lia.
  by destruct (Field.flat (faces_ m) !! Z.to_nat f).
Qed.

Lemma dst_corner (m : mesh) (f j : Z) :
  0 ≤ f → 0 ≤ j < 3 →
  dst m (MkId (3 * f + j)) =
    vs ← face_vertices m !! Z.to_nat f;
    Vector3.get vs (if j =? 2 then 0 else j + 1).
Proof.
  intros Hf Hj. unfold dst, face_vertices. simpl.
  assert ((0 <=? 3 * f + j) = true) as -> by (apply Z.leb_le; lia).
  rewrite corner_quot by lia. rewrite array_get_unfold.
  assert ((0 <=? f) = true) as -> by (by apply Z.leb_le).
  rewrite list_lookup_fmap.
  replace (3 * f + j - 3 * f) with j by lia.
  destruct (Field.flat (faces_ m) !! Z.to_nat f); simpl; [|done].
  destruct (j =? 2) eqn:E; [done|]. apply Z.eqb_neq in E.
  by rewrite int_add_small by (unfold is_int, int_min, int_max; lia).
Qed.

(** *** Edits of the links *)

Lemma same_shape_refl m : same_shape m m.
Proof. by repeat split. Qed.




Lemma set_neighbor_ok (fs : list FaceInfo) (f i : Z) (r : HalfedgeId) :
  0 ≤ f < Array.size fs → 0 ≤ i < 3 →
  ∃ fs', set_neighbor fs f i r = Some fs' ∧ vertices <$> fs' = vertices <$> fs.
Proof.
  intros Hf Hi. unfold set_neighbor.
  destruct (proj2 (array_get_is_Some fs f) Hf) as [fi Hfi].
  rewrite Hfi. simpl.
  assert (∃ ns, Vector3.set (neighbors fi) i r = Some ns) as [ns ->].
  { unfold Vector3.set.
    assert (i = 0 ∨ i = 1 ∨ i = 2) as [-> | [-> | ->]] by lia; simpl; eauto. }
  simpl. unfold Array.update. rewrite Hfi. simpl. eexists. split; [done|].
  rewrite list_fmap_insert. simpl. apply list_insert_id.
  rewrite list_lookup_fmap. rewrite array_get_unfold in Hfi.
  destruct (0 <=? f); [|done]. by rewrite Hfi.
Qed.



Lemma field_update_ok {A k} (fl : Field.t A k) (i : Id k) (g : A → A) :
  0 ≤ id i < Field.size fl →
  ∃ a, Field.get fl i = Some a ∧
       Field.update fl i g = Some (Field.mk (<[Z.to_nat (id i) := g a]> (Field.flat fl))).
Proof.
  intros Hi. unfold Field.update, Field.get, idx.
  destruct (array_update_Some (Field.flat fl) (id i) g) as (a & Ha & ->);
    [by apply array_valid_spec|].
  by exists a.
Qed.


Ltac corner_lia :=
  repeat match goal with
         | |- context [?a =? ?b] => destruct (Z.eqb_spec a b)
         end; lia.



(** *** Looking an edge up, and the test before a flip *)

Lemma outgoing_list_total (m : mesh) (v : VertexId) (fuel : nat) :
  manifold_mesh m → valid m v = Some true →
  (length (all_halfedges m) < fuel)%nat →
  ∃ l, outgoing_list fuel m v = Done l ∧
       ∀ h, h ∈ l ↔ valid m h = Some true ∧ src m h = Some v.
Proof.
  intros [Hlim Hlinks _ _ Hfan] Hv Hfuel.
  destruct (Hfan v Hv) as (e0 & He0 & Hshape).
  unfold outgoing_list, outgoing. rewrite He0. simpl.
  destruct (Id_valid e0) eqn:Hval.
  - destruct Hshape as (Hlive & Hsrc & Hreach).
    pose proof (left_closed' m Hlim Hlinks) as Hcl.
    pose proof (left_inj m Hlinks) as Hinj.
    destruct (orbit_period (left m) (live m) (all_halfedges m) Hcl Hinj
                (live_all_halfedges m) e0 Hlive) as (p & Hp & Ep & Hmin).
    exists (orbit (left m) p e0). split.
    + apply (outgoing_loop_orbit m Hlim Hlinks e0 p true Hlive
               ltac:(lia) Ep Hmin p 0%nat e0 fuel); [lia | lia | done].
    + intros h. rewrite (orbit_elem (left m) (live m) Hcl) by done. split.
      * intros (i & _ & Hi).
        destruct (left_iter_src m Hlim Hlinks i e0 h Hlive Hi) as [? ?].
        split; [done | congruence].
      * intros [Hh Hs]. destruct (Hreach h Hh Hs) as [k Hk].
        exists (k `mod` p)%nat. split; [apply Nat.mod_upper_bound; lia|].
        unfold left_iter in Hk.
        by rewrite <- (orbit_period_mod (left m) (live m) e0 p k) by (done || lia).
  - exists []. split.
    + destruct fuel as [|fuel]; [lia|]. simpl.
      unfold outgoing_neq. simpl. by rewrite bool_decide_eq_true_2.
    + intros h. split; [by intros ?%elem_of_nil|].
      intros [Hh Hs]. by destruct (Hshape h Hh).
Qed.

Lemma dst_valid (m : mesh) (h : HalfedgeId) :
  links_consistent m → valid m h = Some true → is_Some (dst m h).
Proof.
  intros Hlinks Hh.
  destruct (links_reverse m Hlinks h Hh) as (r & _ & Hr & _ & <-).
  by apply src_valid.
Qed.

Lemma find_dst_total (m : mesh) (v1 : VertexId) (l : list HalfedgeId) :
  (∀ h, h ∈ l → is_Some (dst m h)) → is_Some (find_dst m v1 l).
Proof.
  induction l as [|h l IH]; intros Hl; simpl; [eauto|].
  destruct (Hl h) as [d ->]; [by left|]. simpl.
  destruct (decide (d = v1)); [eauto|].
  apply IH. intros h' Hh'. apply Hl. by right.
Qed.

Lemma halfedge_between_total (m : mesh) (v0 v1 : VertexId) (fuel : nat) :
  manifold_mesh m → valid m v0 = Some true →
  (length (all_halfedges m) < fuel)%nat →
  ∃ h, halfedge_between fuel m v0 v1 = Done h.
Proof.
  intros Hm Hv Hfuel.
  destruct (outgoing_list_total m v0 fuel Hm Hv Hfuel) as (l & Hl & Hmem).
  unfold halfedge_between. rewrite Hl. simpl.
  destruct (find_dst_total m v1 l) as [h ->]; [|by exists h].
  intros h [Hh _]%Hmem. apply dst_valid; [apply Hm | done].
Qed.



(** *** Adding a face over an edge that is taken *)

Lemma no_duplicate_edges_b_sound (m : mesh) :
  no_duplicate_edges_b m = true → no_duplicate_edges m.
Proof.
  unfold no_duplicate_edges_b. rewrite forallb_forall.
  intros Hall h h' Hh Hh' Hs Hd.
  pose proof (live_all_halfedges m h Hh) as Hin.
  pose proof (live_all_halfedges m h' Hh') as Hin'.
  apply list_elem_of_In, Hall in Hin. rewrite forallb_forall in Hin.
  apply list_elem_of_In, Hin in Hin'.
  rewrite !bool_decide_eq_true_2 in Hin' by done. simpl in Hin'.
  by apply bool_decide_eq_true in Hin'.
Qed.

Lemma find_dst_first (m : mesh) (b : VertexId) (l : list HalfedgeId) h' :
  find_dst m b l = Some h' →
  (h' ∈ l ∧ dst m h' = Some b) ∨
  (h' = Id_default ∧ ∀ h, h ∈ l → dst m h ≠ Some b).
Proof.
  induction l as [|h l IH]; simpl.
  - intros [= <-]. right. split; [done|]. by intros h ?%elem_of_nil.
  - destruct (dst m h) as [d|] eqn:Ed; simpl; [|done].
    destruct (decide (d = b)) as [->|Hne].
    + intros [= <-]. left. split; [by left | done].
    + intros [[Hin Hd]|[-> Hnone]]%IH.
      * left. split; [by right | done].
      * right. split; [done|]. intros h0 [->|Hin]%elem_of_cons; [congruence|].
        by apply Hnone.
Qed.

Lemma edge_taken_true (m : mesh) (h : HalfedgeId) (a b : VertexId) (fuel : nat) :
  manifold_mesh m → no_duplicate_edges m → invalid_id_outside m →
  (length (all_halfedges m) < fuel)%nat →
  valid m h = Some true → is_boundary m h = false →
  src m h = Some a → dst m h = Some b →
  edge_taken fuel m a b = Done true.
Proof.
  intros Hm Hdup Hout Hfuel Hh Hb Hs Hd.
  assert (valid m a = Some true) as Ha by (eapply (mm_src m Hm); eauto).
  destruct (outgoing_list_total m a fuel Hm Ha Hfuel) as (l & Hl & Hmem).
  unfold edge_taken, halfedge_between. rewrite Hl. simpl.
  destruct (find_dst_total m b l) as [h' Hh'].
  { intros h0 [Hh0 _]%Hmem. apply dst_valid; [apply Hm | done]. }
  rewrite Hh'. simpl.
  destruct (find_dst_first m b l h' Hh') as [[Hin Hd']|[_ Hnone]].
  - apply Hmem in Hin as [Hv' Hs'].
    assert (h' = h) as -> by (apply Hdup; congruence).
    rewrite Hb. simpl. rewrite andb_true_r. f_equal.
    unfold Id_valid. apply negb_true_iff, Z.eqb_neq.
    pose proof (valid_halfedge_range m h Hh). unfold invalid_id_outside in Hout.
    lia.
  - exfalso. apply (Hnone h); [|done]. apply Hmem. done.
Qed.

Lemma edge_taken_total (m : mesh) (a b : VertexId) (fuel : nat) :
  manifold_mesh m → (length (all_halfedges m) < fuel)%nat →
  valid m a = Some true → ∃ t, edge_taken fuel m a b = Done t.
Proof.
  intros Hm Hfuel Ha.
  destruct (halfedge_between_total m a b fuel Hm Ha Hfuel) as [h Hh].
  unfold edge_taken. rewrite Hh. simpl. eauto.
Qed.

(** C4. On a manifold mesh without duplicate edges, if one of the three
    oriented edges of a triangle on valid vertices is already the edge of a
    face (a valid interior halfedge runs along it), then [add_face] throws
    [ValueError] and returns the mesh it was given: the counts and the
    whole structure are those before the call, whatever [add_face] does
    when no edge is taken. *)
Theorem add_face_taken_edge
    (wire : mesh → Vector3.t VertexId → outcome (mesh * (exception + FaceId)))
    (m : mesh) (v : Vector3.t VertexId) (h : HalfedgeId) (a b : VertexId)
    (fuel : nat) :
  manifold_mesh m → no_duplicate_edges m → invalid_id_outside m →
  (length (all_halfedges m) < fuel)%nat →
  valid m (Vector3.x v) = Some true → valid m (Vector3.y v) = Some true →
  valid m (Vector3.z v) = Some true →
  valid m h = Some true → is_boundary m h = false →
  src m h = Some a → dst m h = Some b → edge_of v a b →
  ∃ m', add_face wire fuel m v = Done (m', inl ValueError) ∧
        m' = m ∧
        n_vertices m' = n_vertices m ∧ n_faces m' = n_faces m ∧
        n_boundary_edges m' = n_boundary_edges m.
Proof.
  intros Hm Hdup Hout Hfuel Hx Hy Hz Hh Hb Hs Hd Hedge.
  exists m. split; [|done].
  pose proof (edge_taken_true m h a b fuel Hm Hdup Hout Hfuel Hh Hb Hs Hd) as Ht.
  destruct (edge_taken_total m (Vector3.x v) (Vector3.y v) fuel Hm Hfuel Hx)
    as [t0 H0].
  destruct (edge_taken_total m (Vector3.y v) (Vector3.z v) fuel Hm Hfuel Hy)
    as [t1 H1].
  destruct (edge_taken_total m (Vector3.z v) (Vector3.x v) fuel Hm Hfuel Hz)
    as [t2 H2].
  unfold add_face. rewrite H0, H1, H2. simpl.
  assert (t0 || t1 || t2 = true) as ->; [|done].
  destruct Hedge as [[-> ->]|[[-> ->]|[-> ->]]].
  - assert (t0 = true) as -> by congruence. done.
  - assert (t1 = true) as -> by congruence. by rewrite orb_true_r.
  - assert (t2 = true) as -> by congruence. by rewrite orb_true_r.
Qed.

(** *** The Euler characteristic *)

Lemma n_edges_small (m : mesh) :
  counts_within_limits m →
  n_edges m = (3 * n_faces_ m + n_boundary_edges_ m) `div` 2.
Proof.
  intros (Hv & Hf & Hb & Hl). unfold n_edges, int_shr, int_add, int_mul.
  rewrite (wrap_small (3 * n_faces_ m))
    by (unfold is_int, int_min, int_max in *; lia).
  rewrite wrap_small by (unfold is_int, int_min, int_max in *; lia).
  by rewrite Z.shiftr_div_pow2 by lia.
Qed.

Lemma wrap_add_l a b : wrap (wrap a + b) = wrap (a + b).
Proof.
  unfold wrap. f_equal.
  replace ((a + 2 ^ 31) `mod` 2 ^ 32 - 2 ^ 31 + b + 2 ^ 31)
    with ((a + 2 ^ 31) `mod` 2 ^ 32 + b) by lia.
  rewrite Zplus_mod_idemp_l. f_equal. lia.
Qed.

Lemma chi_small (m : mesh) :
  counts_within_limits m →
  chi m = wrap (n_vertices_ m
                - (3 * n_faces_ m + n_boundary_edges_ m) `div` 2 + n_faces_ m).
Proof.
  intros Hm. unfold chi, int_add, int_sub, n_vertices, n_faces.
  by rewrite wrap_add_l, n_edges_small.
Qed.

(** What the edits do to the counts, read off the runs that succeed. *)

Lemma outcome_bind_Done {A B} (f : A → outcome B) (o : outcome A) (b : B) :
  o ≫= f = Done b → ∃ a, o = Done a ∧ f a = Done b.
Proof. destruct o; [eauto | done | done]. Qed.

Lemma of_option_Done {A} (o : option A) (a : A) : of_option o = Done a → o = Some a.
Proof. destruct o; simpl; congruence. Qed.

Lemma unsafe_set_reverse_counts (m m' : mesh) (f : FaceId) (i : Z) (r : HalfedgeId) :
  unsafe_set_reverse m f i r = Some m' → counts m' = counts m.
Proof.
  unfold unsafe_set_reverse. intros H.
  apply bind_Some in H as (fs & _ & H).
  destruct (0 <=? id r); apply bind_Some in H as (? & _ & [= <-]); done.
Qed.

Lemma unsafe_boundary_link_counts (m m' : mesh) (p n : HalfedgeId) :
  unsafe_boundary_link m p n = Some m' → counts m' = counts m.
Proof.
  unfold unsafe_boundary_link. intros H.
  apply bind_Some in H as (? & _ & H). apply bind_Some in H as (? & _ & [= <-]).
  done.
Qed.

Ltac link_counts :=
  repeat match goal with
  | H : unsafe_set_reverse _ _ _ _ = Some _ |- _ =>
      apply unsafe_set_reverse_counts in H
  | H : unsafe_boundary_link _ _ _ = Some _ |- _ =>
      apply unsafe_boundary_link_counts in H
  end.

Lemma unsafe_flip_edge_counts (m m' : mesh) (e0 e' : HalfedgeId) :
  unsafe_flip_edge m e0 = Some (m', e') → counts m' = counts m.
Proof.
  unfold unsafe_flip_edge. intros H.
  repeat (apply bind_Some in H as (? & ? & H)).
  injection H as <- _. link_counts.
  unfold counts in *. simpl in *. congruence.
Qed.

Lemma unsafe_split_halfedge_counts (m m' : mesh) (h : HalfedgeId) (nf : FaceId)
    (c : VertexId) (hs : HalfedgeId * HalfedgeId) :
  unsafe_split_halfedge m h nf c = Some (m', hs) → counts m' = counts m.
Proof.
  unfold unsafe_split_halfedge. intros H.
  repeat (apply bind_Some in H as (? & ? & H)).
  injection H as <- _. link_counts.
  unfold counts in *. simpl in *. congruence.
Qed.

Lemma unsafe_new_boundary_counts (m m' : mesh) (s : VertexId) (r b : HalfedgeId) :
  unsafe_new_boundary m s r = Some (m', b) →
  counts m' = (n_vertices_ m, n_faces_ m, int_add (n_boundary_edges_ m) 1).
Proof.
  unfold unsafe_new_boundary. intros H.
  destruct (Id_valid (erased_boundaries_ m)).
  - apply bind_Some in H as (? & _ & H). apply bind_Some in H as (? & _ & H).
    by injection H as <- _.
  - by injection H as <- _.
Qed.

Lemma split_face_links_counts (m m' : mesh) (f : FaceId) (c : VertexId) :
  split_face_links m f c = Some m' →
  counts m' = (n_vertices_ m, int_add (n_faces_ m) 2, n_boundary_edges_ m).
Proof.
  unfold split_face_links. intros H.
  repeat (apply bind_Some in H as (? & ? & H)).
  injection H as <-. link_counts.
  unfold counts in *. simpl in *. congruence.
Qed.

Lemma split_edge_links_counts (m m' : mesh) (e : HalfedgeId) (c : VertexId) :
  split_edge_links m e c = Some m' →
  counts m' = (n_vertices_ m, int_add (n_faces_ m) 2, n_boundary_edges_ m) ∨
  counts m' = (n_vertices_ m, int_add (n_faces_ m) 1,
               int_add (n_boundary_edges_ m) 1).
Proof.
  unfold split_edge_links. intros H.
  apply bind_Some in H as (h & _ & H). apply bind_Some in H as (r & _ & H).
  simpl in H.
  apply bind_Some in H as ([m1 [h0 h1]] & H1 & H).
  apply unsafe_split_halfedge_counts in H1.
  destruct (is_boundary _ r).
  - right.
    apply bind_Some in H as (nx & _ & H).
    apply bind_Some in H as ([m2 r'] & H2 & H).
    apply unsafe_new_boundary_counts in H2.
    repeat (apply bind_Some in H as (? & ? & H)).
    injection H as <-. link_counts.
    unfold counts in *. simpl in *. congruence.
  - left. simpl in H.
    apply bind_Some in H as ([m2 [r0 r1]] & H2 & H).
    apply unsafe_split_halfedge_counts in H2.
    repeat (apply bind_Some in H as (? & ? & H)).
    injection H as <-. link_counts.
    unfold counts in *. simpl in *.
    assert (int_add (int_add (n_faces_ m) 1) 1 = int_add (n_faces_ m) 2) as <-.
    { unfold int_add. rewrite wrap_add_l. f_equal. lia. }
    congruence.
Qed.

(** A split that is given a vertex is made only if the vertex is a valid
    vertex that is isolated, and then it adds faces as the split with a
    new vertex does. *)
Lemma split_face_at_counts (m m' : mesh) (f : FaceId) (c : VertexId) :
  split_face_at m f c = Done (m', true) →
  valid m c = Some true ∧ isolated m c = Some true ∧
  counts m' = (n_vertices_ m, int_add (n_faces_ m) 2, n_boundary_edges_ m).
Proof.
  unfold split_face_at. intros H.
  apply outcome_bind_Done in H as (vf & Hvf%of_option_Done & H).
  apply outcome_bind_Done in H as (vc & Hvc%of_option_Done & H).
  destruct vf, vc; simpl in H; try done.
  apply outcome_bind_Done in H as (iso & Hiso%of_option_Done & H).
  destruct iso; simpl in H; [|done].
  apply outcome_bind_Done in H as (m1 & Hm1%of_option_Done & [= <-]).
  split_and!; [done..|]. by apply split_face_links_counts in Hm1.
Qed.

Lemma split_edge_at_counts (m m' : mesh) (e : HalfedgeId) (c : VertexId) :
  split_edge_at m e c = Done (m', true) →
  valid m c = Some true ∧ isolated m c = Some true ∧
  (counts m' = (n_vertices_ m, int_add (n_faces_ m) 2, n_boundary_edges_ m) ∨
   counts m' = (n_vertices_ m, int_add (n_faces_ m) 1,
                int_add (n_boundary_edges_ m) 1)).
Proof.
  unfold split_edge_at. intros H.
  apply outcome_bind_Done in H as (ve & Hve%of_option_Done & H).
  apply outcome_bind_Done in H as (vc & Hvc%of_option_Done & H).
  destruct ve, vc; simpl in H; try done.
  apply outcome_bind_Done in H as (iso & Hiso%of_option_Done & H).
  destruct iso; simpl in H; [|done].
  apply outcome_bind_Done in H as (m1 & Hm1%of_option_Done & [= <-]).
  split_and!; [done..|]. by apply split_edge_links_counts in Hm1.
Qed.

(** The new vertices, faces and boundary halfedges of an edit that
    succeeds: a flip makes none; a split makes a vertex unless it is given
    one, and two faces, or one face and one boundary halfedge. *)
Lemma apply_edit_counts (fuel : nat) (m m' : mesh) (ed : edit) :
  apply_edit fuel m ed = Done (Some m') →
  match ed with
  | FlipEdge _ => counts m' = counts m
  | _ =>
      let V := if uses_isolated_vertex ed then n_vertices_ m
               else int_add (n_vertices_ m) 1 in
      counts m' = (V, int_add (n_faces_ m) 2, n_boundary_edges_ m) ∨
      counts m' = (V, int_add (n_faces_ m) 1, int_add (n_boundary_edges_ m) 1)
  end.
Proof.
  destruct ed as [e|f|f c|e|e c]; simpl; intros H.
  - apply outcome_bind_Done in H as ([m1 r] & H & Hr).
    destruct r as [x|e']; [done|]. injection Hr as <-.
    unfold flip_edge in H.
    apply outcome_bind_Done in H as (safe & _ & H).
    destruct safe; [|done].
    apply outcome_bind_Done in H as ([m2 e2] & H%of_option_Done & [= <- _]).
    by apply unsafe_flip_edge_counts in H.
  - apply outcome_bind_Done in H as ([m1 r] & H & Hr).
    destruct r as [c|]; [|done]. injection Hr as <-.
    unfold split_face in H.
    apply outcome_bind_Done in H as (vf & _ & H).
    destruct vf; simpl in H; [|done].
    apply outcome_bind_Done in H as ([m2 ok] & H & Hr).
    destruct ok; [|done]. injection Hr as <- _.
    apply split_face_at_counts in H as (_ & _ & H). by left.
  - apply outcome_bind_Done in H as ([m1 ok] & H & Hr).
    destruct ok; [|done]. injection Hr as <-.
    apply split_face_at_counts in H as (_ & _ & H). by left.
  - apply outcome_bind_Done in H as ([m1 r] & H & Hr).
    destruct r as [c|]; [|done]. injection Hr as <-.
    unfold split_edge in H.
    apply outcome_bind_Done in H as (ve & _ & H).
    destruct ve; simpl in H; [|done].
    apply outcome_bind_Done in H as ([m2 ok] & H & Hr).
    destruct ok; [|done]. injection Hr as <- _.
    by apply split_edge_at_counts in H as (_ & _ & H).
  - apply outcome_bind_Done in H as ([m1 ok] & H & Hr).
    destruct ok; [|done]. injection Hr as <-.
    by apply split_edge_at_counts in H as (_ & _ & H).
Qed.

(** A split that is given a vertex needs an isolated one. *)
Lemma split_at_needs_isolated (fuel : nat) (m m' : mesh) (ed : edit) :
  uses_isolated_vertex ed = true → apply_edit fuel m ed = Done (Some m') →
  ∃ c : VertexId, valid m c = Some true ∧ isolated m c = Some true.
Proof.
  destruct ed as [e|f|f c|e|e c]; simpl; intros Hu H; try done.
  - apply outcome_bind_Done in H as ([m1 ok] & H & Hr).
    destruct ok; [|done].
    apply split_face_at_counts in H as (? & ? & _). by exists c.
  - apply outcome_bind_Done in H as ([m1 ok] & H & Hr).
    destruct ok; [|done].
    apply split_edge_at_counts in H as (? & ? & _). by exists c.
Qed.

Lemma int_add_count (a d : Z) :
  0 ≤ a ≤ int_max → 0 ≤ d ≤ 2 → 0 ≤ int_add a d → int_add a d = a + d.
Proof.
  unfold int_max, int_add, wrap. intros Ha Hd Hpos.
  destruct (decide (a + d ≤ 2 ^ 31 - 1)) as [Hle|Hgt].
  - rewrite Z.mod_small by lia. lia.
  - exfalso.
    replace (a + d + 2 ^ 31) with ((a + d - 2 ^ 31) + 1 * 2 ^ 32) in Hpos by lia.
    rewrite Z_mod_plus_full, Z.mod_small in Hpos by lia. lia.
Qed.

Lemma wrap_wrap (a : Z) : wrap (wrap a) = wrap a.
Proof. apply wrap_small, wrap_is_int. Qed.

Lemma wrap_sub_l (a b : Z) : wrap (wrap a - b) = wrap (a - b).
Proof.
  replace (wrap a - b) with (wrap a + - b) by lia.
  by rewrite wrap_add_l.
Qed.

(** The arithmetic of one split: [dv] new vertices, and two new faces, or
    one new face and one new boundary halfedge. *)
Lemma split_counts_chi (V F B V' F' B' dv : Z) :
  0 ≤ V ≤ int_max → 0 ≤ F → 0 ≤ B → 3 * F + B ≤ int_max →
  0 ≤ V' → 0 ≤ F' → 0 ≤ B' → 0 ≤ dv ≤ 1 →
  (V', F', B') = (int_add V dv, int_add F 2, B) ∨
  (V', F', B') = (int_add V dv, int_add F 1, int_add B 1) →
  V' - (3 * F' + B') `div` 2 + F' = V - (3 * F + B) `div` 2 + F - (1 - dv).
Proof.
  intros HV HF HB Hl HV' HF' HB' Hdv H.
  assert (0 ≤ F ≤ int_max ∧ 0 ≤ B ≤ int_max) as [HF2 HB2]
    by (unfold int_max in *; lia).
  destruct H as [[= -> -> ->] | [= -> -> ->]].
  - rewrite (int_add_count V dv) in * by (done || lia).
    rewrite (int_add_count F 2) in * by (done || lia).
    replace (3 * (F + 2) + B) with (3 * F + B + 3 * 2) by lia.
    rewrite Z.div_add by lia. lia.
  - rewrite (int_add_count V dv) in * by (done || lia).
    rewrite (int_add_count F 1) in * by (done || lia).
    rewrite (int_add_count B 1) in * by (done || lia).
    replace (3 * (F + 1) + (B + 1)) with (3 * F + B + 2 * 2) by lia.
    rewrite Z.div_add by lia. lia.
Qed.

(** One edit: [chi] keeps its value, or goes down by one if the split was
    given an isolated vertex. *)
Lemma edit_step_chi (ed : edit) (m m' : mesh) :
  counts_within_limits m → edit_step ed m m' →
  chi m' = wrap (chi m - (if uses_isolated_vertex ed then 1 else 0)).
Proof.
  intros Hm [[fuel Hrun] (Hm' & _ & _)]. apply apply_edit_counts in Hrun.
  rewrite !chi_small by done. rewrite wrap_sub_l. f_equal.
  destruct Hm as (Hv & Hf & Hb & Hl). destruct Hm' as (Hv' & Hf' & Hb' & Hl').
  assert (int_add (n_vertices_ m) 0 = n_vertices_ m) as Hv0.
  { unfold int_add. rewrite Z.add_0_r. apply wrap_small.
    unfold is_int, int_min, int_max in *. lia. }
  unfold counts in Hrun.
  destruct ed as [e|f|f c|e|e c]; simpl in Hrun.
  - injection Hrun as -> -> ->. simpl. lia.
  - rewrite (split_counts_chi (n_vertices_ m) (n_faces_ m) (n_boundary_edges_ m)
               _ _ _ 1); simpl; (done || lia).
  - rewrite <- Hv0 in Hrun.
    rewrite (split_counts_chi (n_vertices_ m) (n_faces_ m) (n_boundary_edges_ m)
               _ _ _ 0); simpl; (done || lia).
  - rewrite (split_counts_chi (n_vertices_ m) (n_faces_ m) (n_boundary_edges_ m)
               _ _ _ 1); simpl; (done || lia).
  - rewrite <- Hv0 in Hrun.
    rewrite (split_counts_chi (n_vertices_ m) (n_faces_ m) (n_boundary_edges_ m)
               _ _ _ 0); simpl; (done || lia).
Qed.

(** *** Compaction *)

Lemma compact_all_true {A} (keep : list bool) (l : list A) :
  Forall (λ b, b = true) keep → (length l ≤ length keep)%nat →
  compact keep l = l.
Proof.
  intros Hk. revert l. induction Hk as [|b keep -> _ IH]; intros l Hl.
  - destruct l; [done | simpl in Hl; lia].
  - destruct l as [|a l]; [done|]. simpl in *. f_equal. apply IH. lia.
Qed.

Lemma compact_length_le {A} (keep : list bool) (l : list A) :
  (length (compact keep l) ≤ length (compact keep keep))%nat.
Proof.
  revert l. induction keep as [|b keep IH]; intros l; [done|].
  destruct l as [|a l]; simpl; [lia|].
  destruct b; simpl; specialize (IH l); lia.
Qed.

Lemma compact_length_eq {A} (keep : list bool) (l : list A) :
  length l = length keep →
  length (compact keep l) = length (compact keep keep).
Proof.
  revert l. induction keep as [|b keep IH]; intros l Hl.
  - by destruct l.
  - destruct l as [|a l]; [done|]. simpl in *.
    destruct b; simpl; rewrite (IH l) by lia; done.
Qed.

Lemma compact_length_bound {A} (keep : list bool) (l : list A) :
  (length (compact keep l) ≤ length keep)%nat.
Proof.
  revert l. induction keep as [|b keep IH]; intros l; [done|].
  destruct l as [|a l]; simpl; [lia|].
  destruct b; simpl; specialize (IH l); lia.
Qed.

Lemma compact_triple_length (keep : list bool) :
  length (compact (keep ≫= (λ b, [b; b; b])) (keep ≫= (λ b, [b; b; b])))
  = (3 * length (compact keep keep))%nat.
Proof.
  induction keep as [|b keep IH]; [done|].
  change ((b :: keep) ≫= (λ b, [b; b; b]))
    with ([b; b; b] ++ (keep ≫= (λ b, [b; b; b]))).
  destruct b; simpl; rewrite IH; lia.
Qed.

(** What stays after compaction was marked by [keep]. *)
Lemma compact_fmap_Forall {A} (live : A → bool) (l : list A) :
  Forall (λ a, live a = true) (compact (live <$> l) l).
Proof.
  induction l as [|a l IH]; simpl; [constructor|].
  destruct (live a) eqn:E; [constructor; done | done].
Qed.

Lemma Forall_live_fmap {A} (live : A → bool) (l : list A) :
  Forall (λ a, live a = true) l → Forall (λ b, b = true) (live <$> l).
Proof. intros H. by apply Forall_fmap. Qed.

(** The new indices are the numbers from [k] on. *)
Lemma old_to_new_bound (keep : list bool) (k i j : Z) :
  0 ≤ k → k + Array.size keep ≤ int_max + 1 →
  Array.get (old_to_new keep k) i = Some (Some j) →
  k ≤ j < k + Array.size (compact keep keep).
Proof.
  rewrite array_get_unfold. unfold Array.size.
  destruct (0 <=? i) eqn:Ei; [|done]. apply Z.leb_le in Ei.
  revert Ei. generalize (Z.to_nat i) as n. intros n _. revert k n.
  induction keep as [|b keep IH]; intros k n Hk Hlim; [done|].
  cbn [length] in Hlim. rewrite Nat2Z.inj_succ in Hlim.
  destruct b; cbn [old_to_new compact length].
  - rewrite Nat2Z.inj_succ. destruct n as [|n]; simpl.
    + intros [= <-]. lia.
    + intros Hn. unfold int_add in Hn.
      destruct keep as [|b keep]; [done|].
      cbn [length] in *. rewrite Nat2Z.inj_succ in Hlim.
      rewrite wrap_small in Hn by (unfold is_int, int_min, int_max in *; lia).
      apply IH in Hn; lia.
  - destruct n as [|n]; simpl; [done|].
    intros Hn. apply IH in Hn; lia.
Qed.

Lemma old_to_new_all_true (keep : list bool) (k : Z) :
  Forall (λ b, b = true) keep →
  0 ≤ k → k + Array.size keep ≤ int_max + 1 →
  old_to_new keep k = (λ i : nat, Some (k + Z.of_nat i)) <$> seq 0 (length keep).
Proof.
  intros Hall. revert k. induction Hall as [|b keep -> _ IH]; intros k Hk Hlim.
  - done.
  - unfold Array.size in *. cbn [length] in *. rewrite Nat2Z.inj_succ in Hlim.
    cbn [old_to_new seq fmap list_fmap]. f_equal; [f_equal; lia|].
    destruct keep as [|b keep]; [done|].
    cbn [length] in Hlim. rewrite Nat2Z.inj_succ in Hlim.
    unfold int_add.
    rewrite wrap_small by (unfold is_int, int_min, int_max in *; lia).
    rewrite IH by (cbn [length]; lia).
    rewrite <- fmap_S_seq, <- list_fmap_compose.
    apply list_fmap_ext. intros _ i _. simpl. f_equal. lia.
Qed.

Lemma identity_get (n : nat) (i : Z) (j : option Z) :
  Array.get ((λ i : nat, Some (0 + Z.of_nat i)) <$> seq 0 n) i = Some j →
  j = Some i.
Proof.
  rewrite array_get_unfold. destruct (0 <=? i) eqn:Ei; [|done].
  apply Z.leb_le in Ei. rewrite list_lookup_fmap.
  destruct (seq 0 n !! Z.to_nat i) as [x|] eqn:Ex; [|done].
  apply lookup_seq in Ex as [-> _]. simpl. intros [= <-]. f_equal. lia.
Qed.

Lemma remap_vertex_identity (n : nat) (v : VertexId) :
  remap_vertex ((λ i : nat, Some (0 + Z.of_nat i)) <$> seq 0 n) v = v.
Proof.
  unfold remap_vertex.
  destruct (Array.get _ (id v)) as [j|] eqn:E; [|done].
  apply identity_get in E as ->. by destruct v.
Qed.

Lemma remap_halfedge_identity (nf nb : nat) (h : HalfedgeId) :
  3 * Z.of_nat nf ≤ int_max →
  remap_halfedge ((λ i : nat, Some (0 + Z.of_nat i)) <$> seq 0 nf)
                 ((λ i : nat, Some (0 + Z.of_nat i)) <$> seq 0 nb) h = h.
Proof.
  intros Hlim. unfold remap_halfedge. destruct (0 <=? id h) eqn:Es.
  - apply Z.leb_le in Es.
    destruct (Array.get _ (int_div (id h) 3)) as [j|] eqn:E; [|done].
    pose proof E as E'. apply identity_get in E' as ->.
    assert (is_Some (Array.get ((λ i : nat, Some (0 + Z.of_nat i)) <$> seq 0 nf)
                       (int_div (id h) 3))) as Hr by (rewrite E; eauto).
    apply array_get_is_Some in Hr. unfold Array.size in Hr.
    rewrite length_fmap, length_seq in Hr.
    destruct (quot3_bounds (id h) Es) as [_ Hc].
    unfold int_add, int_mul, int_max in *.
    rewrite (wrap_small (3 * _)) by (unfold is_int, int_min, int_max; lia).
    rewrite wrap_small by (unfold is_int, int_min, int_max; lia).
    destruct h as [z]. simpl in *. f_equal. lia.
  - destruct (Array.get _ (-1 - id h)) as [j|] eqn:E; [|done].
    apply identity_get in E as ->. destruct h as [z]. simpl. f_equal. lia.
Qed.

Lemma remap_vertex_live (keep : list bool) (m : mesh) (v : VertexId) :
  within_limits m → erased_id_outside m →
  length keep = length (Field.flat (vertex_to_edge_ m)) →
  id v ≠ erased_id → id (remap_vertex (old_to_new keep 0) v) ≠ erased_id.
Proof.
  intros (_ & Hlv & _) (Hne & Hv & _) Hlen Hlive. unfold remap_vertex.
  destruct (Array.get (old_to_new keep 0) (id v)) as [[j|]|] eqn:E; simpl;
    [|done|done].
  unfold Field.size, Array.size in *.
  apply old_to_new_bound in E; unfold Array.size; [|lia|lia].
  pose proof (compact_length_bound keep keep). unfold Array.size in *. lia.
Qed.

Lemma remap_halfedge_live (keep_f keep_b : list bool) (m : mesh) (h : HalfedgeId) :
  within_limits m → erased_id_outside m →
  length keep_f = length (Field.flat (faces_ m)) →
  length keep_b = length (boundaries_ m) →
  id h ≠ erased_id →
  id (remap_halfedge (old_to_new keep_f 0) (old_to_new keep_b 0) h) ≠ erased_id.
Proof.
  intros (Hlf & _ & Hlb) (Hne & _ & Hh) Hlenf Hlenb Hlive.
  unfold remap_halfedge. unfold Field.size, Array.size, int_max in *.
  destruct (0 <=? id h) eqn:Es.
  - apply Z.leb_le in Es.
    destruct (Array.get (old_to_new keep_f 0) (int_div (id h) 3))
      as [[j|]|] eqn:E; simpl; [|done|done].
    apply old_to_new_bound in E; unfold Array.size, int_max; [|lia|lia].
    pose proof (compact_length_bound keep_f keep_f).
    destruct (quot3_bounds (id h) Es) as [_ Hc].
    unfold int_add, int_mul, Array.size in *.
    rewrite (wrap_small (3 * j)) by (unfold is_int, int_min, int_max; lia).
    rewrite wrap_small by (unfold is_int, int_min, int_max; lia).
    lia.
  - destruct (Array.get (old_to_new keep_b 0) (-1 - id h))
      as [[j|]|] eqn:E; simpl; [|done|done].
    apply old_to_new_bound in E; unfold Array.size, int_max; [|lia|lia].
    pose proof (compact_length_bound keep_b keep_b).
    unfold Array.size in *. lia.
Qed.

Lemma fmap_fixpoint {A} (f : A → A) (l : list A) :
  Forall (λ x, f x = x) l → f <$> l = l.
Proof. induction 1 as [|x l Hx _ IH]; [done | by rewrite fmap_cons, Hx, IH]. Qed.

Section GarbageProperties.
Context {type_tag value : Type}.
Implicit Types mm : MutableTriangleTopology type_tag value.

(** After a compaction nothing erased is left, and the arrays have not
    grown. *)
Lemma collect_garbage_compacted mm :
  within_limits (base mm) → erased_id_outside (base mm) →
  compacted (collect_garbage mm).1 ∧ within_limits (base (collect_garbage mm).1).
Proof.
  intros Hlim Hout. set (m := base mm) in *.
  set (keep_v := live_vertex_slot <$> Field.flat (vertex_to_edge_ m)).
  set (keep_f := live_face_slot <$> Field.flat (faces_ m)).
  set (keep_b := live_boundary_slot <$> boundaries_ m).
  assert (length keep_v = length (Field.flat (vertex_to_edge_ m))) as Hlv
    by apply length_fmap.
  assert (length keep_f = length (Field.flat (faces_ m))) as Hlf
    by apply length_fmap.
  assert (length keep_b = length (boundaries_ m)) as Hlb by apply length_fmap.
  split.
  - unfold compacted, collect_garbage. simpl. fold m keep_v keep_f keep_b.
    split_and!.
    + apply Forall_fmap.
      eapply Forall_impl; [apply (compact_fmap_Forall live_vertex_slot)|].
      intros h Hh. simpl. unfold live_vertex_slot in *.
      apply negb_true_iff, Z.eqb_neq. apply negb_true_iff, Z.eqb_neq in Hh.
      by apply (remap_halfedge_live keep_f keep_b m).
    + apply Forall_fmap.
      eapply Forall_impl; [apply (compact_fmap_Forall live_face_slot)|].
      intros fi Hfi. simpl. unfold live_face_slot in *. simpl.
      apply negb_true_iff, Z.eqb_neq. apply negb_true_iff, Z.eqb_neq in Hfi.
      by apply (remap_vertex_live keep_v m).
    + apply Forall_fmap.
      eapply Forall_impl; [apply (compact_fmap_Forall live_boundary_slot)|].
      intros b Hb. simpl. unfold live_boundary_slot in *. simpl.
      apply negb_true_iff, Z.eqb_neq. apply negb_true_iff, Z.eqb_neq in Hb.
      by apply (remap_vertex_live keep_v m).
    + done.
    + unfold compact_fields. apply Forall_fmap, Forall_true. intros a. simpl.
      rewrite length_fmap, (compact_length_eq keep_v (Field.flat _)) by done.
      apply compact_length_le.
    + unfold compact_fields. apply Forall_fmap, Forall_true. intros a. simpl.
      rewrite length_fmap, (compact_length_eq keep_f (Field.flat _)) by done.
      apply compact_length_le.
    + unfold compact_fields. apply Forall_fmap, Forall_true. intros a.
      cbn [ua_data Field.flat faces_ base compose].
      rewrite length_fmap, (compact_length_eq keep_f (Field.flat _)) by done.
      pose proof (compact_triple_length keep_f) as Ht.
      pose proof (compact_length_le (keep_f ≫= (λ b, [b; b; b])) (ua_data a)).
      lia.
  - destruct Hlim as (H1 & H2 & H3).
    unfold within_limits, collect_garbage, Field.size, Array.size in *. simpl.
    fold m keep_v keep_f keep_b. rewrite !length_fmap.
    pose proof (compact_length_bound keep_v (Field.flat (vertex_to_edge_ m))).
    pose proof (compact_length_bound keep_f (Field.flat (faces_ m))).
    pose proof (compact_length_bound keep_b (boundaries_ m)).
    lia.
Qed.

(** Compacting a mesh without garbage changes nothing, and the three maps
    are identities. *)
Lemma collect_garbage_fixpoint mm :
  within_limits (base mm) → compacted mm →
  collect_garbage mm =
    (mm, (identity_permutation (length (Field.flat (vertex_to_edge_ (base mm)))),
          identity_permutation (length (Field.flat (faces_ (base mm)))),
          identity_permutation (length (boundaries_ (base mm))))).
Proof.
  intros (Hl1 & Hl2 & Hl3) (Hv & Hf & Hb & Heb & Hfv & Hff & Hfh).
  destruct mm as [m vfs ffs hfs tv tf th nid]. simpl in *.
  destruct m as [nv nf nb [faces] [ve] bs eb]. simpl in *. subst eb.
  unfold Field.size, Array.size in *. simpl in *.
  apply Forall_live_fmap in Hv, Hf, Hb.
  set (keep_v := live_vertex_slot <$> ve) in *.
  set (keep_f := live_face_slot <$> faces) in *.
  set (keep_b := live_boundary_slot <$> bs) in *.
  assert (length keep_v = length ve) as Hlv by apply length_fmap.
  assert (length keep_f = length faces) as Hlf by apply length_fmap.
  assert (length keep_b = length bs) as Hlb by apply length_fmap.
  unfold collect_garbage. simpl. fold keep_v keep_f keep_b.
  rewrite (old_to_new_all_true keep_v 0 Hv)
    by (unfold Array.size, int_max in *; lia).
  rewrite (old_to_new_all_true keep_f 0 Hf)
    by (unfold Array.size, int_max in *; lia).
  rewrite (old_to_new_all_true keep_b 0 Hb)
    by (unfold Array.size, int_max in *; lia).
  rewrite !compact_all_true by (done || lia).
  assert (∀ n, permutation_array ((λ i : nat, Some (0 + Z.of_nat i)) <$> seq 0 n)
               = identity_permutation n) as Hperm.
  { intros n. unfold permutation_array, identity_permutation.
    rewrite <- list_fmap_compose. apply list_fmap_ext. intros _ i _. simpl. lia. }
  rewrite !Hperm, Hlv, Hlf, Hlb.
  assert (∀ h, remap_halfedge
                 ((λ i : nat, Some (0 + Z.of_nat i)) <$> seq 0 (length faces))
                 ((λ i : nat, Some (0 + Z.of_nat i)) <$> seq 0 (length bs)) h = h)
    as Hrh by (intros h; by apply remap_halfedge_identity).
  pose proof (remap_vertex_identity (length ve)) as Hrv.
  assert (∀ l : list HalfedgeId, remap_halfedge
            ((λ i : nat, Some (0 + Z.of_nat i)) <$> seq 0 (length faces))
            ((λ i : nat, Some (0 + Z.of_nat i)) <$> seq 0 (length bs)) <$> l = l)
    as Hve.
  { intros l. apply fmap_fixpoint, Forall_true, Hrh. }
  assert (∀ (keep : list bool) (fs : list (UntypedArray type_tag value)) n,
            Forall (λ b, b = true) keep → length keep = n →
            Forall (λ a, (length (ua_data a) ≤ n)%nat) fs →
            compact_fields keep fs = fs) as Hfields.
  { intros keep fs n Hk Hn Hfs. unfold compact_fields.
    apply fmap_fixpoint.
    eapply Forall_impl; [exact Hfs|]. intros [t d] Hd. simpl in *.
    f_equal. apply compact_all_true; [done | lia]. }
  f_equal. f_equal.
  - f_equal.
    + f_equal. apply fmap_fixpoint, Forall_true.
      intros [[a b c] [x y z]].
      unfold remap_face, Vector3.map. simpl. by rewrite !Hrh, !Hrv.
    + f_equal. apply Hve.
    + apply fmap_fixpoint, Forall_true. intros [bp bn br bsrc].
      unfold remap_boundary. simpl. by rewrite !Hrh, !Hrv.
  - by apply (Hfields keep_v vfs (length ve)).
  - by apply (Hfields keep_f ffs (length faces)).
  - apply (Hfields _ hfs (3 * length faces)%nat); [| |done].
    + apply Forall_bind. eapply Forall_impl; [exact Hf|].
      intros b ->. by repeat constructor.
    + rewrite <- Hlf. clear. induction keep_f as [|b k IH]; [done|].
      change ((b :: k) ≫= (λ b, [b; b; b])) with ([b; b; b] ++ (k ≫= (λ b, [b; b; b]))).
      rewrite length_app, IH. simpl. lia.
Qed.

(** C6. On a mutable mesh within the limits of [int], for an [erased_id]
    that is no array index, a second [collect_garbage()] right after a
    first one returns the mesh it is given: counts, arrays and fields are
    unchanged, and the three maps it returns are the identities on the
    vertex, face and boundary arrays. *)
Theorem collect_garbage_idempotent mm :
  within_limits (base mm) → erased_id_outside (base mm) →
  let mm1 := (collect_garbage mm).1 in
  let m1 := base mm1 in
  collect_garbage mm1 =
    (mm1, (identity_permutation (length (Field.flat (vertex_to_edge_ m1))),
           identity_permutation (length (Field.flat (faces_ m1))),
           identity_permutation (length (boundaries_ m1)))) ∧
  n_vertices (base (collect_garbage mm1).1) = n_vertices m1 ∧
  n_faces (base (collect_garbage mm1).1) = n_faces m1 ∧
  n_boundary_edges (base (collect_garbage mm1).1) = n_boundary_edges m1 ∧
  n_vertices m1 = n_vertices (base mm) ∧ n_faces m1 = n_faces (base mm) ∧
  n_boundary_edges m1 = n_boundary_edges (base mm).
Proof.
  intros Hlim Hout mm1 m1.
  destruct (collect_garbage_compacted mm Hlim Hout) as [Hc Hlim1].
  fold mm1 in Hc, Hlim1.
  pose proof (collect_garbage_fixpoint mm1 Hlim1 Hc) as Hfix.
  split; [exact Hfix|]. rewrite Hfix. simpl. done.
Qed.

End GarbageProperties.

(** *** Registering fields *)

Section FieldProperties.
Context {type_tag : Type} `{EqDecision type_tag}.
Context {value : Type}.
Variable zero : value.

Abbreviation Mutable := (MutableTriangleTopology type_tag value).
Abbreviation FieldId := (FieldId type_tag).

Lemma prim_fields_set k (mm : Mutable) fs tbl :
  prim_fields k (set_prim_field k mm fs tbl) = fs.
Proof. by destruct k. Qed.

Lemma id_to_prim_field_set k (mm : Mutable) fs tbl :
  id_to_prim_field k (set_prim_field k mm fs tbl) = tbl.
Proof. by destruct k. Qed.

Lemma base_set_prim_field k (mm : Mutable) fs tbl :
  base (set_prim_field k mm fs tbl) = base mm.
Proof. by destruct k. Qed.

Lemma size_expr_capacity k (mm : Mutable) :
  within_limits (base mm) → size_expr k mm = capacity k mm.
Proof.
  intros (Hl & _). destruct k; simpl; try done.
  unfold int_mul. rewrite wrap_small; [lia|].
  unfold is_int, int_min, int_max, Field.size, Array.size in *. lia.
Qed.

Lemma capacity_nonneg k (mm : Mutable) : 0 ≤ capacity k mm.
Proof. destruct k; unfold capacity, Field.size, Array.size; lia. Qed.

(** A successful registration appends one array of the current capacity and
    records its position under the id. *)
Lemma add_field_inr k T (mm mm' : Mutable) i (fid : FieldId k) :
  add_field zero k T mm i = (mm', inr fid) →
  ∃ n, field_type fid = T ∧
       base mm' = base mm ∧
       prim_fields k mm' = prim_fields k mm ++ [UntypedArray_make zero T (size_expr k mm)] ∧
       id_to_prim_field k mm' !! field_id fid = Some (wrap (Z.of_nat (length (prim_fields k mm' )) - 1)) ∧
       next_field_id mm' = n.
Proof.
  unfold add_field.
  destruct (i =? invalid_id);
    (case_bool_decide; [intros [= ]|]);
    intros [= <- <-]; eexists; simpl;
    rewrite prim_fields_set, id_to_prim_field_set, base_set_prim_field;
    rewrite lookup_insert_eq; destruct k; done.
Qed.

(** C7. In a mutable mesh within the limits of [int], a field that has just
    been registered is found under its handle and has as many entries as
    its kind has slots: [vertex_to_edge_.size()] for a vertex field,
    [faces_.size()] for a face field, [3*faces_.size()] for a halfedge
    field.  Its valid indices are the ids from 0 up to that size, so a
    halfedge field has an entry for each valid interior halfedge and none
    for a boundary halfedge.  Registration succeeds for an id not yet in
    the table of its kind, and [field] of an id that is not in the table
    fails with a lookup error. *)
Theorem field_registration (mm : Mutable) :
  fields_within_limits mm →
  (∀ k T i mm' (fid : FieldId k),
     add_field zero k T mm i = (mm', inr fid) →
     ∃ f, field mm' fid = FieldIs f ∧
          Field.size f = capacity k mm ∧
          ∀ j : Id k, Field.valid f j = true ↔ 0 ≤ id j < capacity k mm) ∧
  (∀ T i mm' (fid : FieldId Halfedge),
     add_field zero Halfedge T mm i = (mm', inr fid) →
     ∃ f, field mm' fid = FieldIs f ∧
          ∀ h : HalfedgeId, valid (base mm) h = Some true →
            (is_boundary (base mm) h = false → is_Some (Field.get f h)) ∧
            (is_boundary (base mm) h = true →
               Field.valid f h = false ∧ Field.get f h = None)) ∧
  (∀ k T i, i ≠ invalid_id → id_to_prim_field k mm !! i = None →
     ∃ mm', add_field zero k T mm i = (mm', inr (MkFieldId T i))) ∧
  (∀ k (fid : FieldId k), id_to_prim_field k mm !! field_id fid = None →
     field mm fid = FieldThrows KeyError).
Proof.
  intros (Hlim & Hn).
  assert (∀ k T i mm' (fid : FieldId k),
     add_field zero k T mm i = (mm', inr fid) →
     ∃ f, field mm' fid = FieldIs f ∧
          Field.size f = capacity k mm ∧
          ∀ j : Id k, Field.valid f j = true ↔ 0 ≤ id j < capacity k mm) as Hreg.
  { intros k T i mm' fid Hadd.
    destruct (add_field_inr k T mm mm' i fid Hadd) as (n & HT & Hb & Hfs & Htbl & _).
    exists (Field.mk (replicate (Z.to_nat (capacity k mm)) zero)).
    assert (Field.size (k:=k) (Field.mk (replicate (Z.to_nat (capacity k mm)) zero))
            = capacity k mm) as Hsz.
    { unfold Field.size, Array.size. simpl. rewrite length_replicate.
      pose proof (capacity_nonneg k mm). lia. }
    split_and!.
    - unfold field, Hashtable_get. rewrite Htbl, Hfs. rewrite length_app. simpl.
      specialize (Hn k).
      rewrite wrap_small by (unfold is_int, int_min, int_max in *; lia).
      rewrite array_get_unfold.
      assert ((0 <=? Z.of_nat (length (prim_fields k mm) + 1) - 1) = true) as ->
        by (apply Z.leb_le; lia).
      replace (Z.to_nat (Z.of_nat (length (prim_fields k mm) + 1) - 1))
        with (length (prim_fields k mm) + 0)%nat by lia.
      rewrite lookup_app_r by lia.
      replace (length (prim_fields k mm) + 0 - length (prim_fields k mm))%nat
        with 0%nat by lia.
      simpl. unfold UntypedArray_get. simpl. rewrite HT.
      rewrite decide_True by done.
      by rewrite size_expr_capacity.
    - exact Hsz.
    - intros j. unfold Field.valid, idx. rewrite array_valid_spec.
      fold (Field.size (k:=k) (Field.mk (replicate (Z.to_nat (capacity k mm)) zero))).
      by rewrite Hsz. }
  split_and!.
  - exact Hreg.
  - intros T i mm' fid Hadd.
    destruct (Hreg Halfedge T i mm' fid Hadd) as (f & Hf & Hsz & Hval).
    exists f. split; [done|]. intros h Hh.
    pose proof (valid_halfedge_range (base mm) h Hh) as Hr.
    unfold is_boundary. simpl in Hval. split.
    + intros Hb%Z.ltb_ge. apply array_get_valid. apply Hval. lia.
    + intros Hb%Z.ltb_lt.
      assert (Field.valid f h = false) as Hinv.
      { destruct (Field.valid f h) eqn:E; [|done]. apply Hval in E. lia. }
      split; [done|]. by apply array_get_invalid.
  - intros k T i Hi Hnone. unfold add_field.
    apply Z.eqb_neq in Hi. rewrite Hi.
    assert (id_to_prim_field k
              (set_next_field_id mm (Z.max (next_field_id mm) (int_add i 1))) !! i
            = None) as Hnone' by (destruct k; exact Hnone).
    rewrite bool_decide_eq_false_2 by (rewrite Hnone'; by intros [? ?]).
    eauto.
  - intros k fid Hnone. unfold field, Hashtable_get. by rewrite Hnone.
Qed.

End FieldProperties.

(* ================================================================== *)
(** ** Further properties of the header *)

(** *** Walking inside a face *)

Lemma corner_walk (m : mesh) (f i : Z) :
  within_limits m → valid m (MkId (k:=Face) f) = Some true → 0 ≤ i < 3 →
  next m (MkId (3 * f + i)) = Some (MkId (3 * f + (if i =? 2 then 0 else i + 1))) ∧
  prev m (MkId (3 * f + i)) = Some (MkId (3 * f + (if i =? 0 then 2 else i - 1))) ∧
  face m (MkId (3 * f + i)) = MkId f.
Proof.
  intros Hlim Hf Hi.
  pose proof (valid_corner m f i Hlim Hf Hi) as Hv.
  pose proof (valid_face_spec _ _ Hf) as Hr. simpl in Hr.
  destruct (interior_corner m _ Hlim Hv)
    as (f' & i' & fi & Hid & Hi' & Hf' & _ & _ & Hface & Hn & Hp & _);
    [simpl; lia|].
  simpl in Hid. assert (f' = f ∧ i' = i) as [-> ->] by lia. done.
Qed.

(** X1. In a mesh within the limits of [int], the three halfedges of a face
    form a cycle: for a valid interior halfedge [e], [next(e)] and [prev(e)]
    are valid halfedges of the face of [e], different from [e] and from each
    other, [prev] undoes [next] and [next] undoes [prev], and the [next] of
    [next(e)] is [prev(e)]. *)
Theorem next_prev_in_face (m : mesh) (e : HalfedgeId) :
  within_limits m → valid m e = Some true → is_boundary m e = false →
  ∃ n p : HalfedgeId,
    next m e = Some n ∧ prev m e = Some p ∧
    prev m n = Some e ∧ next m p = Some e ∧ next m n = Some p ∧
    valid m n = Some true ∧ valid m p = Some true ∧
    is_boundary m n = false ∧ is_boundary m p = false ∧
    face m n = face m e ∧ face m p = face m e ∧
    n ≠ e ∧ p ≠ e ∧ n ≠ p.
Proof.
  intros Hlim Hv Hb. unfold is_boundary in *. apply Z.ltb_ge in Hb.
  destruct (interior_corner m e Hlim Hv Hb)
    as (f & i & fi & Hid & Hi & Hf & Hvf & _ & Hface & Hn & Hp & _).
  destruct e as [z]. simpl in Hid. subst z.
  set (i1 := if i =? 2 then 0 else i + 1) in *.
  set (i2 := if i =? 0 then 2 else i - 1) in *.
  assert (0 ≤ i1 < 3 ∧ 0 ≤ i2 < 3 ∧ i1 ≠ i ∧ i2 ≠ i ∧ i1 ≠ i2 ∧
          (if i1 =? 0 then 2 else i1 - 1) = i ∧
          (if i2 =? 2 then 0 else i2 + 1) = i ∧
          (if i1 =? 2 then 0 else i1 + 1) = i2) as (H1 & H2 & N1 & N2 & N3 & E1 & E2 & E3).
  { unfold i1, i2. corner_lia. }
  clearbody i1 i2.
  destruct (corner_walk m f i1 Hlim Hvf H1) as (Hn1 & Hp1 & Hf1).
  destruct (corner_walk m f i2 Hlim Hvf H2) as (Hn2 & Hp2 & Hf2).
  rewrite E1 in Hp1. rewrite E2 in Hn2. rewrite E3 in Hn1.
  exists (MkId (3 * f + i1)), (MkId (3 * f + i2)).
  split_and!; try done.
  - by apply valid_corner.
  - by apply valid_corner.
  - apply Z.ltb_ge. simpl. lia.
  - apply Z.ltb_ge. simpl. lia.
  - congruence.
  - congruence.
  - intros [= ?]. lia.
  - intros [= ?]. lia.
  - intros [= ?]. lia.
Qed.

Lemma opposite_corner (m : mesh) (f i : Z) :
  within_limits m → valid m (MkId (k:=Face) f) = Some true → 0 ≤ i < 3 →
  opposite m (MkId (3 * f + i)) =
    vs ← face_vertices m !! Z.to_nat f;
    Vector3.get vs (if i =? 0 then 2 else i - 1).
Proof.
  intros Hlim Hf Hi. pose proof (valid_face_spec _ _ Hf) as Hr. simpl in Hr.
  destruct (corner_walk m f i Hlim Hf Hi) as (Hn & _ & _).
  unfold opposite. rewrite Hn. simpl.
  rewrite dst_corner by corner_lia.
  set (i1 := if i =? 2 then 0 else i + 1).
  assert ((if i1 =? 2 then 0 else i1 + 1) = (if i =? 0 then 2 else i - 1))
    as ->; [|done].
  unfold i1.
  assert (i = 0 ∨ i = 1 ∨ i = 2) as [-> | [-> | ->]] by lia; reflexivity.
Qed.

Lemma face_record (m : mesh) (f : Z) :
  valid m (MkId (k:=Face) f) = Some true →
  0 ≤ f < Field.size (faces_ m) ∧
  ∃ fi, Field.get (faces_ m) (MkId f) = Some fi ∧
        face_vertices m !! Z.to_nat f = Some (vertices fi).
Proof.
  intros Hf. pose proof (valid_face_spec _ _ Hf) as Hr. simpl in Hr.
  split; [done|].
  destruct (proj2 (array_get_is_Some (Field.flat (faces_ m)) f) Hr) as [fi Hfi].
  exists fi. split; [exact Hfi|].
  unfold face_vertices. rewrite list_lookup_fmap.
  rewrite array_get_unfold in Hfi.
  destruct (0 <=? f); [|done]. by rewrite Hfi.
Qed.

Lemma halfedge_corner (m : mesh) (f i : Z) :
  within_limits m → valid m (MkId (k:=Face) f) = Some true → 0 ≤ i < 3 →
  halfedge m (MkId f) i = MkId (3 * f + i).
Proof.
  intros Hlim Hf Hi.
  pose proof (halfedge_id m (MkId f) i Hlim Hf Hi) as Hid.
  unfold halfedge in *. simpl in *. by f_equal.
Qed.

(** X2. In a mesh within the limits of [int], the halfedge [halfedge(f,i)]
    of a valid face [f] runs from the [i]-th vertex of [f] to the next one
    and lies across from the third one; and for every valid interior
    halfedge [e], [dst(e)] is [src(next(e))], [src(e)] is [dst(prev(e))] and
    [opposite(e)] is [src(prev(e))]. *)
Theorem corner_vertices (m : mesh) :
  within_limits m →
  (∀ (f : FaceId) (i : Z), valid m f = Some true → 0 ≤ i < 3 →
     is_Some (vertex m f i) ∧
     src m (halfedge m f i) = vertex m f i ∧
     dst m (halfedge m f i) = vertex m f ((i + 1) `mod` 3) ∧
     opposite m (halfedge m f i) = vertex m f ((i + 2) `mod` 3)) ∧
  (∀ e : HalfedgeId, valid m e = Some true → is_boundary m e = false →
     ∃ n p, next m e = Some n ∧ prev m e = Some p ∧
            dst m e = src m n ∧ src m e = dst m p ∧ opposite m e = src m p).
Proof.
  intros Hlim. split.
  - intros [f] i Hf Hi.
    destruct (face_record m f Hf) as (Hf0 & fi & Hfi & Hvs).
    rewrite (halfedge_corner m f i Hlim Hf Hi).
    rewrite (opposite_corner m f i Hlim Hf Hi).
    rewrite !src_corner, dst_corner by lia.
    unfold vertex. rewrite Hfi, Hvs. simpl.
    assert (i = 0 ∨ i = 1 ∨ i = 2) as [-> | [-> | ->]] by lia;
      destruct (vertices fi) as [a b c]; (split_and!; [by eexists | done..]).
  - intros e Hv Hb. unfold is_boundary in Hb. apply Z.ltb_ge in Hb.
    destruct (interior_corner m e Hlim Hv Hb)
      as (f & i & fi & Hid & Hi & Hf & Hvf & _ & _ & Hn & Hp & _).
    destruct e as [z]. simpl in Hid. subst z.
    eexists _, _. split_and!; [exact Hn | exact Hp | | |].
    + rewrite dst_corner, src_corner by corner_lia. done.
    + rewrite dst_corner, src_corner by corner_lia.
      set (i2 := if i =? 0 then 2 else i - 1).
      assert ((if i2 =? 2 then 0 else i2 + 1) = i) as ->; [|done].
      unfold i2.
      assert (i = 0 ∨ i = 1 ∨ i = 2) as [-> | [-> | ->]] by lia; reflexivity.
    + rewrite (opposite_corner m f i Hlim Hvf Hi).
      by rewrite src_corner by corner_lia.
Qed.

(** X3. In a mesh within the limits of [int], for a valid face [f]:
    [opposite(f,v)] of a vertex [v] of [f] is a valid halfedge of [f] whose
    opposite vertex is [v]; and if the three vertices of [f] are different,
    [opposite(f,.)] undoes [opposite(.)] on the three halfedges of [f]. *)
Theorem opposite_face_round_trip (m : mesh) (f : FaceId) :
  within_limits m → valid m f = Some true →
  ∃ vs, vertices_face m f = Some vs ∧
    (∀ v, Vector3.contains vs v = true →
       ∃ h, opposite_face m f v = Some h ∧ valid m h = Some true ∧
            is_boundary m h = false ∧ face m h = f ∧ opposite m h = Some v) ∧
    (Vector3.x vs ≠ Vector3.y vs → Vector3.y vs ≠ Vector3.z vs →
     Vector3.z vs ≠ Vector3.x vs →
     ∀ i, 0 ≤ i < 3 →
       ∃ v, opposite m (halfedge m f i) = Some v ∧
            opposite_face m f v = Some (halfedge m f i)).
Proof.
  intros Hlim Hf. destruct f as [f].
  destruct (face_record m f Hf) as (Hf0 & fi & Hfi & Hvs).
  assert (∀ j, 0 ≤ j < 3 → int_add (int_mul 3 f) j = 3 * f + j) as Hadd.
  { intros j Hj. pose proof (halfedge_corner m f j Hlim Hf Hj) as E.
    unfold halfedge in E. simpl in E. congruence. }
  exists (vertices fi). unfold vertices_face, opposite_face.
  rewrite Hf, Hfi. simpl. split; [done|].
  destruct (vertices fi) as [a b c] eqn:Evs.
  unfold Vector3.contains. simpl.
  split.
  - intros v Hc. rewrite Hc. simpl.
    set (j := if bool_decide (a = v) then 1
              else if bool_decide (b = v) then 2 else 0).
    assert (0 ≤ j < 3) as Hj by (unfold j; repeat case_bool_decide; lia).
    eexists. split; [done|]. rewrite (Hadd j Hj).
    destruct (corner_walk m f j Hlim Hf Hj) as (_ & _ & Hface).
    split_and!; [by apply valid_corner | apply Z.ltb_ge; simpl; lia | done |].
    rewrite (opposite_corner m f j Hlim Hf Hj), Hvs. simpl.
    unfold j. repeat case_bool_decide; subst; simpl in *; done.
  - intros Hab Hbc Hca i Hi.
    rewrite (halfedge_corner m f i Hlim Hf Hi).
    rewrite (opposite_corner m f i Hlim Hf Hi), Hvs. simpl.
    assert (i = 0 ∨ i = 1 ∨ i = 2) as [-> | [-> | ->]] by lia;
      eexists; (split; [reflexivity|]); repeat case_bool_decide;
      try congruence; by rewrite Hadd by lia.
Qed.

(** X4. Along the boundary, [dst(e)] is read from the slot of [next(e)]:
    for a boundary halfedge [e] with an allocated slot, [dst(e)] is
    [src(next(e))] if [next(e)] is a boundary id, and a read outside the
    boundary array, a fault, if [next(e)] is not negative. *)
Theorem dst_on_boundary (m : mesh) (e : HalfedgeId) :
  is_boundary m e = true → Array.valid (boundaries_ m) (-1 - id e) = true →
  ∃ n, next m e = Some n ∧
       (is_boundary m n = true → dst m e = src m n) ∧
       (is_boundary m n = false → dst m e = None).
Proof.
  unfold is_boundary, next, dst, src. intros Hs Hv.
  apply Z.ltb_lt in Hs.
  assert ((0 <=? id e) = false) as -> by (apply Z.leb_gt; lia).
  destruct (array_get_valid _ _ Hv) as [b ->]. simpl.
  exists (BoundaryInfo.next b). split; [done|]. split.
  - intros Hn%Z.ltb_lt.
    assert ((0 <=? id (BoundaryInfo.next b)) = false) as ->
      by (apply Z.leb_gt; lia).
    by destruct (Array.get (boundaries_ m) _).
  - intros Hn%Z.ltb_ge. rewrite array_get_invalid; [done|].
    apply not_true_is_false. rewrite array_valid_spec. lia.
Qed.

(** *** Turning around a vertex *)

Lemma right_left (m : mesh) (h : HalfedgeId) :
  within_limits m → links_consistent m → valid m h = Some true →
  ∃ l, left m h = Some l ∧ valid m l = Some true ∧ src m l = src m h ∧
       right m l = Some h.
Proof.
  intros Hlim Hlinks Hh.
  destruct (left_closed m Hlim Hlinks h Hh) as (l & El & Hl & Hs).
  exists l. split_and!; try done.
  destruct (links_prev m Hlinks h Hh) as (p & Ep & Hp & En).
  destruct (links_reverse m Hlinks p Hp) as (r & Er & Hr & Err & _).
  unfold left in El. rewrite Ep in El. simpl in El.
  assert (r = l) as -> by congruence.
  unfold right. rewrite Err. simpl. exact En.
Qed.

(** X5. In a mesh within the limits of [int] whose links are consistent,
    [left] and [right] turn around the source of a valid halfedge [h] in
    opposite directions: both give a valid halfedge with the source of [h],
    [right] undoes [left] and [left] undoes [right]. *)
Theorem left_right_inverse (m : mesh) (h : HalfedgeId) :
  within_limits m → links_consistent m → valid m h = Some true →
  (∃ l, left m h = Some l ∧ valid m l = Some true ∧ src m l = src m h ∧
        right m l = Some h) ∧
  (∃ r, right m h = Some r ∧ valid m r = Some true ∧ src m r = src m h ∧
        left m r = Some h).
Proof.
  intros Hlim Hlinks Hh. split; [by apply right_left|].
  pose proof (left_closed' m Hlim Hlinks) as Hcl.
  pose proof (left_inj m Hlinks) as Hinj.
  destruct (orbit_returns (left m) (live m) (all_halfedges m) Hcl Hinj
              (live_all_halfedges m) h Hh) as (p & Hp & Ep).
  destruct p as [|p]; [lia|].
  destruct (iter_opt_closed (left m) (live m) Hcl p h Hh) as (r & Er & Hr).
  assert (left m r = Some h) as Elr.
  { rewrite iter_opt_S_r, Er in Ep. exact Ep. }
  destruct (left_iter_src m Hlim Hlinks p h r Hh Er) as [_ Hs].
  destruct (right_left m r Hlim Hlinks Hr) as (l & El & _ & _ & Erl).
  assert (l = h) as -> by congruence.
  exists r. done.
Qed.

(** The walk around a vertex whose outgoing halfedges form one fan. *)
Lemma outgoing_list_fan (m : mesh) (v : VertexId) :
  within_limits m → links_consistent m → manifold_at m v →
  ∃ l, (∀ fuel, (length l < fuel)%nat → outgoing_list fuel m v = Done l) ∧
       (length l ≤ length (all_halfedges m))%nat ∧ NoDup l ∧
       ∀ h, h ∈ l ↔ valid m h = Some true ∧ src m h = Some v.
Proof.
  intros Hlim Hlinks (e0 & He0 & Hshape).
  unfold outgoing_list, outgoing. rewrite He0. simpl.
  destruct (Id_valid e0) eqn:Hval.
  - destruct Hshape as (Hlive & Hsrc & Hreach).
    pose proof (left_closed' m Hlim Hlinks) as Hcl.
    pose proof (left_inj m Hlinks) as Hinj.
    destruct (orbit_period (left m) (live m) (all_halfedges m) Hcl Hinj
                (live_all_halfedges m) e0 Hlive) as (p & Hp & Ep & Hmin).
    pose proof (orbit_length (left m) (live m) Hcl p e0 Hlive) as Hlen.
    exists (orbit (left m) p e0). rewrite Hlen. split_and!.
    + intros fuel Hfuel.
      apply (outgoing_loop_orbit m Hlim Hlinks e0 p true Hlive
               ltac:(lia) Ep Hmin p 0%nat e0 fuel); [lia | lia | done].
    + lia.
    + by apply (orbit_period_NoDup (left m) (live m) Hcl Hinj).
    + intros h. rewrite (orbit_elem (left m) (live m) Hcl) by done. split.
      * intros (i & _ & Hi).
        destruct (left_iter_src m Hlim Hlinks i e0 h Hlive Hi) as [? ?].
        split; [done | congruence].
      * intros [Hh Hs]. destruct (Hreach h Hh Hs) as [k Hk].
        exists (k `mod` p)%nat. split; [apply Nat.mod_upper_bound; lia|].
        unfold left_iter in Hk.
        by rewrite <- (orbit_period_mod (left m) (live m) e0 p k) by (done || lia).
  - exists []. split_and!.
    + intros fuel Hfuel. destruct fuel as [|fuel]; [simpl in Hfuel; lia|]. simpl.
      unfold outgoing_neq. simpl. by rewrite bool_decide_eq_true_2.
    + simpl. lia.
    + constructor.
    + intros h. split; [by intros ?%elem_of_nil|].
      intros [Hh Hs]. by destruct (Hshape h Hh).
Qed.

(** The loop of [incoming] sees the reverses of what the loop of
    [outgoing] sees. *)
Lemma incoming_loop_outgoing (m : mesh) (fuel : nat) (e0 : HalfedgeId) (fe : bool) :
  ∀ (x : HalfedgeId) (fx : bool) (l l' : list HalfedgeId),
    outgoing_loop fuel m (MkOutgoing x fx) (MkOutgoing e0 fe) = Done l →
    Forall2 (λ o i, reverse m o = Some i) l l' →
    incoming_loop fuel m (MkIncoming x fx) (MkIncoming e0 fe) = Done l'.
Proof.
  induction fuel as [|fuel IH]; intros x fx l l'; simpl; [done|].
  unfold outgoing_neq, incoming_neq, outgoing_incr, incoming_incr,
    incoming_deref, outgoing_deref. simpl.
  destruct (fx || negb (bool_decide (x = e0))).
  - destruct (left m x) as [x'|]; simpl; [|done].
    destruct (outgoing_loop fuel m (MkOutgoing x' false) (MkOutgoing e0 fe))
      as [l0| |] eqn:E; try done.
    intros [= <-] Hrev. apply Forall2_cons_inv_l in Hrev as (r & l0' & Hr & Hl0 & ->).
    rewrite Hr. by rewrite (IH x' false l0 l0' E Hl0).
  - intros [= <-] Hrev. apply Forall2_nil_inv_l in Hrev as ->. done.
Qed.

(** X6. In a mesh within the limits of [int] whose links are consistent,
    the walk [incoming(v)] around a valid vertex [v] whose outgoing
    halfedges form one fan ends with any fuel above the number of halfedges
    it yields.  It yields the reverses of the halfedges that [outgoing(v)]
    yields, in the same order, each one once, and these are exactly the
    valid halfedges that end at [v]. *)
Theorem incoming_walk (m : mesh) (v : VertexId) :
  within_limits m → links_consistent m →
  valid m v = Some true → manifold_at m v →
  ∃ lo li : list HalfedgeId,
    (∀ fuel, (length lo < fuel)%nat →
       outgoing_list fuel m v = Done lo ∧ incoming_list fuel m v = Done li) ∧
    Forall2 (λ o i, reverse m o = Some i ∧ reverse m i = Some o) lo li ∧
    NoDup li ∧
    (∀ h, h ∈ li ↔ valid m h = Some true ∧ dst m h = Some v).
Proof.
  intros Hlim Hlinks _ Hfan.
  destruct (outgoing_list_fan m v Hlim Hlinks Hfan) as (lo & Hrun & _ & Hnd & Hmem).
  set (rev := λ o : HalfedgeId, default o (reverse m o)).
  assert (∀ o, o ∈ lo →
            reverse m o = Some (rev o) ∧ reverse m (rev o) = Some o ∧
            valid m (rev o) = Some true ∧ dst m (rev o) = Some v) as Hrev.
  { intros o [Ho Hs]%Hmem.
    destruct (links_reverse m Hlinks o Ho) as (r & Er & Hr & Err & _).
    destruct (links_reverse m Hlinks r Hr) as (o' & Er' & _ & _ & Hsd).
    unfold rev. rewrite Er. simpl. split_and!; try done.
    assert (o' = o) as -> by congruence. congruence. }
  exists lo, (rev <$> lo). split_and!.
  - intros fuel Hfuel. pose proof (Hrun fuel Hfuel) as Hout. split; [done|].
    unfold outgoing_list, outgoing in Hout.
    unfold incoming_list, incoming.
    destruct (halfedge_vertex m v) as [e0|]; [|done]. simpl in *.
    apply (incoming_loop_outgoing m fuel e0 (Id_valid e0) e0 (Id_valid e0) lo);
      [done|].
    apply Forall2_fmap_r, Forall_Forall2_diag, Forall_forall.
    intros o Ho. by destruct (Hrev o Ho).
  - apply Forall2_fmap_r, Forall_Forall2_diag, Forall_forall.
    intros o Ho. by destruct (Hrev o Ho) as (? & ? & _).
  - apply NoDup_fmap_2_strong; [|done].
    intros o1 o2 H1 H2 E.
    destruct (Hrev o1 H1) as (_ & E1 & _). destruct (Hrev o2 H2) as (_ & E2 & _).
    congruence.
  - intros h. rewrite list_elem_of_fmap. split.
    + intros (o & -> & Ho). by destruct (Hrev o Ho) as (_ & _ & ? & ?).
    + intros [Hh Hd].
      destruct (links_reverse m Hlinks h Hh) as (r & Er & Hr & Err & Hsd).
      assert (r ∈ lo) as Hin by (apply Hmem; split; [done | congruence]).
      exists r. split; [|done].
      destruct (Hrev r Hin) as (E & _). congruence.
Qed.

Lemma outgoing_loop_never (m : mesh) (e0 : HalfedgeId) (fst : bool) :
  (∀ k, (0 < k)%nat → ∃ x, left_iter m k e0 = Some x ∧ x ≠ e0) →
  ∀ fuel j x,
    left_iter m j e0 = Some x →
    outgoing_loop fuel m (MkOutgoing x (bool_decide (j = 0%nat))) (MkOutgoing e0 fst)
    = OutOfFuel.
Proof.
  intros Hnever. induction fuel as [|fuel IH]; intros j x Ex; simpl; [done|].
  assert (outgoing_neq (MkOutgoing x (bool_decide (j = 0%nat)))
                       (MkOutgoing e0 fst) = true) as ->.
  { unfold outgoing_neq. simpl. destruct (decide (j = 0%nat)) as [->|Hj]; [done|].
    rewrite (bool_decide_eq_false_2 (j = 0%nat)) by done. simpl.
    destruct (Hnever j ltac:(lia)) as (x' & Ex' & Hne).
    assert (x' = x) as -> by congruence.
    by rewrite bool_decide_eq_false_2. }
  destruct (Hnever (S j) ltac:(lia)) as (y & Ey & _).
  assert (left m x = Some y) as Ely.
  { unfold left_iter in *. rewrite iter_opt_S_r, Ex in Ey. exact Ey. }
  unfold outgoing_incr. simpl. rewrite Ely. simpl.
  pose proof (IH (S j) y Ey) as IH'.
  rewrite (bool_decide_eq_false_2 (S j = 0%nat)) in IH' by lia.
  by rewrite IH'.
Qed.

(** X7. The walk [outgoing(v)] stops only when it is back at
    [halfedge(v)]: if [halfedge(v)] is a valid id and the steps of [left]
    from it can all be taken but never lead back to it, as can happen in a
    corrupted structure where they run into a cycle that does not pass
    through the start, then the walk does not end, whatever the fuel. *)
Theorem outgoing_never_returns (m : mesh) (v : VertexId) (e0 : HalfedgeId) :
  halfedge_vertex m v = Some e0 → Id_valid e0 = true →
  (∀ k, (0 < k)%nat → ∃ x, left_iter m k e0 = Some x ∧ x ≠ e0) →
  ∀ fuel, outgoing_list fuel m v = OutOfFuel.
Proof.
  intros He0 Hval Hnever fuel. unfold outgoing_list, outgoing.
  rewrite He0. simpl. rewrite Hval.
  by apply (outgoing_loop_never m e0 true Hnever fuel 0%nat e0).
Qed.

(** *** The ranges of ids and the iterators that skip erased ids *)

Lemma id_range_cons {k} (lo : Z) (n : nat) :
  id_range (k:=k) lo (S n) = MkId lo :: id_range (lo + 1) n.
Proof.
  unfold id_range. simpl. f_equal; [f_equal; lia|].
  rewrite <- fmap_S_seq, <- list_fmap_compose. apply list_fmap_ext.
  intros i j _. simpl. f_equal. lia.
Qed.

Lemma id_range_app {k} (lo : Z) (n1 n2 : nat) :
  id_range (k:=k) lo (n1 + n2) = id_range lo n1 ++ id_range (lo + Z.of_nat n1) n2.
Proof.
  revert lo. induction n1 as [|n1 IH]; intros lo.
  - replace (lo + Z.of_nat 0) with lo by lia. done.
  - change (S n1 + n2)%nat with (S (n1 + n2)).
    rewrite !id_range_cons, IH. simpl. do 3 f_equal. lia.
Qed.

Lemma id_range_length {k} (lo : Z) (n : nat) : length (id_range (k:=k) lo n) = n.
Proof. unfold id_range. by rewrite length_fmap, length_seq. Qed.

Lemma filter_ext_in {A} (P Q : A → Prop) `{∀ x, Decision (P x)}
    `{∀ x, Decision (Q x)} (l : list A) :
  (∀ x, x ∈ l → P x ↔ Q x) → filter P l = filter Q l.
Proof.
  induction l as [|a l IH]; intros Hl; [done|].
  rewrite !filter_cons.
  rewrite IH by (intros x Hx; apply Hl; by right).
  pose proof (Hl a ltac:(by left)) as Ha.
  destruct (decide (P a)), (decide (Q a)); tauto.
Qed.

Lemma halfedge_in_range_spec (m : mesh) (e : HalfedgeId) :
  halfedge_in_range m e = true ↔
  - Array.size (boundaries_ m) ≤ id e < 3 * Field.size (faces_ m).
Proof.
  unfold halfedge_in_range, face_in_range, Field.valid, idx.
  destruct (0 <=? id e) eqn:Hs; rewrite array_valid_spec; simpl.
  - apply Z.leb_le in Hs. pose proof (quot3_bounds (id e) Hs).
    unfold Field.size, Array.size, int_div in *. lia.
  - apply Z.leb_gt in Hs. unfold Field.size, Array.size. lia.
Qed.

Lemma erased_in_range_vertex (m : mesh) (v : VertexId) :
  vertex_in_range m v = true → is_Some (erased m v).
Proof.
  intros Hr. simpl. unfold erased_vertex, Field.get.
  destruct (array_get_valid _ _ Hr) as [x ->]. simpl. eauto.
Qed.

Lemma erased_in_range_face (m : mesh) (f : FaceId) :
  face_in_range m f = true → is_Some (erased m f).
Proof.
  intros Hr. simpl. unfold erased_face, Field.get.
  destruct (array_get_valid _ _ Hr) as [x ->]. simpl. eauto.
Qed.

Lemma erased_in_range_halfedge (m : mesh) (e : HalfedgeId) :
  halfedge_in_range m e = true → is_Some (erased m e).
Proof.
  intros Hr. simpl. unfold erased_halfedge, halfedge_in_range in *.
  destruct (0 <=? id e).
  - apply (erased_in_range_face m (MkId (int_div (id e) 3))) in Hr. exact Hr.
  - destruct (array_get_valid _ _ Hr) as [x ->]. simpl. eauto.
Qed.

Section IterProperties.
Context {k : kind} `{Handle k}.
Variable m : mesh.

Let live_ids (lo : Z) (n : nat) : list (Id k) :=
  filter (λ i : Id k, erased m i = Some false) (id_range lo n).

(** The loop that skips erased ids stops at the first id of the range that
    is not erased, or at the end of the range. *)
Lemma skip_erased_run (n : nat) :
  ∀ (lo hi : Z) (fuel : nat),
    hi = lo + Z.of_nat n → (n < fuel)%nat → int_min ≤ lo → hi ≤ int_max →
    (∀ i : Id k, lo ≤ id i < hi → is_Some (erased m i)) →
    ∃ j : nat, (j ≤ n)%nat ∧
      skip_erased fuel m (MkId lo) (MkId hi) = Done (MkId (lo + Z.of_nat j)) ∧
      live_ids lo n = live_ids (lo + Z.of_nat j) (n - j) ∧
      ((j < n)%nat → erased m (MkId (lo + Z.of_nat j)) = Some false).
Proof.
  induction n as [|n IH]; intros lo hi fuel Hhi Hfuel Hlo Hmax Hsome.
  - destruct fuel as [|fuel]; [lia|]. simpl. exists 0%nat.
    rewrite bool_decide_eq_false_2 by (intros Hne; apply Hne; f_equal; lia).
    split_and!; [lia | do 2 f_equal; lia | done | lia].
  - destruct fuel as [|fuel]; [lia|]. simpl.
    rewrite bool_decide_eq_true_2 by (intros [= ?]; lia).
    destruct (Hsome (MkId lo)) as [b Hb]; [simpl; lia|]. rewrite Hb.
    destruct b.
    + rewrite int_add_small by (unfold is_int; lia).
      destruct (IH (lo + 1) hi fuel) as (j & Hj & Hrun & Hlive & Hne);
        [lia | lia | lia | lia | intros i Hi; apply Hsome; lia |].
      exists (S j).
      replace (lo + Z.of_nat (S j)) with (lo + 1 + Z.of_nat j) by lia.
      split_and!; [lia | done | | intros ?; apply Hne; lia].
      unfold live_ids in *. rewrite id_range_cons.
      rewrite filter_cons_False by (rewrite Hb; done). exact Hlive.
    + exists 0%nat. replace (lo + Z.of_nat 0) with lo by lia.
      split_and!; [lia | done | done | done].
Qed.

(** The loop over a range whose first id, if there is one, is not erased. *)
Lemma iter_loop_run :
  ∀ (n : nat) (x hi : Z) (fuel : nat) (e_ : Id k),
    hi = x + Z.of_nat n → (n < fuel)%nat → int_min ≤ x → hi ≤ int_max →
    (∀ i : Id k, x ≤ id i < hi → is_Some (erased m i)) →
    ((0 < n)%nat → erased m (MkId x) = Some false) →
    iter_loop fuel m (MkIter (MkId x) (MkId hi)) (MkIter (MkId hi) e_)
    = Done (live_ids x n).
Proof.
  induction n as [n IH] using lt_wf_ind.
  intros x hi fuel e_ Hhi Hfuel Hlo Hmax Hsome Hfirst.
  destruct fuel as [|fuel]; [lia|]. simpl. unfold iter_neq. simpl.
  destruct n as [|n].
  - rewrite bool_decide_eq_false_2 by (intros Hne; apply Hne; f_equal; lia).
    done.
  - rewrite bool_decide_eq_true_2 by (intros [= ?]; lia).
    unfold iter_incr. simpl.
    rewrite int_add_small by (unfold is_int; lia).
    destruct (skip_erased_run n (x + 1) hi fuel) as (j & Hj & Hrun & Hlive & Hne);
      [lia | lia | lia | lia | intros i Hi; apply Hsome; lia |].
    rewrite Hrun. simpl.
    rewrite (IH (n - j)%nat) by
      (lia || (intros i Hi; apply Hsome; lia) || (intros ?; apply Hne; lia)).
    simpl. unfold iter_deref. simpl. f_equal.
    unfold live_ids in *. rewrite id_range_cons.
    rewrite filter_cons_True by (apply Hfirst; lia). by rewrite Hlive.
Qed.

Lemma iter_range_run (n : nat) (lo : Z) (fuel : nat) :
  (n < fuel)%nat → int_min ≤ lo → lo + Z.of_nat n ≤ int_max →
  (∀ i : Id k, lo ≤ id i < lo + Z.of_nat n → is_Some (erased m i)) →
  iter_range fuel m (MkId lo) (MkId (lo + Z.of_nat n)) = Done (live_ids lo n).
Proof.
  intros Hfuel Hlo Hmax Hsome. unfold iter_range, TriangleTopologyIter_make.
  destruct (skip_erased_run n lo (lo + Z.of_nat n) fuel)
    as (j & Hj & Hrun & Hlive & Hne); [done..|].
  rewrite Hrun. simpl.
  assert (skip_erased fuel m (MkId (k:=k) (lo + Z.of_nat n)) (MkId (lo + Z.of_nat n))
          = Done (MkId (lo + Z.of_nat n))) as ->.
  { destruct fuel as [|fuel]; [lia|]. simpl.
    by rewrite bool_decide_eq_false_2 by (intros Hne'; by apply Hne'). }
  simpl. rewrite Hlive.
  apply iter_loop_run; try lia.
  - intros i Hi. apply Hsome. lia.
  - intros ?. apply Hne. lia.
Qed.

End IterProperties.

(** X8. In a mesh within the limits of [int], iterating over [vertices()],
    [faces()], [boundary_edges()], [interior_halfedges()] or [halfedges()]
    ends, reads no slot outside the arrays, and visits exactly the valid ids
    of [all_vertices()], [all_faces()], [all_boundary_edges()],
    [all_interior_halfedges()] and [all_halfedges()], in increasing
    order. *)
Theorem skipping_ranges (m : mesh) (fuel : nat) :
  within_limits m →
  (length (all_vertices m) < fuel)%nat → (length (all_halfedges m) < fuel)%nat →
  vertices_range fuel m
    = Done (filter (λ v, valid m v = Some true) (all_vertices m)) ∧
  faces_range fuel m
    = Done (filter (λ f, valid m f = Some true) (all_faces m)) ∧
  boundary_edges_range fuel m
    = Done (filter (λ e, valid m e = Some true) (all_boundary_edges m)) ∧
  interior_halfedges_range fuel m
    = Done (filter (λ e, valid m e = Some true) (all_interior_halfedges m)) ∧
  halfedges_range fuel m
    = Done (filter (λ e, valid m e = Some true) (all_halfedges m)).
Proof.
  intros (Hf & Hv & Hb) Hfv Hfh.
  unfold all_vertices, all_halfedges in Hfv, Hfh.
  rewrite id_range_length in Hfv. rewrite id_range_length in Hfh.
  unfold Field.size, Array.size in *.
  pose proof (vertex_tombstone_law m) as Lv.
  pose proof (face_tombstone_law m) as Lf.
  pose proof (halfedge_tombstone_law m) as Lh.
  assert (int_min ≤ 0 ∧ 0 ≤ int_max) as [Hmin0 Hmax0]
    by (unfold int_min, int_max; lia).
  assert (int_mul 3 (Z.of_nat (length (Field.flat (faces_ m))))
          = 3 * Z.of_nat (length (Field.flat (faces_ m)))) as Hmul.
  { apply wrap_small. unfold is_int. lia. }
  assert (∀ e : HalfedgeId,
            - Z.of_nat (length (boundaries_ m)) ≤ id e
              < 3 * Z.of_nat (length (Field.flat (faces_ m))) →
            halfedge_in_range m e = true) as Hin.
  { intros e He. apply halfedge_in_range_spec.
    unfold Field.size, Array.size. lia. }
  split_and!.
  - unfold vertices_range, all_vertices, Field.size, Array.size.
    replace (Z.of_nat (length (Field.flat (vertex_to_edge_ m))))
      with (0 + Z.of_nat (length (Field.flat (vertex_to_edge_ m)))) by lia.
    rewrite iter_range_run;
      [f_equal; apply filter_ext_in | (unfold int_min, int_max in *; lia)..|].
    + intros v Hr%id_range_elem. destruct (Lv v) as (_ & _ & Hiff & _).
      rewrite Hiff. unfold vertex_in_range, Field.valid, idx.
      rewrite array_valid_spec. unfold Array.size. split; [|tauto].
      intros ?. split; [lia | done].
    + intros v Hr. apply erased_in_range_vertex, array_valid_spec.
      unfold idx, Array.size. lia.
  - unfold faces_range, all_faces, Field.size, Array.size.
    replace (Z.of_nat (length (Field.flat (faces_ m))))
      with (0 + Z.of_nat (length (Field.flat (faces_ m)))) by lia.
    rewrite iter_range_run;
      [f_equal; apply filter_ext_in | (unfold int_min, int_max in *; lia)..|].
    + intros f Hr%id_range_elem. destruct (Lf f) as (_ & _ & Hiff & _).
      rewrite Hiff. unfold face_in_range, Field.valid, idx.
      rewrite array_valid_spec. unfold Array.size. split; [|tauto].
      intros ?. split; [lia | done].
    + intros f Hr. apply erased_in_range_face, array_valid_spec.
      unfold idx, Array.size. lia.
  - unfold boundary_edges_range, all_boundary_edges, Array.size.
    replace (MkId (k:=Halfedge) 0)
      with (MkId (k:=Halfedge) (- Z.of_nat (length (boundaries_ m))
                                + Z.of_nat (length (boundaries_ m))))
      by (f_equal; lia).
    rewrite iter_range_run;
      [f_equal; apply filter_ext_in | (unfold int_min, int_max in *; lia)..|].
    + intros e Hr%id_range_elem. destruct (Lh e) as (_ & _ & Hiff & _).
      rewrite Hiff. split; [|tauto].
      intros ?. split; [apply Hin; lia | done].
    + intros e Hr. apply erased_in_range_halfedge, Hin. lia.
  - unfold interior_halfedges_range, all_interior_halfedges, Field.size, Array.size.
    rewrite Hmul.
    replace (3 * Z.of_nat (length (Field.flat (faces_ m))))
      with (0 + Z.of_nat (3 * length (Field.flat (faces_ m)))) by lia.
    rewrite iter_range_run;
      [f_equal; apply filter_ext_in | (unfold int_min, int_max in *; lia)..|].
    + intros e Hr%id_range_elem. destruct (Lh e) as (_ & _ & Hiff & _).
      rewrite Hiff. split; [|tauto].
      intros ?. split; [apply Hin; lia | done].
    + intros e Hr. apply erased_in_range_halfedge, Hin. lia.
  - unfold halfedges_range, all_halfedges, Field.size, Array.size.
    rewrite Hmul.
    replace (3 * Z.of_nat (length (Field.flat (faces_ m))))
      with (- Z.of_nat (length (boundaries_ m))
            + Z.of_nat (length (boundaries_ m)
                        + 3 * length (Field.flat (faces_ m)))) by lia.
    rewrite iter_range_run;
      [f_equal; apply filter_ext_in | (unfold int_min, int_max in *; lia)..|].
    + intros e Hr%id_range_elem. destruct (Lh e) as (_ & _ & Hiff & _).
      rewrite Hiff. split; [|tauto].
      intros ?. split; [apply Hin; lia | done].
    + intros e Hr. apply erased_in_range_halfedge, Hin. lia.
Qed.

Lemma interior_range_by_face (m : mesh) (n : nat) :
  ∀ lo : Z, 0 ≤ lo → 3 * (lo + Z.of_nat n) ≤ int_max →
    id_range (k:=Halfedge) (3 * lo) (3 * n)
    = id_range (k:=Face) lo n ≫=
        (λ f, let hs := halfedges_face m f in
              [Vector3.x hs; Vector3.y hs; Vector3.z hs]).
Proof.
  induction n as [|n IH]; intros lo Hlo Hmax; [done|].
  replace (3 * S n)%nat with (S (S (S (3 * n)))) by lia.
  rewrite !id_range_cons.
  rewrite bind_cons, <- (IH (lo + 1)) by lia. simpl.
  unfold int_add, int_mul. unfold int_max in Hmax.
  rewrite (wrap_small (3 * lo)) by (unfold is_int, int_min, int_max; lia).
  rewrite !wrap_small by (unfold is_int, int_min, int_max; lia).
  replace (3 * lo + 0) with (3 * lo) by lia.
  replace (3 * lo + 1 + 1 + 1) with (3 * (lo + 1)) by lia.
  replace (3 * lo + 1 + 1) with (3 * lo + 2) by lia.
  done.
Qed.

(** X9. In a mesh within the limits of [int], [all_halfedges()] is
    [all_boundary_edges()] followed by [all_interior_halfedges()], and
    [all_interior_halfedges()] lists the three [halfedges(f)] of each face
    of [all_faces()] in turn.  The ranges have no repetition and hold the
    ids in the range of the arrays: those for which [vertex_to_edge_.valid],
    [faces_.valid], or the range test of [valid(HalfedgeId)] holds. *)
Theorem all_ranges (m : mesh) :
  within_limits m →
  all_halfedges m = all_boundary_edges m ++ all_interior_halfedges m ∧
  all_interior_halfedges m
    = all_faces m ≫=
        (λ f, let hs := halfedges_face m f in
              [Vector3.x hs; Vector3.y hs; Vector3.z hs]) ∧
  NoDup (all_vertices m) ∧ NoDup (all_faces m) ∧ NoDup (all_halfedges m) ∧
  (∀ v, v ∈ all_vertices m ↔ Field.valid (vertex_to_edge_ m) v = true) ∧
  (∀ f, f ∈ all_faces m ↔ Field.valid (faces_ m) f = true) ∧
  (∀ e, e ∈ all_halfedges m ↔ halfedge_in_range m e = true) ∧
  (∀ e, e ∈ all_boundary_edges m ↔
        halfedge_in_range m e = true ∧ is_boundary m e = true) ∧
  (∀ e, e ∈ all_interior_halfedges m ↔
        halfedge_in_range m e = true ∧ is_boundary m e = false).
Proof.
  intros (Hf & Hv & Hb).
  unfold all_halfedges, all_boundary_edges, all_interior_halfedges,
    all_vertices, all_faces.
  split_and!; try apply id_range_NoDup.
  - rewrite id_range_app. do 2 f_equal. unfold Array.size. lia.
  - change 0 with (3 * 0) at 1. apply interior_range_by_face; [lia|].
    unfold Field.size, Array.size in Hf. lia.
  - intros v. rewrite id_range_elem. unfold Field.valid, idx.
    rewrite array_valid_spec. unfold Array.size. lia.
  - intros f. rewrite id_range_elem. unfold Field.valid, idx.
    rewrite array_valid_spec. unfold Array.size. lia.
  - intros e. rewrite id_range_elem, halfedge_in_range_spec.
    unfold Field.size, Array.size. lia.
  - intros e. rewrite id_range_elem, halfedge_in_range_spec.
    unfold is_boundary. rewrite Z.ltb_lt. unfold Field.size, Array.size. lia.
  - intros e. rewrite id_range_elem, halfedge_in_range_spec.
    unfold is_boundary. rewrite Z.ltb_ge. unfold Field.size, Array.size. lia.
Qed.

(** *** Surgery on the links *)

Lemma array_get_update {A} (l l' : list A) (i : Z) (g : A → A) :
  Array.update l i g = Some l' →
  length l' = length l ∧
  ∀ j, Array.get l' j = (if decide (j = i) then g else λ a, a) <$> Array.get l j.
Proof.
  unfold Array.update. destruct (Array.get l i) as [a|] eqn:Ea; [|done].
  simpl. intros [= <-].
  assert (Array.valid l i = true) as Hv.
  { apply array_valid_spec, array_get_is_Some. by rewrite Ea. }
  split; [by rewrite length_insert|].
  intros j. destruct (decide (j = i)) as [->|Hne].
  - rewrite array_get_insert_eq by done. by rewrite Ea.
  - rewrite array_get_insert_ne; [|apply array_valid_spec in Hv; lia|done].
    by destruct (Array.get l j).
Qed.

Lemma array_get_of_nat {A} (l : list A) (i : nat) :
  Array.get l (Z.of_nat i) = l !! i.
Proof.
  rewrite array_get_unfold.
  destruct (0 <=? Z.of_nat i) eqn:E; [by rewrite Nat2Z.id|].
  apply Z.leb_gt in E. lia.
Qed.

Lemma array_update_None {A} (l : list A) (i : Z) (g : A → A) :
  Array.valid l i = false → Array.update l i g = None.
Proof.
  intros Hv. unfold Array.update. by rewrite (array_get_invalid _ _ Hv).
Qed.

Lemma array_valid_length {A B} (l : list A) (l' : list B) (i : Z) :
  length l' = length l → Array.valid l' i = Array.valid l i.
Proof. intros E. unfold Array.valid, Array.size. by rewrite E. Qed.

(** X10. [unsafe_boundary_link(p,n)] on two boundary halfedges whose slots
    are allocated makes [n] the [next] of [p] and [p] the [prev] of [n], also
    when [p] and [n] are the same halfedge.  It changes no other [next] or
    [prev], no source, no reverse and no validity, and leaves the faces, the
    vertex map, the counts and the size of the boundary array alone.  If one
    of the two slots is not allocated the call is a fault. *)
Theorem unsafe_boundary_link_spec (m : mesh) (p n : HalfedgeId) :
  (Array.valid (boundaries_ m) (-1 - id p) = true →
   Array.valid (boundaries_ m) (-1 - id n) = true →
   ∃ m', unsafe_boundary_link m p n = Some m' ∧
     next m' p = Some n ∧ prev m' n = Some p ∧
     (∀ e : HalfedgeId, e ≠ p → next m' e = next m e) ∧
     (∀ e : HalfedgeId, e ≠ n → prev m' e = prev m e) ∧
     (∀ e : HalfedgeId, src m' e = src m e ∧ reverse m' e = reverse m e ∧
                        valid m' e = valid m e) ∧
     same_shape m m' ∧ faces_ m' = faces_ m ∧
     Array.size (boundaries_ m') = Array.size (boundaries_ m)) ∧
  (Array.valid (boundaries_ m) (-1 - id p) = false ∨
   Array.valid (boundaries_ m) (-1 - id n) = false →
   unsafe_boundary_link m p n = None).
Proof.
  unfold unsafe_boundary_link. split.
  - intros Hp Hn.
    destruct (array_update_Some _ _ (set_next n) Hp) as (bp & Hbp & Hu1).
    rewrite Hu1. simpl.
    destruct (array_get_update _ _ _ _ Hu1) as [Hlen1 Hget1].
    assert (Array.valid (<[Z.to_nat (-1 - id p) := set_next n bp]> (boundaries_ m))
                        (-1 - id n) = true) as Hn'
      by (by rewrite (array_valid_length (boundaries_ m))).
    destruct (array_update_Some _ _ (set_prev p) Hn') as (bn & Hbn & Hu2).
    rewrite Hu2. simpl.
    destruct (array_get_update _ _ _ _ Hu2) as [Hlen2 Hget2].
    set (bs' := <[Z.to_nat (-1 - id n) := set_prev p bn]> _) in *.
    assert (∀ j, Array.get bs' j =
              (λ b, (if decide (j = -1 - id n) then set_prev p else λ a, a)
                      ((if decide (j = -1 - id p) then set_next n else λ a, a) b))
                <$> Array.get (boundaries_ m) j) as Hget.
    { intros j. rewrite Hget2, Hget1. by destruct (Array.get (boundaries_ m) j). }
    assert (∀ e e' : HalfedgeId, e ≠ e' → -1 - id e ≠ -1 - id e') as Hne.
    { intros [z] [z'] Hne E. apply Hne. f_equal. simpl in E. lia. }
    assert (id p < 0 ∧ id n < 0) as [Hsp Hsn].
    { apply array_valid_spec in Hp, Hn. lia. }
    eexists. split; [done|].
    split_and!.
    + unfold next. simpl.
      destruct (0 <=? id p) eqn:E; [apply Z.leb_le in E; lia|].
      rewrite Hget, Hbp. simpl. by repeat case_decide.
    + unfold prev. simpl.
      destruct (0 <=? id n) eqn:E; [apply Z.leb_le in E; lia|].
      rewrite Hget2, Hbn. simpl. by repeat case_decide.
    + intros e He%(Hne e p). unfold next. simpl. destruct (0 <=? id e); [done|].
      rewrite Hget.
      destruct (Array.get (boundaries_ m) (-1 - id e)) as [b|]; [|done]. simpl.
      by repeat case_decide.
    + intros e He%(Hne e n). unfold prev. simpl. destruct (0 <=? id e); [done|].
      rewrite Hget.
      destruct (Array.get (boundaries_ m) (-1 - id e)) as [b|]; [|done]. simpl.
      by repeat case_decide.
    + intros e. simpl. unfold src, reverse, valid_halfedge. simpl.
      rewrite (array_valid_length (boundaries_ m) bs') by congruence.
      destruct (0 <=? id e); [done|].
      rewrite Hget.
      destruct (Array.get (boundaries_ m) (-1 - id e)) as [b|]; simpl;
        [|by destruct (Array.valid _ _)].
      destruct (decide (-1 - id e = -1 - id n)),
        (decide (-1 - id e = -1 - id p)); done.
    + repeat split; simpl; try done.
      unfold boundary_sources. simpl. apply list_eq. intros i.
      rewrite !list_lookup_fmap.
      pose proof (Hget (Z.of_nat i)) as Hi. rewrite !array_get_of_nat in Hi.
      rewrite Hi.
      destruct (boundaries_ m !! i) as [b|]; simpl; [|done].
      destruct (decide (Z.of_nat i = -1 - id n)),
        (decide (Z.of_nat i = -1 - id p)); done.
    + done.
    + simpl. unfold Array.size. congruence.
  - intros [Hp|Hn].
    + by rewrite (array_update_None _ _ _ Hp).
    + destruct (Array.update (boundaries_ m) (-1 - id p) (set_next n))
        as [bs|] eqn:Hu; [|done].
      simpl. destruct (array_get_update _ _ _ _ Hu) as [Hlen _].
      rewrite array_update_None; [done|].
      by rewrite (array_valid_length (boundaries_ m)).
Qed.

Lemma vec3_get_set {A} (v v' : Vector3.t A) (i j : Z) (a : A) :
  Vector3.set v i a = Some v' →
  0 ≤ i < 3 ∧
  Vector3.get v' j = if decide (j = i) then Some a else Vector3.get v j.
Proof.
  unfold Vector3.set, Vector3.get.
  destruct (Z.eqb_spec i 0) as [->|?]; [|destruct (Z.eqb_spec i 1) as [->|?];
    [|destruct (Z.eqb_spec i 2) as [->|?]; [|done]]];
    intros [= <-]; (split; [lia|]); simpl;
    destruct (Z.eqb_spec j 0) as [->|?]; try (by case_decide);
    destruct (Z.eqb_spec j 1) as [->|?]; try (by case_decide);
    destruct (Z.eqb_spec j 2) as [->|?]; by case_decide.
Qed.

Lemma vec3_set_None {A} (v : Vector3.t A) (i : Z) (a : A) :
  ¬ 0 ≤ i < 3 → Vector3.set v i a = None.
Proof.
  intros Hi. unfold Vector3.set.
  destruct (Z.eqb_spec i 0); [lia|]. destruct (Z.eqb_spec i 1); [lia|].
  destruct (Z.eqb_spec i 2); [lia|]. done.
Qed.

(** What one write [faces[f].neighbors[i] = r] changes. *)
Lemma set_neighbor_spec (fs fs' : list FaceInfo) (f i : Z) (r : HalfedgeId) :
  set_neighbor fs f i r = Some fs' →
  0 ≤ f < Array.size fs ∧ 0 ≤ i < 3 ∧ length fs' = length fs ∧
  vertices <$> fs' = vertices <$> fs ∧
  ∀ g j, neighbor_at fs' g j =
         if decide (g = f ∧ j = i) then Some r else neighbor_at fs g j.
Proof.
  unfold set_neighbor. destruct (Array.get fs f) as [fi|] eqn:Hfi; [|done]. simpl.
  destruct (Vector3.set (neighbors fi) i r) as [ns|] eqn:Hns; [|done]. simpl.
  intros Hu. destruct (array_get_update _ _ _ _ Hu) as [Hlen Hget].
  destruct (vec3_get_set _ _ _ 0 _ Hns) as [Hi _].
  assert (0 ≤ f < Array.size fs) as Hf
    by (apply array_get_is_Some; by rewrite Hfi).
  split_and!; try (done || lia).
  - apply list_eq. intros k. rewrite !list_lookup_fmap.
    rewrite <- (array_get_of_nat fs' k), <- (array_get_of_nat fs k).
    rewrite Hget. case_decide as Hk.
    + rewrite Hk, Hfi. done.
    + by destruct (Array.get fs (Z.of_nat k)).
  - intros g j. unfold neighbor_at. rewrite Hget.
    destruct (decide (g = f)) as [->|Hg].
    + rewrite Hfi. simpl. destruct (vec3_get_set _ _ _ j _ Hns) as [_ ->].
      repeat case_decide; tauto || done.
    + rewrite decide_False by tauto. by destruct (Array.get fs g).
Qed.

Lemma set_neighbor_None (fs : list FaceInfo) (f i : Z) (r : HalfedgeId) :
  ¬ (0 ≤ f < Array.size fs ∧ 0 ≤ i < 3) → set_neighbor fs f i r = None.
Proof.
  intros Hn. destruct (set_neighbor fs f i r) as [fs'|] eqn:E; [|done].
  apply set_neighbor_spec in E. tauto.
Qed.

Lemma reverse_interior (m : mesh) (e : HalfedgeId) :
  0 ≤ id e →
  reverse m e = neighbor_at (Field.flat (faces_ m)) (int_div (id e) 3)
                            (id e - 3 * int_div (id e) 3).
Proof. intros He%Z.leb_le. unfold reverse. by rewrite He. Qed.

Lemma fmap_eq_get {A B} (f : A → B) (l l' : list A) :
  f <$> l' = f <$> l →
  length l' = length l ∧ ∀ j, f <$> Array.get l' j = f <$> Array.get l j.
Proof.
  intros E. split.
  - apply (f_equal length) in E. by rewrite !length_fmap in E.
  - intros j. rewrite !array_get_unfold. destruct (0 <=? j); [|done].
    by rewrite <- !list_lookup_fmap, E.
Qed.

(** What the walking routines other than [reverse] depend on: the vertices
    of the faces, and the sources and the [prev] and [next] links of the
    boundary halfedges. *)
Lemma walk_frame (m m' : mesh) :
  face_vertices m' = face_vertices m →
  boundary_walk <$> boundaries_ m' = boundary_walk <$> boundaries_ m →
  ∀ e : HalfedgeId,
    src m' e = src m e ∧ next m' e = next m e ∧ prev m' e = prev m e ∧
    valid m' e = valid m e.
Proof.
  intros [Hlf Hf]%fmap_eq_get [Hlb Hb]%fmap_eq_get e.
  assert (∀ j, (vertices <$> Array.get (Field.flat (faces_ m')) j
                = vertices <$> Array.get (Field.flat (faces_ m)) j)) as Hf' by done.
  simpl. unfold src, next, prev, valid_halfedge, valid_face, erased_face,
    Field.valid, Field.get, idx. simpl.
  rewrite (array_valid_length (Field.flat (faces_ m)) (Field.flat (faces_ m'))) by done.
  rewrite (array_valid_length (boundaries_ m) (boundaries_ m')) by done.
  destruct (0 <=? id e).
  - pose proof (Hf' (int_div (id e) 3)) as E.
    destruct (Array.get (Field.flat (faces_ m')) _) as [fi'|],
      (Array.get (Field.flat (faces_ m)) _) as [fi|]; simpl in *; try done.
    injection E as ->. done.
  - pose proof (Hb (-1 - id e)) as E.
    destruct (Array.get (boundaries_ m') _) as [b'|],
      (Array.get (boundaries_ m) _) as [b|]; simpl in *; try done.
    unfold boundary_walk in E. injection E as -> -> ->. done.
Qed.

Lemma id_inj {k} (a b : Id k) : id a = id b → a = b.
Proof. destruct a, b. simpl. by intros ->. Qed.

Lemma interior_in_range (m : mesh) (e : HalfedgeId) :
  0 ≤ id e → halfedge_in_range m e = true →
  0 ≤ int_div (id e) 3 < Array.size (Field.flat (faces_ m)) ∧
  0 ≤ id e - 3 * int_div (id e) 3 < 3.
Proof.
  intros Hs Hr. destruct (quot3_bounds (id e) Hs) as [Hq Hi].
  apply halfedge_in_range_spec in Hr. unfold Field.size, Array.size in *. lia.
Qed.

Lemma boundary_corner_fault (fs : list FaceInfo) (e r : HalfedgeId) :
  id e < 0 →
  set_neighbor fs (int_div (id e) 3) (id e - 3 * int_div (id e) 3) r = None.
Proof.
  intros Hs. apply set_neighbor_None. unfold int_div.
  pose proof (Z.quot_rem' (id e) 3) as H1.
  pose proof (Z.rem_nonpos (id e) 3 ltac:(lia) ltac:(lia)) as H2.
  pose proof (Z.rem_bound_abs (id e) 3 ltac:(lia)) as H3.
  revert H1 H2 H3. generalize (id e `quot` 3) (id e `rem` 3). lia.
Qed.

(** X11. [unsafe_interior_link(e0,e1)] on two interior halfedges within the
    range of the face array makes each the reverse of the other, also when
    they are the same halfedge.  It changes no other reverse, no source, no
    [next] or [prev], no validity, and leaves the vertices of the faces, the
    boundary array, the vertex map and the counts alone.  Given a boundary
    halfedge (a negative id) the call is a fault. *)
Theorem unsafe_interior_link_spec (m : mesh) (e0 e1 : HalfedgeId) :
  (is_boundary m e0 = false → is_boundary m e1 = false →
   halfedge_in_range m e0 = true → halfedge_in_range m e1 = true →
   ∃ m', unsafe_interior_link m e0 e1 = Some m' ∧
     reverse m' e0 = Some e1 ∧ reverse m' e1 = Some e0 ∧
     (∀ e : HalfedgeId, e ≠ e0 → e ≠ e1 → reverse m' e = reverse m e) ∧
     (∀ e : HalfedgeId,
        src m' e = src m e ∧ next m' e = next m e ∧ prev m' e = prev m e ∧
        valid m' e = valid m e) ∧
     same_shape m m' ∧ boundaries_ m' = boundaries_ m) ∧
  (is_boundary m e0 = true ∨ is_boundary m e1 = true →
   unsafe_interior_link m e0 e1 = None).
Proof.
  unfold unsafe_interior_link, is_boundary. split.
  - intros Hs0%Z.ltb_ge Hs1%Z.ltb_ge Hr0 Hr1.
    destruct (interior_in_range m e0 Hs0 Hr0) as [Hq0 Hi0].
    destruct (interior_in_range m e1 Hs1 Hr1) as [Hq1 Hi1].
    set (q0 := int_div (id e0) 3) in *. set (i0 := id e0 - 3 * q0) in *.
    set (q1 := int_div (id e1) 3) in *. set (i1 := id e1 - 3 * q1) in *.
    destruct (set_neighbor_ok (Field.flat (faces_ m)) q0 i0 e1 Hq0 Hi0)
      as (fs1 & E1 & _).
    destruct (set_neighbor_spec _ _ _ _ _ E1) as (_ & _ & Hl1 & Hv1 & Hg1).
    assert (0 ≤ q1 < Array.size fs1) as Hq1'
      by (unfold Array.size in *; rewrite Hl1; done).
    destruct (set_neighbor_ok fs1 q1 i1 e0 Hq1' Hi1) as (fs2 & E2 & _).
    destruct (set_neighbor_spec _ _ _ _ _ E2) as (_ & _ & Hl2 & Hv2 & Hg2).
    rewrite E1. simpl. rewrite E2. simpl. eexists. split; [done|].
    assert (∀ e : HalfedgeId, 0 ≤ id e →
              reverse (set_faces m (Field.mk fs2)) e =
              if decide (e = e1) then Some e0
              else if decide (e = e0) then Some e1 else reverse m e) as Hrev.
    { intros e He. rewrite !reverse_interior by done. simpl.
      rewrite Hg2, Hg1.
      destruct (decide (e = e1)) as [->|Hne1].
      - by rewrite decide_True by done.
      - rewrite decide_False
          by (intros [? ?]; apply Hne1, id_inj; unfold i1, q1 in *; lia).
        destruct (decide (e = e0)) as [->|Hne0].
        + by rewrite decide_True by done.
        + by rewrite decide_False
            by (intros [? ?]; apply Hne0, id_inj; unfold i0, q0 in *; lia). }
    split_and!.
    + rewrite Hrev by done. repeat case_decide; congruence.
    + rewrite Hrev by done. by rewrite decide_True.
    + intros e Hn0 Hn1. destruct (decide (0 ≤ id e)) as [He|He].
      * rewrite Hrev by done. by rewrite !decide_False.
      * unfold reverse. simpl.
        destruct (0 <=? id e) eqn:E; [apply Z.leb_le in E; lia | done].
    + apply walk_frame; [|done].
      unfold face_vertices. simpl. congruence.
    + repeat split; simpl; try done. unfold face_vertices. simpl. congruence.
    + done.
  - intros [Hs|Hs]; apply Z.ltb_lt in Hs.
    + by rewrite boundary_corner_fault.
    + destruct (set_neighbor _ _ _ e1) as [fs1|]; [|done]. simpl.
      by rewrite boundary_corner_fault.
Qed.

(** X12. In a mesh within the limits of [int], [unsafe_set_reverse(f,i,r)]
    on a face [f] within the range of the face array, a corner [i] in
    [0,3) and a halfedge [r] within the range of its array makes [r] the
    reverse of [halfedge(f,i)] and [halfedge(f,i)] the reverse of [r],
    whether [r] is an interior or a boundary halfedge.  It changes no other
    reverse, no source, no [next] or [prev], no validity, and leaves the
    vertices of the faces, the sources of the boundary halfedges, the vertex
    map and the counts alone. *)
Theorem unsafe_set_reverse_spec (m : mesh) (f : FaceId) (i : Z) (r : HalfedgeId) :
  within_limits m → Field.valid (faces_ m) f = true → 0 ≤ i < 3 →
  halfedge_in_range m r = true →
  ∃ m', unsafe_set_reverse m f i r = Some m' ∧
    reverse m' (halfedge m f i) = Some r ∧
    reverse m' r = Some (halfedge m f i) ∧
    (∀ e : HalfedgeId, e ≠ halfedge m f i → e ≠ r →
                       reverse m' e = reverse m e) ∧
    (∀ e : HalfedgeId,
       src m' e = src m e ∧ next m' e = next m e ∧ prev m' e = prev m e ∧
       valid m' e = valid m e) ∧
    same_shape m m'.
Proof.
  intros (Hlim & _) Hf Hi Hr. unfold Field.valid, idx in Hf.
  apply array_valid_spec in Hf.
  assert (halfedge m f i = MkId (3 * id f + i)) as Hh.
  { unfold halfedge, int_add, int_mul. f_equal. unfold int_max in Hlim.
    unfold Field.size in Hlim.
    rewrite (wrap_small (3 * id f)) by (unfold is_int, int_min, int_max; lia).
    apply wrap_small. unfold is_int, int_min, int_max; lia. }
  set (h := halfedge m f i) in *.
  assert (0 ≤ id h ∧ int_div (id h) 3 = id f ∧ id h - 3 * int_div (id h) 3 = i)
    as (Hsh & Hqh & Hih).
  { rewrite Hh. simpl. unfold int_div. rewrite corner_quot by lia. lia. }
  unfold unsafe_set_reverse, idx.
  change (MkId (int_add (int_mul 3 (id f)) i)) with h. clearbody h.
  destruct (set_neighbor_ok (Field.flat (faces_ m)) (id f) i r Hf Hi)
    as (fs1 & E1 & _).
  destruct (set_neighbor_spec _ _ _ _ _ E1) as (_ & _ & Hl1 & Hv1 & Hg1).
  rewrite E1. simpl.
  destruct (0 <=? id r) eqn:Hs.
  - apply Z.leb_le in Hs.
    destruct (interior_in_range m r Hs Hr) as [Hq Hj].
    set (q := int_div (id r) 3) in *. set (j := id r - 3 * q) in *.
    assert (0 ≤ q < Array.size fs1) as Hq'
      by (unfold Array.size in *; rewrite Hl1; done).
    destruct (set_neighbor_ok fs1 q j h Hq' Hj) as (fs2 & E2 & _).
    destruct (set_neighbor_spec _ _ _ _ _ E2) as (_ & _ & Hl2 & Hv2 & Hg2).
    rewrite E2. simpl. eexists. split; [done|].
    assert (∀ e : HalfedgeId, 0 ≤ id e →
              reverse (set_faces (set_faces m (Field.mk fs1)) (Field.mk fs2)) e =
              if decide (e = r) then Some h
              else if decide (e = h) then Some r else reverse m e) as Hrev.
    { intros e He. rewrite !reverse_interior by done. simpl.
      rewrite Hg2, Hg1.
      destruct (decide (e = r)) as [->|Hne1].
      - by rewrite decide_True by done.
      - rewrite decide_False
          by (intros [? ?]; apply Hne1, id_inj; unfold j, q in *; lia).
        destruct (decide (e = h)) as [->|Hne0].
        + by rewrite decide_True by done.
        + by rewrite decide_False
            by (intros [? ?]; apply Hne0, id_inj; lia). }
    split_and!.
    + rewrite Hrev by done. repeat case_decide; congruence.
    + rewrite Hrev by done. by rewrite decide_True.
    + intros e Hn0 Hn1. destruct (decide (0 ≤ id e)) as [He|He].
      * rewrite Hrev by done. by rewrite !decide_False.
      * unfold reverse. simpl.
        destruct (0 <=? id e) eqn:E; [apply Z.leb_le in E; lia | done].
    + apply walk_frame; [|done].
      unfold face_vertices. simpl. congruence.
    + repeat split; simpl; try done. unfold face_vertices. simpl. congruence.
  - apply Z.leb_gt in Hs. simpl.
    unfold halfedge_in_range in Hr.
    destruct (0 <=? id r) eqn:Hs'; [apply Z.leb_le in Hs'; lia|].
    destruct (array_update_Some _ _ (set_reverse h) Hr) as (b & Hb & Hu).
    rewrite Hu. simpl.
    destruct (array_get_update _ _ _ _ Hu) as [Hlb Hgb].
    set (bs' := <[Z.to_nat (-1 - id r) := set_reverse h b]> (boundaries_ m)) in *.
    assert (boundary_walk <$> bs' = boundary_walk <$> boundaries_ m) as Hwalk.
    { apply list_eq. intros k. rewrite !list_lookup_fmap.
      rewrite <- (array_get_of_nat bs' k), <- (array_get_of_nat (boundaries_ m) k).
      rewrite Hgb. destruct (Array.get (boundaries_ m) (Z.of_nat k)); [|done].
      simpl. by case_decide. }
    eexists. split; [done|]. split_and!.
    + rewrite reverse_interior by done. simpl. rewrite Hg1, Hih, Hqh.
      by rewrite decide_True.
    + unfold reverse. simpl. rewrite Hs', Hgb, Hb. simpl.
      by rewrite decide_True.
    + intros e Hn0 Hn1. destruct (decide (0 ≤ id e)) as [He|He].
      * rewrite !reverse_interior by done. simpl. rewrite Hg1.
        by rewrite decide_False by (intros [? ?]; apply Hn0, id_inj; lia).
      * unfold reverse. simpl.
        destruct (0 <=? id e) eqn:E; [apply Z.leb_le in E; lia|].
        rewrite Hgb.
        rewrite decide_False by (intros ?; apply Hn1, id_inj; lia).
        by destruct (Array.get (boundaries_ m) (-1 - id e)).
    + apply walk_frame; [|done].
      unfold face_vertices. simpl. congruence.
    + repeat split; simpl; try done;
        try (unfold face_vertices; simpl; congruence).
      unfold boundary_sources.
      apply (f_equal (fmap (λ w : HalfedgeId * HalfedgeId * VertexId, w.2))) in Hwalk.
      rewrite <- !list_fmap_compose in Hwalk. exact Hwalk.
Qed.

(** *** Tuples of neighbors *)

(** X13. In a mesh within the limits of [int], the tuples of neighbors of a
    valid face [f] agree with the walking routines: the [i]-th entry of
    [halfedges(f)] is [halfedge(f,i)], that of [vertices(f)] is
    [vertex(f,i)], the source of [halfedge(f,i)], and that of [faces(f)] is
    the face of the reverse of [halfedge(f,i)]; [vertices(e)] and
    [faces(e)] of the halfedge [e = halfedge(f,i)] are the pair of the
    [i]-th and the next vertex of [f], and the pair of [f] and the [i]-th
    entry of [faces(f)]. *)
Theorem neighbor_tuples (m : mesh) (f : FaceId) :
  within_limits m → valid m f = Some true →
  ∃ vs fs,
    vertices_face m f = Some vs ∧ faces_face m f = Some fs ∧
    ∀ i, 0 ≤ i < 3 →
      Vector3.get (halfedges_face m f) i = Some (halfedge m f i) ∧
      Vector3.get vs i = vertex m f i ∧
      Vector3.get vs i = src m (halfedge m f i) ∧
      Vector3.get fs i = face m <$> reverse m (halfedge m f i) ∧
      vertices_halfedge m (halfedge m f i)
        = (a ← Vector3.get vs i; b ← Vector3.get vs ((i + 1) `mod` 3);
           Some (a, b)) ∧
      faces_halfedge m (halfedge m f i) = (λ g, (f, g)) <$> Vector3.get fs i.
Proof.
  intros Hlim Hf. destruct f as [f].
  destruct (face_record m f Hf) as (Hf0 & fi & Hfi & Hvs).
  unfold vertices_face, faces_face. rewrite Hfi. simpl.
  eexists _, _. split; [done|]. split; [done|].
  intros i Hi.
  destruct (corner_walk m f i Hlim Hf Hi) as (_ & _ & Hface).
  assert (reverse m (MkId (3 * f + i)) = Vector3.get (neighbors fi) i) as Hrev.
  { rewrite reverse_interior by (simpl; lia). simpl. unfold int_div.
    rewrite corner_quot by lia. unfold neighbor_at.
    unfold Field.get, idx in Hfi. simpl in Hfi. rewrite Hfi. simpl.
    f_equal. lia. }
  unfold vertices_halfedge, faces_halfedge, halfedges_face, vertex.
  rewrite Hfi. simpl.
  change (MkId (int_add (int_mul 3 f) 0)) with (halfedge m (MkId f) 0).
  change (MkId (int_add (int_mul 3 f) 1)) with (halfedge m (MkId f) 1).
  change (MkId (int_add (int_mul 3 f) 2)) with (halfedge m (MkId f) 2).
  rewrite !halfedge_corner by (done || lia).
  rewrite Hrev, Hface, src_corner, dst_corner, Hvs by lia. simpl.
  destruct (vertices fi) as [a b c], (neighbors fi) as [na nb nc].
  assert (i = 0 ∨ i = 1 ∨ i = 2) as [-> | [-> | ->]] by lia; done.
Qed.

(** *** Marking vertices and faces as erased *)

Lemma int_sub_small a b : is_int (a - b) → int_sub a b = a - b.
Proof. apply wrap_small. Qed.

Lemma field_update_spec {A k} (fl fl' : Field.t A k) (i : Id k) (g : A → A) :
  Field.update fl i g = Some fl' →
  Field.size fl' = Field.size fl ∧
  ∀ j : Id k, Field.get fl' j
              = (if decide (j = i) then g else λ a, a) <$> Field.get fl j.
Proof.
  unfold Field.update, Field.get, Field.size, idx.
  destruct (Array.update (Field.flat fl) (id i) g) as [l'|] eqn:Hu; [|done].
  simpl. intros [= <-]. simpl.
  destruct (array_get_update _ _ _ _ Hu) as [Hlen Hget].
  split; [unfold Array.size; congruence|].
  intros j. rewrite Hget.
  destruct (decide (j = i)) as [->|Hne]; [by rewrite decide_True|].
  by rewrite decide_False by (intros ?; by apply Hne, id_inj).
Qed.

(** X14. [unsafe_set_erased(VertexId)] on a vertex within the range of the
    vertex array writes [erased_id] into its slot and takes one off the
    count of vertices: the vertex is erased and no longer valid.  Nothing
    else changes: the other vertices, the faces and the boundary halfedges
    are as before, so a halfedge that leaves the vertex stays valid with the
    same source.  The call does not test whether the vertex is already
    erased: a second call takes one more off the count.  Outside the range
    of the array it is a fault. *)
Theorem unsafe_set_erased_vertex_spec (m : mesh) (v : VertexId) :
  (Field.valid (vertex_to_edge_ m) v = true →
   int_min + 1 < n_vertices_ m ≤ int_max →
   ∃ m' m'', unsafe_set_erased m v = Some m' ∧
     halfedge_vertex m' v = Some (MkId erased_id) ∧
     erased m' v = Some true ∧ valid m' v = Some false ∧
     n_vertices m' = n_vertices m - 1 ∧
     (∀ w : VertexId, w ≠ v →
        halfedge_vertex m' w = halfedge_vertex m w ∧
        erased m' w = erased m w ∧ valid m' w = valid m w) ∧
     Field.size (vertex_to_edge_ m') = Field.size (vertex_to_edge_ m) ∧
     faces_ m' = faces_ m ∧ boundaries_ m' = boundaries_ m ∧
     erased_boundaries_ m' = erased_boundaries_ m ∧
     n_faces m' = n_faces m ∧ n_boundary_edges m' = n_boundary_edges m ∧
     (∀ e : HalfedgeId, valid m' e = valid m e ∧ src m' e = src m e) ∧
     unsafe_set_erased m' v = Some m'' ∧
     vertex_to_edge_ m'' = vertex_to_edge_ m' ∧
     n_vertices m'' = n_vertices m - 2) ∧
  (Field.valid (vertex_to_edge_ m) v = false → unsafe_set_erased m v = None).
Proof.
  simpl. unfold unsafe_set_erased_vertex. split.
  - intros Hv Hn.
    destruct (field_update_ok (vertex_to_edge_ m) v (λ _, MkId erased_id))
      as (old & Hold & Hu); [by apply array_valid_spec|].
    destruct (field_update_spec _ _ _ _ Hu) as [Hsz Hget].
    rewrite Hu. simpl.
    set (ve := Field.mk _) in *.
    assert (Field.valid ve v = true) as Hv'.
    { unfold Field.valid in *. apply array_valid_spec.
      apply array_valid_spec in Hv. unfold Field.size in Hsz. by rewrite Hsz. }
    destruct (field_update_ok ve v (λ _, MkId erased_id))
      as (old' & Hold' & Hu'); [by apply array_valid_spec|].
    assert (Field.get ve v = Some (MkId erased_id)) as Hgv.
    { rewrite Hget, Hold. simpl. by rewrite decide_True. }
    eexists (MkTopology _ _ _ _ ve _ _), _. split; [done|].
    unfold halfedge_vertex, valid_vertex, erased_vertex, n_vertices, n_faces,
      n_boundary_edges. simpl.
    split_and!; try done.
    + rewrite Hgv. simpl. by rewrite Z.eqb_refl.
    + rewrite Hv', Hgv. simpl. by rewrite Z.eqb_refl.
    + apply int_sub_small. unfold is_int. lia.
    + intros w Hw.
      assert (Field.get ve w = Field.get (vertex_to_edge_ m) w) as ->.
      { rewrite Hget, decide_False by done.
        by destruct (Field.get (vertex_to_edge_ m) w). }
      assert (Field.valid ve w = Field.valid (vertex_to_edge_ m) w) as ->; [|done].
      unfold Field.valid, Array.valid, Field.size in *. by rewrite Hsz.
    + by rewrite Hu'.
    + clear -Hgv. clearbody ve. destruct ve as [l]. simpl. f_equal.
      apply list_insert_id.
      unfold Field.get in Hgv. rewrite array_get_unfold in Hgv.
      unfold idx in *. simpl in *. by destruct (0 <=? id v).
    + simpl. rewrite (int_sub_small (n_vertices_ m) 1) by (unfold is_int; lia).
      rewrite (int_sub_small (n_vertices_ m - 1) 1) by (unfold is_int; lia). lia.
  - intros Hv. unfold Field.update, Field.valid in *.
    by rewrite array_update_None.
Qed.

(** X15. In a mesh within the limits of [int], [unsafe_set_erased(FaceId)]
    on a face within the range of the face array writes [erased_id] into
    the first vertex of its record and takes one off the count of faces: the
    face and its three halfedges are erased and no longer valid.  The other
    two vertices and the neighbors of the record stay, so that every
    [reverse] is as before, also those that lead into the erased face; the
    other faces and their halfedges, the boundary halfedges and the vertex
    map do not change.  Outside the range of the array the call is a
    fault. *)
Theorem unsafe_set_erased_face_spec (m : mesh) (f : FaceId) :
  within_limits m →
  (Field.valid (faces_ m) f = true → int_min < n_faces_ m ≤ int_max →
   ∃ m' fi, unsafe_set_erased m f = Some m' ∧
     Field.get (faces_ m) f = Some fi ∧
     Field.get (faces_ m') f
       = Some (MkFaceInfo (Vector3.mk (MkId erased_id)
                                      (Vector3.y (vertices fi))
                                      (Vector3.z (vertices fi)))
                          (neighbors fi)) ∧
     erased m' f = Some true ∧ valid m' f = Some false ∧
     (∀ i, 0 ≤ i < 3 →
        erased m' (halfedge m f i) = Some true ∧
        valid m' (halfedge m f i) = Some false) ∧
     n_faces m' = n_faces m - 1 ∧
     (∀ g : FaceId, g ≠ f → Field.get (faces_ m') g = Field.get (faces_ m) g) ∧
     (∀ e : HalfedgeId, reverse m' e = reverse m e) ∧
     (∀ e : HalfedgeId, face m e ≠ f →
        valid m' e = valid m e ∧ src m' e = src m e) ∧
     Field.size (faces_ m') = Field.size (faces_ m) ∧
     vertex_to_edge_ m' = vertex_to_edge_ m ∧ boundaries_ m' = boundaries_ m ∧
     erased_boundaries_ m' = erased_boundaries_ m ∧
     n_vertices m' = n_vertices m ∧
     n_boundary_edges m' = n_boundary_edges m) ∧
  (Field.valid (faces_ m) f = false → unsafe_set_erased m f = None).
Proof.
  intros (Hlim & _). simpl. unfold unsafe_set_erased_face. split.
  - intros Hv Hn.
    set (g := λ fi, MkFaceInfo (Vector3.mk (MkId erased_id)
                                           (Vector3.y (vertices fi))
                                           (Vector3.z (vertices fi)))
                               (neighbors fi)).
    destruct (field_update_ok (faces_ m) f g) as (fi & Hfi & Hu);
      [by apply array_valid_spec|].
    destruct (field_update_spec _ _ _ _ Hu) as [Hsz Hget].
    rewrite Hu. simpl. set (fs := Field.mk _) in *. clearbody fs.
    assert (Field.valid fs f = true) as Hv'.
    { unfold Field.valid in *. apply array_valid_spec.
      apply array_valid_spec in Hv. unfold Field.size in Hsz. by rewrite Hsz. }
    assert (Field.get fs f = Some (g fi)) as Hgf.
    { rewrite Hget, Hfi. simpl. by rewrite decide_True. }
    assert (∀ q, Array.get (Field.flat fs) q
                 = (if decide (q = id f) then g else λ a, a)
                     <$> Array.get (Field.flat (faces_ m)) q) as Hget'.
    { intros q. pose proof (Hget (MkId q)) as E. unfold Field.get, idx in E.
      simpl in E. rewrite E.
      destruct (decide (q = id f)) as [->|Hne].
      - rewrite decide_True; [done|]. by destruct f.
      - rewrite decide_False; [done|]. intros <-. done. }
    assert (valid_face
              (MkTopology (n_vertices_ m) (int_sub (n_faces_ m) 1)
                          (n_boundary_edges_ m) fs (vertex_to_edge_ m)
                          (boundaries_ m) (erased_boundaries_ m)) f
            = Some false) as Hvf.
    { unfold valid_face, erased_face. simpl. rewrite Hv', Hgf. simpl.
      by rewrite Z.eqb_refl. }
    exists (MkTopology (n_vertices_ m) (int_sub (n_faces_ m) 1)
                       (n_boundary_edges_ m) fs (vertex_to_edge_ m)
                       (boundaries_ m) (erased_boundaries_ m)), fi.
    unfold n_vertices, n_faces, n_boundary_edges. simpl.
    split_and!; try done.
    + unfold erased_face. simpl. rewrite Hgf. simpl. by rewrite Z.eqb_refl.
    + intros i Hi. apply array_valid_spec in Hv. unfold idx in Hv.
      assert (halfedge m f i = MkId (3 * id f + i)) as ->.
      { unfold halfedge, int_add, int_mul. f_equal. unfold int_max in Hlim.
        unfold Field.size in Hlim.
        rewrite (wrap_small (3 * id f)) by (unfold is_int, int_min, int_max; lia).
        apply wrap_small. unfold is_int, int_min, int_max; lia. }
      unfold erased_halfedge, valid_halfedge. simpl.
      assert ((0 <=? 3 * id f + i) = true) as -> by (apply Z.leb_le; lia).
      unfold int_div. rewrite corner_quot by lia.
      rewrite Hget'. unfold Field.get, idx in Hfi. rewrite Hfi. simpl.
      rewrite decide_True by done. simpl. rewrite Z.eqb_refl.
      split; [done|]. destruct f as [z]. exact Hvf.
    + apply int_sub_small. unfold is_int. lia.
    + intros g' Hne. rewrite Hget, decide_False by done.
      by destruct (Field.get (faces_ m) g').
    + intros e. unfold reverse. simpl. destruct (0 <=? id e); [|done].
      rewrite Hget'.
      destruct (Array.get (Field.flat (faces_ m)) (int_div (id e) 3)); [|done].
      simpl. by case_decide.
    + intros e Hne. unfold face in Hne.
      unfold valid_halfedge, valid_face, erased_face, src, Field.valid, Field.get,
        idx. simpl.
      rewrite (array_valid_length (Field.flat (faces_ m)) (Field.flat fs))
        by (unfold Field.size, Array.size in Hsz; lia).
      destruct (0 <=? id e); [|done].
      rewrite Hget'.
      rewrite decide_False by (intros E; apply Hne; destruct f; simpl in *; congruence).
      by destruct (Array.get (Field.flat (faces_ m)) (int_div (id e) 3)).
  - intros Hv. unfold Field.update, Field.valid in *.
    by rewrite array_update_None.
Qed.

(** *** The list of erased boundary slots *)

Lemma unsafe_set_erased_halfedge_get (m : mesh) (b : HalfedgeId) :
  Array.valid (boundaries_ m) (-1 - id b) = true →
  ∃ m', unsafe_set_erased_halfedge m b = Some m' ∧
    erased_boundaries_ m' = b ∧
    n_boundary_edges_ m' = int_sub (n_boundary_edges_ m) 1 ∧
    faces_ m' = faces_ m ∧
    length (boundaries_ m') = length (boundaries_ m) ∧
    ∀ j, Array.get (boundaries_ m') j
         = (if decide (j = -1 - id b)
            then λ x, set_next (erased_boundaries_ m) (set_src (MkId erased_id) x)
            else λ a, a) <$> Array.get (boundaries_ m) j.
Proof.
  intros Hv. unfold unsafe_set_erased_halfedge.
  destruct (array_update_Some _ _ (set_src (MkId erased_id)) Hv) as (x & Hx & Hu1).
  rewrite Hu1. simpl.
  destruct (array_get_update _ _ _ _ Hu1) as [Hl1 Hg1].
  set (bs1 := <[_ := _]> _) in *. clearbody bs1.
  assert (Array.valid bs1 (-1 - id b) = true) as Hv1
    by (by rewrite (array_valid_length (boundaries_ m))).
  destruct (array_update_Some _ _ (set_next (erased_boundaries_ m)) Hv1)
    as (y & Hy & Hu2).
  rewrite Hu2. simpl.
  destruct (array_get_update _ _ _ _ Hu2) as [Hl2 Hg2].
  eexists. split; [done|]. simpl. split_and!; try done; [congruence|].
  intros j. rewrite Hg2, Hg1.
  destruct (Array.get (boundaries_ m) j); [|done]. simpl. by case_decide.
Qed.

(** X16. The erased boundary slots form a stack that is linked through
    [next]: after [unsafe_set_erased] of two different boundary halfedges
    [b1] and then [b2] with allocated slots, the list of erased slots starts
    at [b2], whose [next] is [b1], whose [next] is the former start of the
    list; both are erased and no longer valid, two are taken off the count
    of boundary edges, and the other halfedges keep their validity and their
    [next].  The call does not test whether the halfedge is already erased:
    erasing [b1] twice makes [b1] its own [next]. *)
Theorem erased_boundaries_stack (m : mesh) (b1 b2 : HalfedgeId) :
  Array.valid (boundaries_ m) (-1 - id b1) = true →
  Array.valid (boundaries_ m) (-1 - id b2) = true →
  int_min + 1 < n_boundary_edges_ m ≤ int_max →
  ∃ m1 m2,
    unsafe_set_erased m b1 = Some m1 ∧ unsafe_set_erased m1 b2 = Some m2 ∧
    erased_boundaries_ m2 = b2 ∧
    next m2 b2 = Some b1 ∧
    (b1 ≠ b2 → next m2 b1 = Some (erased_boundaries_ m)) ∧
    erased m2 b1 = Some true ∧ erased m2 b2 = Some true ∧
    valid m2 b1 = Some false ∧ valid m2 b2 = Some false ∧
    n_boundary_edges m2 = n_boundary_edges m - 2 ∧
    (∀ e : HalfedgeId, e ≠ b1 → e ≠ b2 →
       valid m2 e = valid m e ∧ next m2 e = next m e ∧ src m2 e = src m e).
Proof.
  intros Hv1 Hv2 Hn. simpl.
  destruct (unsafe_set_erased_halfedge_get m b1 Hv1)
    as (m1 & E1 & Hh1 & Hc1 & Hf1 & Hl1 & Hg1).
  assert (Array.valid (boundaries_ m1) (-1 - id b2) = true) as Hv2'
    by (by rewrite (array_valid_length (boundaries_ m))).
  destruct (unsafe_set_erased_halfedge_get m1 b2 Hv2')
    as (m2 & E2 & Hh2 & Hc2 & Hf2 & Hl2 & Hg2).
  exists m1, m2. split; [done|]. split; [done|]. split; [done|].
  assert (id b1 < 0 ∧ id b2 < 0) as [Hs1 Hs2].
  { apply array_valid_spec in Hv1, Hv2. lia. }
  assert (∀ e : HalfedgeId, id e < 0 → (0 <=? id e) = false) as Hneg
    by (intros e He; apply Z.leb_gt; lia).
  destruct (array_get_valid _ _ Hv1) as [x1 Hx1].
  destruct (array_get_valid _ _ Hv2) as [x2 Hx2].
  assert (∀ e e' : HalfedgeId, -1 - id e = -1 - id e' → e = e') as Hinj
    by (intros e e' E; apply id_inj; lia).
  assert (∀ j, Array.valid (boundaries_ m2) j = Array.valid (boundaries_ m) j)
    as Hval.
  { intros j. rewrite (array_valid_length (boundaries_ m1)) by done.
    by apply array_valid_length. }
  assert (∀ j, Array.get (boundaries_ m2) j
               = (if decide (j = -1 - id b2)
                  then λ x, set_next b1 (set_src (MkId erased_id) x)
                  else λ a, a)
                 <$> ((if decide (j = -1 - id b1)
                       then λ x, set_next (erased_boundaries_ m)
                                          (set_src (MkId erased_id) x)
                       else λ a, a) <$> Array.get (boundaries_ m) j)) as Hget.
  { intros j. by rewrite Hg2, Hg1, Hh1. }
  unfold next, erased_halfedge, valid_halfedge, n_boundary_edges, src.
  rewrite !Hneg by done. rewrite !Hval, !Hget, Hv1, Hv2, Hx1, Hx2. simpl.
  split_and!.
  - rewrite decide_True by done. by repeat case_decide.
  - intros Hne. rewrite (decide_True (P := -1 - id b1 = -1 - id b1)) by done.
    by rewrite decide_False by (intros E; by apply Hne, Hinj).
  - repeat case_decide; simpl; rewrite ?Z.eqb_refl; done.
  - repeat case_decide; simpl; rewrite ?Z.eqb_refl; done.
  - repeat case_decide; simpl; rewrite ?Z.eqb_refl; done.
  - repeat case_decide; simpl; rewrite ?Z.eqb_refl; done.
  - rewrite Hc2, Hc1.
    rewrite (int_sub_small (n_boundary_edges_ m) 1) by (unfold is_int; lia).
    rewrite int_sub_small by (unfold is_int; lia). lia.
  - intros e Hn1 Hn2. unfold valid_face, erased_face, Field.valid, Field.get.
    rewrite Hf2, Hf1.
    destruct (0 <=? id e); [done|]. rewrite !Hval, !Hget.
    rewrite !(decide_False (P := -1 - id e = -1 - id b2))
      by (intros E; by apply Hn2, Hinj).
    rewrite !(decide_False (P := -1 - id e = -1 - id b1))
      by (intros E; by apply Hn1, Hinj).
    destruct (Array.get (boundaries_ m) (-1 - id e)); simpl; [done|].
    by destruct (Array.valid _ _).
Qed.

(** *** Erased ids and the iterators *)

Lemma unsafe_set_erased_vertex_get (m : mesh) (v : VertexId) :
  Field.valid (vertex_to_edge_ m) v = true →
  ∃ m', unsafe_set_erased_vertex m v = Some m' ∧
    length (Field.flat (vertex_to_edge_ m')) = length (Field.flat (vertex_to_edge_ m)) ∧
    ∀ w, Field.get (vertex_to_edge_ m') w
         = (if decide (w = v) then λ _, MkId erased_id else λ a, a)
             <$> Field.get (vertex_to_edge_ m) w.
Proof.
  intros Hv. unfold unsafe_set_erased_vertex.
  destruct (field_update_ok (vertex_to_edge_ m) v (λ _, MkId erased_id))
    as (old & Hold & Hu); [by apply array_valid_spec|].
  destruct (field_update_spec _ _ _ _ Hu) as [Hsz Hget].
  rewrite Hu. simpl. eexists. split; [done|]. simpl. split; [|done].
  unfold Field.size, Array.size in Hsz. simpl in *. lia.
Qed.

Lemma unsafe_set_erased_face_get (m : mesh) (f : FaceId) :
  Field.valid (faces_ m) f = true →
  ∃ m', unsafe_set_erased_face m f = Some m' ∧
    length (Field.flat (faces_ m')) = length (Field.flat (faces_ m)) ∧
    ∀ g, erased_face m' g
         = if decide (g = f) then Some true else erased_face m g.
Proof.
  intros Hv. unfold unsafe_set_erased_face.
  set (upd := λ fi, MkFaceInfo _ (neighbors fi)).
  destruct (field_update_ok (faces_ m) f upd) as (fi & Hfi & Hu);
    [by apply array_valid_spec|].
  destruct (field_update_spec _ _ _ _ Hu) as [Hsz Hget].
  rewrite Hu. simpl. eexists. split; [done|]. simpl. split.
  - unfold Field.size, Array.size in Hsz. simpl in *. lia.
  - intros g. unfold erased_face. simpl. rewrite Hget.
    destruct (decide (g = f)) as [->|Hne].
    + rewrite Hfi. simpl. by rewrite Z.eqb_refl.
    + by destruct (Field.get (faces_ m) g).
Qed.

Section IterAfterErase.
Context {k : kind} `{Handle k}.

(** The iterators on a mesh in which the ids of [S] have been erased. *)
Lemma iter_range_after_erase (m m' : mesh) (lo : Z) (n fuel : nat)
    (S : Id k → Prop) `{∀ i, Decision (S i)} :
  (n < fuel)%nat → int_min ≤ lo → lo + Z.of_nat n ≤ int_max →
  (∀ i : Id k, lo ≤ id i < lo + Z.of_nat n → is_Some (erased m i)) →
  (∀ i : Id k, lo ≤ id i < lo + Z.of_nat n →
     erased m' i = if decide (S i) then Some true else erased m i) →
  ∃ l, iter_range fuel m (MkId lo) (MkId (lo + Z.of_nat n)) = Done l ∧
       iter_range fuel m' (MkId lo) (MkId (lo + Z.of_nat n))
       = Done (filter (λ i, ¬ S i) l).
Proof.
  intros Hfuel Hlo Hhi Hsome Hnew. eexists. split.
  - by apply iter_range_run.
  - rewrite iter_range_run; try done.
    + f_equal. rewrite list_filter_filter. apply filter_ext_in.
      intros i Hi%id_range_elem. rewrite (Hnew i Hi).
      destruct (decide (S i)); [|tauto]. split; [done | tauto].
    + intros i Hi. rewrite (Hnew i Hi).
      destruct (decide (S i)); [eauto | by apply Hsome].
Qed.

End IterAfterErase.

(** X23. Erased ids are skipped: in a mesh within the limits of [int],
    after [unsafe_set_erased(v)] of a vertex within the vertex array,
    [vertices()] visits what it visited before except [v]; after
    [unsafe_set_erased(f)] of a face within the face array, [faces()]
    visits what it visited before except [f], and [interior_halfedges()]
    what it visited before except the halfedges of [f]; and after
    [unsafe_set_erased(b)] of a boundary halfedge with an allocated slot,
    [boundary_edges()] visits what it visited before except [b]. *)
Theorem erased_ids_are_skipped (m : mesh) (fuel : nat) :
  within_limits m →
  (length (all_vertices m) < fuel)%nat → (length (all_halfedges m) < fuel)%nat →
  (∀ v : VertexId, Field.valid (vertex_to_edge_ m) v = true →
     ∃ m' l, unsafe_set_erased m v = Some m' ∧
       vertices_range fuel m = Done l ∧
       vertices_range fuel m' = Done (filter (λ w, w ≠ v) l)) ∧
  (∀ f : FaceId, Field.valid (faces_ m) f = true →
     ∃ m' lf lh, unsafe_set_erased m f = Some m' ∧
       faces_range fuel m = Done lf ∧
       faces_range fuel m' = Done (filter (λ g, g ≠ f) lf) ∧
       interior_halfedges_range fuel m = Done lh ∧
       interior_halfedges_range fuel m'
         = Done (filter (λ e, face m e ≠ f) lh)) ∧
  (∀ b : HalfedgeId, Array.valid (boundaries_ m) (-1 - id b) = true →
     ∃ m' l, unsafe_set_erased m b = Some m' ∧
       boundary_edges_range fuel m = Done l ∧
       boundary_edges_range fuel m' = Done (filter (λ e, e ≠ b) l)).
Proof.
  intros (Hf & Hv & Hb) Hfv Hfh.
  unfold all_vertices in Hfv. unfold all_halfedges in Hfh.
  rewrite id_range_length in Hfv. rewrite id_range_length in Hfh.
  unfold Field.size, Array.size in Hf, Hv, Hb.
  assert (int_min ≤ 0 ∧ 0 ≤ int_max) as [Hmin0 Hmax0]
    by (unfold int_min, int_max; lia).
  assert (int_mul 3 (Z.of_nat (length (Field.flat (faces_ m))))
          = 3 * Z.of_nat (length (Field.flat (faces_ m)))) as Hmul.
  { apply wrap_small. unfold is_int. lia. }
  split_and!.
  - intros v Hval.
    destruct (unsafe_set_erased_vertex_get m v Hval) as (m' & E & Hlen & Hget).
    destruct (iter_range_after_erase (k:=Vertex) m m' 0
                (length (Field.flat (vertex_to_edge_ m))) fuel (λ w, w = v))
      as (l & E1 & E2); try (done || lia).
    + intros i Hi. apply erased_in_range_vertex, array_valid_spec.
      unfold idx, Array.size. lia.
    + intros i Hi. simpl. unfold erased_vertex. rewrite Hget.
      destruct (decide (i = v)) as [->|Hne].
      * unfold Field.valid in Hval.
        destruct (array_get_valid _ _ Hval) as [x Hx].
        unfold Field.get. rewrite Hx. simpl. by rewrite Z.eqb_refl.
      * by destruct (Field.get (vertex_to_edge_ m) i).
    + exists m', l.
      unfold vertices_range, Field.size, Array.size. rewrite Hlen.
      replace (Z.of_nat (length (Field.flat (vertex_to_edge_ m))))
        with (0 + Z.of_nat (length (Field.flat (vertex_to_edge_ m)))) by lia.
      by split_and!.
  - intros f Hval.
    destruct (unsafe_set_erased_face_get m f Hval) as (m' & E & Hlen & Her).
    destruct (iter_range_after_erase (k:=Face) m m' 0
                (length (Field.flat (faces_ m))) fuel (λ g, g = f))
      as (lf & E1 & E2); try (done || lia).
    { intros i Hi. apply erased_in_range_face, array_valid_spec.
      unfold idx, Array.size. lia. }
    destruct (iter_range_after_erase (k:=Halfedge) m m' 0
                (3 * length (Field.flat (faces_ m))) fuel
                (λ e : HalfedgeId, face m e = f))
      as (lh & E3 & E4); try (done || lia).
    { intros i Hi. apply erased_in_range_halfedge, halfedge_in_range_spec.
      unfold Field.size, Array.size. lia. }
    { intros i Hi. simpl. unfold erased_halfedge, face.
      assert ((0 <=? id i) = true) as -> by (apply Z.leb_le; lia).
      pose proof (Her (MkId (int_div (id i) 3))) as Hq.
      unfold erased_face, Field.get, idx in Hq. simpl in Hq.
      unfold erased_face, Field.get, idx. simpl. rewrite Hq.
      by repeat case_decide. }
    exists m', lf, lh.
    unfold faces_range, interior_halfedges_range, Field.size, Array.size.
    rewrite Hlen, Hmul.
    replace (MkId (k:=Face) (Z.of_nat (length (Field.flat (faces_ m)))))
      with (MkId (k:=Face) (0 + Z.of_nat (length (Field.flat (faces_ m)))))
      by (f_equal; lia).
    replace (3 * Z.of_nat (length (Field.flat (faces_ m))))
      with (0 + Z.of_nat (3 * length (Field.flat (faces_ m)))) by lia.
    by split_and!.
  - intros b Hval.
    destruct (unsafe_set_erased_halfedge_get m b Hval)
      as (m' & E & _ & _ & _ & Hlen & Hget).
    destruct (iter_range_after_erase (k:=Halfedge) m m'
                (- Z.of_nat (length (boundaries_ m)))
                (length (boundaries_ m)) fuel (λ e, e = b))
      as (l & E1 & E2); try (done || lia).
    + unfold int_min, int_max in *. lia.
    + intros i Hi. apply erased_in_range_halfedge, halfedge_in_range_spec.
      unfold Field.size, Array.size. lia.
    + intros i Hi. simpl. unfold erased_halfedge.
      assert ((0 <=? id i) = false) as -> by (apply Z.leb_gt; lia).
      rewrite Hget.
      destruct (decide (i = b)) as [->|Hne].
      * rewrite decide_True by done.
        destruct (array_get_valid _ _ Hval) as [x ->]. simpl.
        by rewrite Z.eqb_refl.
      * rewrite decide_False by (intros ?; apply Hne, id_inj; lia).
        by destruct (Array.get (boundaries_ m) (-1 - id i)).
    + exists m', l.
      unfold boundary_edges_range, Array.size. rewrite Hlen.
      replace (MkId (k:=Halfedge) 0)
        with (MkId (k:=Halfedge) (- Z.of_nat (length (boundaries_ m))
                                  + Z.of_nat (length (boundaries_ m))))
        by (f_equal; lia).
      by split_and!.
Qed.

(** *** The registry of fields *)

Section RegistryProperties.
Context {type_tag : Type} `{EqDecision type_tag}.
Context {value : Type}.
Variable zero : value.

Abbreviation Mutable := (MutableTriangleTopology type_tag value).
Abbreviation FieldId := (FieldId type_tag).

(** The id a registration uses and the value it gives the counter. *)
Lemma add_field_eq k T (mm : Mutable) i :
  let j := if i =? invalid_id then next_field_id mm else i in
  let n := if i =? invalid_id then int_add (next_field_id mm) 1
           else Z.max (next_field_id mm) (int_add i 1) in
  let fs := prim_fields k mm ++ [UntypedArray_make zero T (size_expr k mm)] in
  add_field zero k T mm i =
    if bool_decide (is_Some (id_to_prim_field k mm !! j))
    then (set_next_field_id mm n, inl AssertionError)
    else (set_prim_field k (set_next_field_id mm n) fs
            (<[j := wrap (Z.of_nat (length fs) - 1)]> (id_to_prim_field k mm)),
          inr (MkFieldId T j)).
Proof. unfold add_field. destruct (i =? invalid_id); by destruct k. Qed.

Lemma prim_fields_set_ne k k' (mm : Mutable) fs tbl :
  k' ≠ k → prim_fields k' (set_prim_field k mm fs tbl) = prim_fields k' mm.
Proof. by destruct k, k'. Qed.

Lemma id_to_prim_field_set_ne k k' (mm : Mutable) fs tbl :
  k' ≠ k →
  id_to_prim_field k' (set_prim_field k mm fs tbl) = id_to_prim_field k' mm.
Proof. by destruct k, k'. Qed.

Lemma next_field_id_set k (mm : Mutable) fs tbl :
  next_field_id (set_prim_field k mm fs tbl) = next_field_id mm.
Proof. by destruct k. Qed.

(** X17. Registration keeps every registered id below the counter of ids,
    so that a registration with the default id cannot collide: if all ids
    in the three tables are below [next_field_id], which is below
    [INT_MAX], then [add_##prim##_field] with the default id succeeds and
    returns the old value of the counter, and with an explicit id below
    [INT_MAX] that is not in the table of its kind it succeeds and returns
    that id; the counter becomes the old counter plus one, or the larger of
    the old counter and the id plus one, and again all ids in the tables
    are below it. *)
Theorem add_field_fresh_ids k T (mm : Mutable) (i : Z) :
  ids_below_next mm → int_min ≤ next_field_id mm < int_max →
  i = invalid_id ∨ (int_min ≤ i < int_max ∧ id_to_prim_field k mm !! i = None) →
  ∃ mm' j,
    add_field zero k T mm i = (mm', inr (MkFieldId T j)) ∧
    j = (if i =? invalid_id then next_field_id mm else i) ∧
    next_field_id mm' = (if i =? invalid_id then next_field_id mm + 1
                         else Z.max (next_field_id mm) (i + 1)) ∧
    is_Some (id_to_prim_field k mm' !! j) ∧
    ids_below_next mm' ∧ int_min ≤ next_field_id mm' ≤ int_max.
Proof.
  intros Hbelow Hnext Hi. rewrite add_field_eq.
  set (j := if i =? invalid_id then next_field_id mm else i).
  set (n := if i =? invalid_id then int_add (next_field_id mm) 1
            else Z.max (next_field_id mm) (int_add i 1)).
  assert (id_to_prim_field k mm !! j = None) as Hfree.
  { unfold j. destruct (Z.eqb_spec i invalid_id) as [->|Hne].
    - destruct (id_to_prim_field k mm !! next_field_id mm) eqn:E; [|done].
      assert (next_field_id mm < next_field_id mm); [|lia].
      apply (Hbelow k). by rewrite E.
    - by destruct Hi as [?|[_ ?]]. }
  assert (n = (if i =? invalid_id then next_field_id mm + 1
               else Z.max (next_field_id mm) (i + 1)) ∧ j < n ∧
          next_field_id mm ≤ n ∧ int_min ≤ n ≤ int_max) as (Hn & Hjn & Hmono & Hint).
  { unfold n, j. destruct (Z.eqb_spec i invalid_id) as [->|Hne].
    - rewrite int_add_small by (unfold is_int; lia). lia.
    - destruct Hi as [?|[Hi _]]; [done|].
      rewrite int_add_small by (unfold is_int; lia). lia. }
  rewrite bool_decide_eq_false_2 by (rewrite Hfree; by intros [? ?]).
  eexists _, j. split; [done|]. split; [done|].
  rewrite next_field_id_set, id_to_prim_field_set. simpl.
  split_and!; try (done || lia).
  - rewrite lookup_insert_eq. eauto.
  - intros k' i'. rewrite next_field_id_set. simpl.
    destruct (decide (k' = k)) as [->|Hk].
    + rewrite id_to_prim_field_set.
      destruct (decide (i' = j)) as [->|Hij]; [intros _; lia|].
      rewrite lookup_insert_ne by done. intros Hs.
      pose proof (Hbelow k i' Hs). lia.
    + rewrite id_to_prim_field_set_ne by done. intros Hs.
      assert (i' < next_field_id mm); [|lia].
      apply (Hbelow k'). by destruct k'.
Qed.

(** X18. A registration under an id that is already in the table of its
    kind throws [AssertionError].  The vectors of fields, the tables and the
    mesh are then as before, but the counter of ids has already been
    advanced: to the larger of the old counter and the id plus one for an
    explicit id, by one for the default id. *)
Theorem add_field_duplicate k T (mm : Mutable) (i : Z) :
  is_Some (id_to_prim_field k mm !!
             (if i =? invalid_id then next_field_id mm else i)) →
  ∃ mm',
    add_field zero k T mm i = (mm', inl AssertionError) ∧
    base mm' = base mm ∧
    (∀ k', prim_fields k' mm' = prim_fields k' mm ∧
           id_to_prim_field k' mm' = id_to_prim_field k' mm) ∧
    next_field_id mm' = (if i =? invalid_id then int_add (next_field_id mm) 1
                         else Z.max (next_field_id mm) (int_add i 1)).
Proof.
  intros Hs. rewrite add_field_eq. rewrite bool_decide_eq_true_2 by done.
  eexists. split; [done|]. split_and!; [done | | done].
  intros k'. by destruct k'.
Qed.

(** X19. In a registry whose tables point into the vectors of fields and
    whose vectors are shorter than [INT_MAX], a successful registration
    leaves the mesh and all other fields as they were: [field] and
    [has_##prim##_field] of every other id of the same kind and of every id
    of another kind answer as before, the new handle is reported by
    [has_##prim##_field] unless its id is the invalid id, and the tables
    still point into the vectors. *)
Theorem add_field_frame k T (mm mm' : Mutable) (i : Z) (fid : FieldId k) :
  tables_in_range mm →
  (∀ k', Z.of_nat (length (prim_fields k' mm)) < int_max) →
  add_field zero k T mm i = (mm', inr fid) →
  base mm' = base mm ∧
  tables_in_range mm' ∧
  (∀ g : FieldId k, field_id g ≠ field_id fid →
     field mm' g = field mm g ∧ has_field mm' g = has_field mm g) ∧
  (∀ k' (g : FieldId k'), k' ≠ k →
     field mm' g = field mm g ∧ has_field mm' g = has_field mm g) ∧
  (field_id fid ≠ invalid_id → has_field mm' fid = true).
Proof.
  intros Htbl Hlen. rewrite add_field_eq.
  set (j := if i =? invalid_id then next_field_id mm else i).
  set (n := if i =? invalid_id then int_add (next_field_id mm) 1
            else Z.max (next_field_id mm) (int_add i 1)).
  set (fs := prim_fields k mm ++ [UntypedArray_make zero T (size_expr k mm)]).
  case_bool_decide as Hdup; [done|]. intros [= <- <-]. simpl.
  assert (wrap (Z.of_nat (length fs) - 1) = Z.of_nat (length (prim_fields k mm)))
    as Hw.
  { unfold fs. rewrite length_app. simpl. pose proof (Hlen k).
    rewrite wrap_small; [lia|]. unfold is_int, int_min, int_max in *. lia. }
  rewrite Hw.
  set (mm1 := set_prim_field k (set_next_field_id mm n) fs _).
  assert (prim_fields k mm1 = fs ∧
          id_to_prim_field k mm1
            = <[j := Z.of_nat (length (prim_fields k mm))]> (id_to_prim_field k mm))
    as [Hfs Htb].
  { unfold mm1. by rewrite prim_fields_set, id_to_prim_field_set. }
  assert (∀ k', k' ≠ k →
            prim_fields k' mm1 = prim_fields k' mm ∧
            id_to_prim_field k' mm1 = id_to_prim_field k' mm) as Hother.
  { intros k' Hk. unfold mm1.
    rewrite prim_fields_set_ne, id_to_prim_field_set_ne by done.
    by destruct k'. }
  assert (∀ q, 0 ≤ q < Z.of_nat (length (prim_fields k mm)) →
            Array.get fs q = Array.get (prim_fields k mm) q) as Hold.
  { intros q Hq. rewrite !array_get_unfold. destruct (0 <=? q); [|done].
    unfold fs. apply lookup_app_l. lia. }
  split_and!.
  - unfold mm1. by rewrite base_set_prim_field.
  - intros k' i' q. destruct (decide (k' = k)) as [->|Hk].
    + rewrite Hfs, Htb. unfold fs. rewrite length_app. simpl.
      destruct (decide (i' = j)) as [->|Hij].
      * rewrite lookup_insert_eq. intros [= <-]. lia.
      * rewrite lookup_insert_ne by done. intros Hq%Htbl. lia.
    + destruct (Hother k' Hk) as [-> ->]. apply Htbl.
  - intros g Hg. unfold field, has_field, Hashtable_get. rewrite Hfs, Htb.
    rewrite lookup_insert_ne by done. split; [|done].
    destruct (id_to_prim_field k mm !! field_id g) as [q|] eqn:Eq; [|done].
    by rewrite Hold by (by eapply Htbl).
  - intros k' g Hk. unfold field, has_field, Hashtable_get.
    by destruct (Hother k' Hk) as [-> ->].
  - intros Hv. unfold has_field, FieldId_valid. simpl in *.
    rewrite Htb, lookup_insert_eq.
    apply Z.eqb_neq in Hv. rewrite Hv. done.
Qed.

End RegistryProperties.

(** *** Fields *)

(** X20. [Field::id_range()] lists [size()] ids without repetition, and an
    id is in it exactly when [valid] holds for it, which is exactly when
    [operator[]] can read it; every id of the field made by [Field(n)] for
    [n >= 0] reads the default value and the field has size [n]. *)
Theorem Field_id_range_valid {A k} (f : Field.t A k) :
  length (Field_id_range f) = Z.to_nat (Field.size f) ∧
  NoDup (Field_id_range f) ∧
  (∀ i : Id k, i ∈ Field_id_range f ↔ Field.valid f i = true) ∧
  (∀ i : Id k, Field.valid f i = true ↔ is_Some (Field.get f i)) ∧
  (∀ (n : Z) (dflt : A), 0 ≤ n →
     Field.size (Field.make k n dflt) = n ∧
     ∀ i : Id k, i ∈ Field_id_range (Field.make k n dflt) →
                 Field.get (Field.make k n dflt) i = Some dflt).
Proof.
  unfold Field_id_range, Field.valid, Field.get, Field.size, Array.size, idx.
  split_and!.
  - rewrite id_range_length. lia.
  - apply id_range_NoDup.
  - intros i. rewrite id_range_elem, array_valid_spec. unfold Array.size. lia.
  - intros i. rewrite array_valid_spec. symmetry. apply array_get_is_Some.
  - intros n dflt Hn. simpl. rewrite length_replicate. split; [lia|].
    intros i Hi%id_range_elem. rewrite array_get_unfold.
    destruct (0 <=? id i) eqn:E; [|apply Z.leb_gt in E; lia].
    apply lookup_replicate_2. lia.
Qed.

(** X21. [Field(source,size,def)] for [size >= 0] and a table whose keys
    all lie in [0,size) is the field of size [size] that reads, at every
    id, the entry of the table under that id, or [def] if the table has
    none; the order in which the table is traversed does not matter.  If a
    key of the table lies outside [0,size) the construction writes outside
    the array: it is a fault. *)
Theorem Field_of_table_lookup {A k} (source : gmap Z A) (size : Z) (def : A) :
  0 ≤ size →
  ((∀ key, is_Some (source !! key) → 0 ≤ key < size) →
   ∃ f : Field.t A k,
     Field_of_table source size def = Some f ∧ Field.size f = size ∧
     ∀ i : Id k, Field.get f i =
                 if Field.valid f i then Some (default def (source !! id i))
                 else None) ∧
  ((∃ key, is_Some (source !! key) ∧ ¬ 0 ≤ key < size) →
   Field_of_table (k:=k) source size def = None).
Proof.
  intros Hsize. unfold Field_of_table.
  set (step := λ (key : Z) (y : A) (acc : option (list A)),
                 l ← acc; Array.update l key (λ _, y)).
  set (P := λ (r : option (list A)) (m : gmap Z A),
    (∀ l, r = Some l → length l = Z.to_nat size) ∧
    ((∀ key, is_Some (m !! key) → 0 ≤ key < size) →
     ∃ l, r = Some l ∧
          ∀ q, Array.get l q =
               if Array.valid l q then Some (default def (m !! q)) else None) ∧
    ((∃ key, is_Some (m !! key) ∧ ¬ 0 ≤ key < size) → r = None)).
  assert (P (map_fold step (Some (replicate (Z.to_nat size) def)) source) source)
    as (Hlen & Hok & Hbad).
  { apply (map_fold_weak_ind P); unfold P; clear P.
    - split_and!.
      + intros l [= <-]. by rewrite length_replicate.
      + intros _. eexists. split; [done|]. intros q.
        rewrite lookup_empty. simpl.
        destruct (Array.valid _ q) eqn:Hv; [|by apply array_get_invalid].
        rewrite array_get_unfold. apply array_valid_spec in Hv.
        unfold Array.size in Hv. rewrite length_replicate in Hv.
        destruct (0 <=? q) eqn:E; [|apply Z.leb_gt in E; lia].
        apply lookup_replicate_2. lia.
      + intros (key & [x Hx] & _). by rewrite lookup_empty in Hx.
    - intros i x m r Hi (Hlen & Hok & Hbad). unfold step.
      assert (∀ l l', r = Some l → Array.update l i (λ _, x) = Some l' →
                length l' = Z.to_nat size) as Hlen'.
      { intros l l' -> Hu. destruct (array_get_update _ _ _ _ Hu) as [-> _].
        by apply Hlen. }
      split_and!.
      + intros l'. destruct r as [l|]; simpl; [|done]. by apply Hlen'.
      + intros Hkeys.
        destruct Hok as (l & -> & Hget).
        { intros key Hk. apply Hkeys.
          destruct (decide (key = i)) as [->|Hne];
            [rewrite lookup_insert_eq | rewrite lookup_insert_ne by done]; eauto. }
        simpl.
        assert (Array.valid l i = true) as Hv.
        { apply array_valid_spec. unfold Array.size.
          rewrite (Hlen l eq_refl).
          pose proof (Hkeys i ltac:(rewrite lookup_insert_eq; eauto)). lia. }
        destruct (array_update_Some l i (λ _, x) Hv) as (a & _ & Hu).
        rewrite Hu. eexists. split; [done|].
        destruct (array_get_update _ _ _ _ Hu) as [Hl' Hget'].
        intros q. rewrite Hget', Hget.
        rewrite (array_valid_length l _ q Hl').
        destruct (decide (q = i)) as [->|Hne].
        * rewrite Hv, lookup_insert_eq. done.
        * rewrite lookup_insert_ne by done. by destruct (Array.valid l q).
      + intros (key & Hk & Hout).
        destruct r as [l|]; simpl; [|done].
        destruct (decide (key = i)) as [->|Hne].
        * apply array_update_None. apply not_true_is_false.
          rewrite array_valid_spec. unfold Array.size.
          rewrite (Hlen l eq_refl). lia.
        * rewrite lookup_insert_ne in Hk by done.
          assert (Some l = None) as Habs by (apply Hbad; eauto). done. }
  split.
  - intros Hkeys. destruct (Hok Hkeys) as (l & El & Hget). rewrite El. simpl.
    eexists. split; [done|]. split.
    + unfold Field.size, Array.size. simpl. rewrite (Hlen l El). lia.
    + intros i. unfold Field.get, Field.valid, idx. simpl. apply Hget.
  - intros Hb. by rewrite (Hbad Hb).
Qed.

(** ** The Euler characteristic along flips and splits *)

(** *** No edit leaves an isolated vertex *)

Lemma no_isolated_links (m : mesh) :
  no_isolated_vertex m ↔ links_ok (vertex_to_edge_ m).
Proof.
  unfold no_isolated_vertex, links_ok, link_ok, isolated, halfedge_vertex.
  simpl. unfold valid_vertex, erased_vertex, and_not, Field.valid.
  split.
  - intros H w h Hg.
    destruct (decide (id h = erased_id)) as [|Hne]; [by left | right].
    specialize (H w). rewrite Hg in H. simpl in H.
    assert (Array.valid (Field.flat (vertex_to_edge_ m)) (idx w) = true) as Hv.
    { apply array_valid_spec, array_get_is_Some. unfold Field.get in Hg. eauto. }
    rewrite Hv in H. apply Z.eqb_neq in Hne. rewrite Hne in H.
    specialize (H eq_refl). injection H as H. by apply negb_false_iff in H.
  - intros H v Hv.
    destruct (Array.valid (Field.flat (vertex_to_edge_ m)) (idx v)) eqn:Hr; [|done].
    destruct (Field.get (vertex_to_edge_ m) v) as [h|] eqn:Hg; [|done].
    simpl in *. injection Hv as Hv. apply negb_true_iff, Z.eqb_neq in Hv.
    destruct (H v h Hg) as [?|Hv']; [done | by rewrite Hv'].
Qed.

Lemma links_ok_weaken (c : VertexId) (ve : Field.t HalfedgeId Vertex) :
  links_ok ve → links_ok_except c ve.
Proof. intros H w h _. apply H. Qed.

Lemma links_ok_relink (ve ve' : Field.t HalfedgeId Vertex) (v c : VertexId)
    (a b h : HalfedgeId) :
  relink_vertex ve v a b h = Some ve' → Id_valid h = true →
  links_ok_except c ve → links_ok_except c ve'.
Proof.
  unfold relink_vertex. intros Hu Hh Hok w x Hw Hg.
  destruct (field_update_spec _ _ _ _ Hu) as [_ Hget]. rewrite Hget in Hg.
  destruct (Field.get ve w) as [old|] eqn:Eold; [|done].
  simpl in Hg. injection Hg as <-.
  destruct (decide (w = v)); [|by apply (Hok w)].
  case_bool_decide; [by right | by apply (Hok w)].
Qed.

Lemma links_ok_relink_all (ve ve' : Field.t HalfedgeId Vertex) (v : VertexId)
    (a b h : HalfedgeId) :
  relink_vertex ve v a b h = Some ve' → Id_valid h = true →
  links_ok ve → links_ok ve'.
Proof.
  unfold relink_vertex. intros Hu Hh Hok w x Hg.
  destruct (field_update_spec _ _ _ _ Hu) as [_ Hget]. rewrite Hget in Hg.
  destruct (Field.get ve w) as [old|] eqn:Eold; [|done].
  simpl in Hg. injection Hg as <-.
  destruct (decide (w = v)); [|by apply (Hok w)].
  case_bool_decide; [by right | by apply (Hok w)].
Qed.

Lemma links_ok_set (ve ve' : Field.t HalfedgeId Vertex) (c : VertexId)
    (h : HalfedgeId) :
  Field.update ve c (λ _, h) = Some ve' → Id_valid h = true →
  links_ok_except c ve → links_ok ve'.
Proof.
  intros Hu Hh Hok w x Hg.
  destruct (field_update_spec _ _ _ _ Hu) as [_ Hget]. rewrite Hget in Hg.
  destruct (Field.get ve w) as [old|] eqn:Eold; [|done].
  simpl in Hg. injection Hg as <-.
  destruct (decide (w = c)); [by right | by apply (Hok w)].
Qed.

Lemma links_ok_add_vertex (m : mesh) :
  links_ok (vertex_to_edge_ m) →
  links_ok_except (add_vertex m).2 (vertex_to_edge_ (add_vertex m).1).
Proof.
  intros Hok w h Hw Hg. simpl in *. apply (Hok w).
  unfold Field.get, idx in *. simpl in Hg.
  assert (0 ≤ id w < Array.size (Field.flat (vertex_to_edge_ m) ++ [Id_default]))
    as Hr by (apply array_get_is_Some; eauto).
  unfold Array.size in Hr. rewrite length_app in Hr. simpl in Hr.
  assert (id w ≠ Z.of_nat (length (Field.flat (vertex_to_edge_ m)))) as Hne.
  { intros E. apply Hw, id_inj. simpl. by unfold Field.size, Array.size. }
  rewrite array_get_unfold in Hg |- *.
  destruct (0 <=? id w); [|done].
  by rewrite lookup_app_l in Hg by lia.
Qed.

(** What the edits of the links leave alone: the vertex map and the sizes
    of the arrays. *)
Lemma unsafe_set_reverse_arrays (m m' : mesh) (f : FaceId) (i : Z) (r : HalfedgeId) :
  unsafe_set_reverse m f i r = Some m' →
  vertex_to_edge_ m' = vertex_to_edge_ m ∧
  length (Field.flat (faces_ m')) = length (Field.flat (faces_ m)) ∧
  length (boundaries_ m') = length (boundaries_ m).
Proof.
  unfold unsafe_set_reverse. intros H.
  apply bind_Some in H as (fs & Hfs & H).
  apply set_neighbor_spec in Hfs as (_ & _ & Hl & _).
  destruct (0 <=? id r).
  - apply bind_Some in H as (fs' & Hfs' & [= <-]).
    apply set_neighbor_spec in Hfs' as (_ & _ & Hl' & _).
    simpl. split_and!; [done | congruence | done].
  - apply bind_Some in H as (bs & Hbs & [= <-]).
    apply array_get_update in Hbs as [Hlb _].
    simpl in *. split_and!; [done | congruence | done].
Qed.

Lemma unsafe_boundary_link_arrays (m m' : mesh) (p n : HalfedgeId) :
  unsafe_boundary_link m p n = Some m' →
  vertex_to_edge_ m' = vertex_to_edge_ m ∧
  length (Field.flat (faces_ m')) = length (Field.flat (faces_ m)) ∧
  length (boundaries_ m') = length (boundaries_ m).
Proof.
  unfold unsafe_boundary_link. intros H.
  apply bind_Some in H as (bs & Hbs & H).
  apply bind_Some in H as (bs' & Hbs' & [= <-]).
  apply array_get_update in Hbs as [Hl _].
  apply array_get_update in Hbs' as [Hl' _].
  simpl. split_and!; [done | done | congruence].
Qed.

Lemma field_update_range {A k} (fl fl' : Field.t A k) (i : Id k) (g : A → A) :
  Field.update fl i g = Some fl' →
  0 ≤ id i < Field.size fl ∧
  length (Field.flat fl') = length (Field.flat fl).
Proof.
  intros H. destruct (field_update_spec _ _ _ _ H) as [Hs _].
  unfold Field.size, Array.size in Hs. split; [|lia].
  unfold Field.update in H. apply fmap_Some in H as (l & H & _).
  unfold Array.update in H. apply bind_Some in H as (a & Ha & _).
  apply array_get_is_Some. eauto.
Qed.

(** The id of a halfedge of a face within the face array is not the
    invalid id. *)
Lemma halfedge_Id_valid (m0 m : mesh) (f : FaceId) (i : Z) :
  within_limits m0 → invalid_id_outside m0 →
  0 ≤ id f < Field.size (faces_ m0) → 0 ≤ i < 3 →
  Id_valid (halfedge m f i) = true.
Proof.
  intros (Hl & _ & _) Hout Hf Hi. unfold Id_valid, halfedge. simpl.
  unfold int_add, int_mul. rewrite (wrap_small (3 * id f))
    by (unfold is_int, int_min, int_max in *; lia).
  rewrite wrap_small by (unfold is_int, int_min, int_max in *; lia).
  apply negb_true_iff, Z.eqb_neq.
  unfold invalid_id_outside, Array.size in Hout. lia.
Qed.

Tactic Notation "bind_inv" hyp(H) "as" simple_intropattern(x) simple_intropattern(Hx) :=
  apply bind_Some in H as (x & Hx & H).

Lemma unsafe_flip_edge_links (m m' : mesh) (e0 e' : HalfedgeId) :
  unsafe_flip_edge m e0 = Some (m', e') →
  within_limits m → invalid_id_outside m →
  links_ok (vertex_to_edge_ m) → links_ok (vertex_to_edge_ m').
Proof.
  unfold unsafe_flip_edge. intros H Hlim Hout Hok.
  bind_inv H as e1 He1. bind_inv H as n0 Hn0. bind_inv H as p0 Hp0.
  bind_inv H as n1 Hn1. bind_inv H as p1 Hp1.
  bind_inv H as rn0 Hrn0. bind_inv H as rp0 Hrp0.
  bind_inv H as rn1 Hrn1. bind_inv H as rp1 Hrp1.
  bind_inv H as v0 Hv0. bind_inv H as o0 Ho0.
  bind_inv H as v1 Hv1. bind_inv H as o1 Ho1.
  bind_inv H as fs1 Hfs1. bind_inv H as fs2 Hfs2.
  bind_inv H as fs3 Hfs3. bind_inv H as fs4 Hfs4.
  bind_inv H as m1 Hm1. bind_inv H as m2 Hm2.
  bind_inv H as m3 Hm3. bind_inv H as m4 Hm4.
  bind_inv H as ve1 Hve1. bind_inv H as ve2 Hve2.
  bind_inv H as ve3 Hve3. bind_inv H as ve4 Hve4.
  injection H as <- _. simpl.
  apply field_update_range in Hfs1 as [Hf0 Hl1].
  apply field_update_range in Hfs2 as [Hf1 _].
  unfold Field.size, Array.size in Hf0, Hf1. rewrite Hl1 in Hf1.
  apply unsafe_set_reverse_arrays in Hm1 as (E1 & _ & _).
  apply unsafe_set_reverse_arrays in Hm2 as (E2 & _ & _).
  apply unsafe_set_reverse_arrays in Hm3 as (E3 & _ & _).
  apply unsafe_set_reverse_arrays in Hm4 as (E4 & _ & _).
  simpl in E1. rewrite E4, E3, E2, E1 in Hve1.
  assert (∀ (mx : mesh) f i, 0 ≤ id f < Z.of_nat (length (Field.flat (faces_ m))) →
            0 ≤ i < 3 → Id_valid (halfedge mx f i) = true) as Hvalid.
  { intros mx f i Hf Hi. by apply (halfedge_Id_valid m). }
  apply links_ok_relink_all in Hve1; [|by apply Hvalid|done].
  apply links_ok_relink_all in Hve2; [|by apply Hvalid|done].
  apply links_ok_relink_all in Hve3; [|by apply Hvalid|done].
  apply links_ok_relink_all in Hve4; [done|by apply Hvalid|done].
Qed.

(** The limits of a mesh hold for a mesh with smaller arrays. *)
Lemma limits_le (m1 m2 : mesh) :
  (length (Field.flat (faces_ m1)) ≤ length (Field.flat (faces_ m2)))%nat →
  (length (Field.flat (vertex_to_edge_ m1))
   ≤ length (Field.flat (vertex_to_edge_ m2)))%nat →
  (length (boundaries_ m1) ≤ length (boundaries_ m2))%nat →
  within_limits m2 → invalid_id_outside m2 →
  within_limits m1 ∧ invalid_id_outside m1.
Proof.
  unfold within_limits, invalid_id_outside, Field.size, Array.size.
  intros Hf Hv Hb (? & ? & ?) Hout. split; [split_and!; lia | lia].
Qed.

Lemma split_face_links_links (m m' : mesh) (f : FaceId) (c : VertexId) :
  split_face_links m f c = Some m' →
  within_limits m' → invalid_id_outside m' →
  links_ok_except c (vertex_to_edge_ m) → links_ok (vertex_to_edge_ m').
Proof.
  unfold split_face_links. intros H Hlim Hout Hok.
  bind_inv H as fi Hfi. simpl in H.
  bind_inv H as fs1 Hfs1. bind_inv H as m1 Hm1. bind_inv H as m2 Hm2.
  bind_inv H as ve1 Hve1. bind_inv H as ve2 Hve2. bind_inv H as ve3 Hve3.
  injection H as <-. simpl in *.
  apply field_update_range in Hfs1 as [Hf Hl1].
  apply unsafe_set_reverse_arrays in Hm1 as (E1 & L1 & _).
  apply unsafe_set_reverse_arrays in Hm2 as (E2 & L2 & _).
  simpl in E1, L1. rewrite length_app in L1. simpl in L1.
  rewrite E2, E1 in Hve1.
  unfold Field.size, Array.size in *.
  set (L := length (Field.flat (faces_ m))) in *.
  assert (length (Field.flat (faces_ m2)) = (L + 2)%nat) as HL by lia.
  assert (int_add (Z.of_nat L) 1 = Z.of_nat L + 1) as Hadd.
  { apply int_add_small. destruct Hlim as (Hl & _). simpl in Hl.
    unfold Field.size, Array.size in Hl. rewrite HL in Hl.
    unfold is_int, int_min, int_max in *. lia. }
  assert (∀ (mx : mesh) g i, 0 ≤ id g < Z.of_nat L + 2 →
            0 ≤ i < 3 → Id_valid (halfedge mx g i) = true) as Hvalid.
  { intros mx g i Hg Hi.
    apply (halfedge_Id_valid (set_vertex_to_edge m2 ve3)); try done.
    simpl. unfold Field.size, Array.size. lia. }
  apply (links_ok_relink _ _ _ c) in Hve1;
    [|apply Hvalid; simpl; lia|done].
  apply (links_ok_relink _ _ _ c) in Hve2;
    [|apply Hvalid; simpl; lia|done].
  apply (links_ok_set _ _ c) in Hve3; [done| |done].
  apply Hvalid; simpl; lia.
Qed.

Lemma new_face_arrays (m : mesh) :
  vertex_to_edge_ (new_face m).1 = vertex_to_edge_ m ∧
  length (Field.flat (faces_ (new_face m).1))
  = S (length (Field.flat (faces_ m))) ∧
  length (boundaries_ (new_face m).1) = length (boundaries_ m) ∧
  id (new_face m).2 = Z.of_nat (length (Field.flat (faces_ m))).
Proof. simpl. rewrite length_app. simpl. split_and!; (done || lia). Qed.

Lemma unsafe_new_boundary_arrays (m m' : mesh) (s : VertexId) (r b : HalfedgeId) :
  unsafe_new_boundary m s r = Some (m', b) →
  vertex_to_edge_ m' = vertex_to_edge_ m ∧
  length (Field.flat (faces_ m')) = length (Field.flat (faces_ m)) ∧
  (length (boundaries_ m) ≤ length (boundaries_ m'))%nat ∧
  (within_limits m' → invalid_id_outside m' → Id_valid b = true).
Proof.
  unfold unsafe_new_boundary. intros H.
  destruct (Id_valid (erased_boundaries_ m)) eqn:Hv.
  - bind_inv H as b0 Hb0. bind_inv H as bs Hbs. injection H as <- <-.
    apply array_get_update in Hbs as [Hl _]. simpl.
    split_and!; (done || lia).
  - injection H as <- <-. simpl. rewrite length_app. simpl.
    split_and!; [done | done | lia |].
    intros (_ & _ & Hb) Hout.
    unfold invalid_id_outside, Array.size, Field.size in *.
    cbn [boundaries_ faces_] in *. rewrite length_app in *.
    cbn [length] in *.
    unfold Id_valid. cbn [id]. unfold int_sub.
    rewrite wrap_small by (unfold is_int, int_min, int_max in *; lia).
    apply negb_true_iff, Z.eqb_neq. unfold Array.size in *. lia.
Qed.

Lemma unsafe_split_halfedge_arrays (m m' : mesh) (h : HalfedgeId) (nf : FaceId)
    (c : VertexId) (hs : HalfedgeId * HalfedgeId) :
  unsafe_split_halfedge m h nf c = Some (m', hs) →
  length (Field.flat (vertex_to_edge_ m'))
  = length (Field.flat (vertex_to_edge_ m)) ∧
  length (Field.flat (faces_ m')) = length (Field.flat (faces_ m)) ∧
  length (boundaries_ m') = length (boundaries_ m).
Proof.
  unfold unsafe_split_halfedge. intros H.
  bind_inv H as n Hn. bind_inv H as p Hp. bind_inv H as rn Hrn.
  bind_inv H as b Hb. bind_inv H as x Hx. bind_inv H as fi Hfi.
  bind_inv H as vs Hvs. bind_inv H as fs1 Hfs1. bind_inv H as fs2 Hfs2.
  bind_inv H as m1 Hm1. bind_inv H as m2 Hm2. bind_inv H as ve1 Hve1.
  injection H as <- <-. simpl.
  apply field_update_range in Hfs1 as [_ Hl1].
  apply field_update_range in Hfs2 as [_ Hl2].
  apply unsafe_set_reverse_arrays in Hm1 as (E1 & L1 & B1).
  apply unsafe_set_reverse_arrays in Hm2 as (E2 & L2 & B2).
  simpl in E1, L1, B1. unfold relink_vertex in Hve1.
  apply field_update_range in Hve1 as [_ Hsz]. rewrite E2, E1 in Hsz.
  split_and!; lia.
Qed.

Lemma unsafe_split_halfedge_links (m m' : mesh) (h : HalfedgeId) (nf : FaceId)
    (c c0 : VertexId) (hs : HalfedgeId * HalfedgeId) :
  unsafe_split_halfedge m h nf c = Some (m', hs) →
  within_limits m → invalid_id_outside m →
  (links_ok_except c0 (vertex_to_edge_ m) →
   links_ok_except c0 (vertex_to_edge_ m')) ∧
  Id_valid hs.2 = true.
Proof.
  unfold unsafe_split_halfedge. intros H Hlim Hout.
  bind_inv H as n Hn. bind_inv H as p Hp. bind_inv H as rn Hrn.
  bind_inv H as b Hb. bind_inv H as x Hx. bind_inv H as fi Hfi.
  bind_inv H as vs Hvs. bind_inv H as fs1 Hfs1. bind_inv H as fs2 Hfs2.
  bind_inv H as m1 Hm1. bind_inv H as m2 Hm2. bind_inv H as ve1 Hve1.
  injection H as <- <-. simpl.
  apply field_update_range in Hfs1 as [Hf Hl1].
  apply field_update_range in Hfs2 as [Hnf Hl2].
  apply unsafe_set_reverse_arrays in Hm1 as (E1 & L1 & B1).
  apply unsafe_set_reverse_arrays in Hm2 as (E2 & L2 & B2).
  simpl in E1, L1, B1. rewrite E2, E1 in Hve1.
  unfold Field.size, Array.size in *. rewrite Hl1 in Hnf.
  assert (∀ (mx : mesh) i, 0 ≤ i < 3 → Id_valid (halfedge mx nf i) = true)
    as Hvalid.
  { intros mx i Hi. by apply (halfedge_Id_valid m). }
  split; [|by apply Hvalid].
  intros Hok. by apply (links_ok_relink _ _ _ c0) in Hve1; [|apply Hvalid|].
Qed.

Lemma split_edge_links_links (m m' : mesh) (e : HalfedgeId) (c : VertexId) :
  split_edge_links m e c = Some m' →
  within_limits m' → invalid_id_outside m' →
  links_ok_except c (vertex_to_edge_ m) → links_ok (vertex_to_edge_ m').
Proof.
  unfold split_edge_links. intros H Hlim Hout Hok.
  bind_inv H as h Hh. bind_inv H as r Hr.
  destruct (new_face m) as [mA nf] eqn:EA.
  pose proof (new_face_arrays m) as (VA & LA & BA & _).
  rewrite EA in VA, LA, BA. simpl in VA, LA, BA.
  bind_inv H as [mB [h0 h1]] HB.
  pose proof (unsafe_split_halfedge_arrays _ _ _ _ _ _ HB) as (VB & LB & BB).
  destruct (is_boundary mB r).
  - bind_inv H as nx Hnx. bind_inv H as [mC r'] HC.
    bind_inv H as mD HD. bind_inv H as mE HE.
    bind_inv H as mF HF. bind_inv H as mG HG.
    bind_inv H as ve1 Hve1. injection H as <-.
    apply unsafe_new_boundary_arrays in HC as (VC & LC & BC & HvC).
    apply unsafe_set_reverse_arrays in HD as (VD & LD & BD).
    apply unsafe_set_reverse_arrays in HE as (VE & LE & BE).
    apply unsafe_boundary_link_arrays in HF as (VF & LF & BF).
    apply unsafe_boundary_link_arrays in HG as (VG & LG & BG).
    pose proof (field_update_range _ _ _ _ Hve1) as [_ Lve].
    rewrite VG, VF, VE, VD, VC in Lve.
    pose proof (f_equal (λ ve, length (Field.flat ve)) VC) as LVC.
    simpl in LVC.
    destruct (limits_le mA (set_vertex_to_edge mG ve1)) as [HlimA HoutA];
      [simpl; lia .. | done | done |].
    destruct (limits_le mC (set_vertex_to_edge mG ve1)) as [HlimC HoutC];
      [simpl; lia .. | done | done |].
    destruct (unsafe_split_halfedge_links _ _ _ _ _ c _ HB HlimA HoutA)
      as [HokB _].
    rewrite VA in HokB. specialize (HokB Hok).
    rewrite VG, VF, VE, VD, VC in Hve1. simpl.
    apply (links_ok_set _ _ c) in Hve1; [done | by apply HvC | done].
  - destruct (new_face mB) as [mC nf'] eqn:EC.
    pose proof (new_face_arrays mB) as (VC & LC & BC & _).
    rewrite EC in VC, LC, BC. simpl in VC, LC, BC.
    bind_inv H as [mD [r0 r1]] HD.
    pose proof (unsafe_split_halfedge_arrays _ _ _ _ _ _ HD) as (VD & LD & BD).
    bind_inv H as mE HE. bind_inv H as mF HF.
    bind_inv H as ve1 Hve1. injection H as <-.
    apply unsafe_set_reverse_arrays in HE as (VE & LE & BE).
    apply unsafe_set_reverse_arrays in HF as (VF & LF & BF).
    pose proof (field_update_range _ _ _ _ Hve1) as [_ Lve].
    rewrite VF, VE in Lve.
    pose proof (f_equal (λ ve, length (Field.flat ve)) VC) as LVC.
    simpl in LVC.
    destruct (limits_le mA (set_vertex_to_edge mF ve1)) as [HlimA HoutA];
      [simpl; lia .. | done | done |].
    destruct (limits_le mC (set_vertex_to_edge mF ve1)) as [HlimC HoutC];
      [simpl; lia .. | done | done |].
    destruct (unsafe_split_halfedge_links _ _ _ _ _ c _ HB HlimA HoutA)
      as [HokB Hh1].
    rewrite VA in HokB. specialize (HokB Hok).
    destruct (unsafe_split_halfedge_links _ _ _ _ _ c _ HD HlimC HoutC)
      as [HokD _].
    rewrite VC in HokD. specialize (HokD HokB).
    rewrite VF, VE in Hve1. simpl.
    apply (links_ok_set _ _ c) in Hve1; [done | exact Hh1 | done].
Qed.

Lemma split_face_at_inv (m m' : mesh) (f : FaceId) (c : VertexId) :
  split_face_at m f c = Done (m', true) → split_face_links m f c = Some m'.
Proof.
  unfold split_face_at. intros H.
  apply outcome_bind_Done in H as (vf & _ & H).
  apply outcome_bind_Done in H as (vc & _ & H).
  destruct (negb (vf && vc)); [done|].
  apply outcome_bind_Done in H as (iso & _ & H).
  destruct (negb iso); [done|].
  by apply outcome_bind_Done in H as (m1 & Hm1%of_option_Done & [= <-]).
Qed.

Lemma split_edge_at_inv (m m' : mesh) (e : HalfedgeId) (c : VertexId) :
  split_edge_at m e c = Done (m', true) → split_edge_links m e c = Some m'.
Proof.
  unfold split_edge_at. intros H.
  apply outcome_bind_Done in H as (vf & _ & H).
  apply outcome_bind_Done in H as (vc & _ & H).
  destruct (negb (vf && vc)); [done|].
  apply outcome_bind_Done in H as (iso & _ & H).
  destruct (negb iso); [done|].
  by apply outcome_bind_Done in H as (m1 & Hm1%of_option_Done & [= <-]).
Qed.

(** An edit that succeeds within the limits leaves no isolated vertex if
    there was none. *)
Lemma apply_edit_links (fuel : nat) (m m' : mesh) (ed : edit) :
  apply_edit fuel m ed = Done (Some m') →
  within_limits m → invalid_id_outside m →
  within_limits m' → invalid_id_outside m' →
  links_ok (vertex_to_edge_ m) → links_ok (vertex_to_edge_ m').
Proof.
  intros H Hlim Hout Hlim' Hout' Hok.
  destruct ed as [e|f|f c|e|e c]; simpl in H.
  - apply outcome_bind_Done in H as ([m1 r] & H & Hr).
    destruct r as [x|e']; [done|]. injection Hr as <-.
    unfold flip_edge in H.
    apply outcome_bind_Done in H as (safe & _ & H).
    destruct safe; [|done].
    apply outcome_bind_Done in H as ([m2 e2] & H%of_option_Done & [= <- _]).
    by apply (unsafe_flip_edge_links _ _ _ _ H).
  - apply outcome_bind_Done in H as ([m1 r] & H & Hr).
    destruct r as [c|]; [|done]. injection Hr as <-.
    unfold split_face in H.
    apply outcome_bind_Done in H as (vf & _ & H).
    destruct vf; simpl in H; [|done].
    apply outcome_bind_Done in H as ([m2 ok] & H & Hr).
    destruct ok; [|done]. injection Hr as <- <-.
    apply split_face_at_inv in H.
    apply (split_face_links_links _ _ _ _ H); [done..|].
    apply (links_ok_add_vertex m Hok).
  - apply outcome_bind_Done in H as ([m1 ok] & H & Hr).
    destruct ok; [|done]. injection Hr as <-.
    apply split_face_at_inv in H.
    apply (split_face_links_links _ _ _ _ H); [done..|].
    by apply links_ok_weaken.
  - apply outcome_bind_Done in H as ([m1 r] & H & Hr).
    destruct r as [c|]; [|done]. injection Hr as <-.
    unfold split_edge in H.
    apply outcome_bind_Done in H as (ve & _ & H).
    destruct ve; simpl in H; [|done].
    apply outcome_bind_Done in H as ([m2 ok] & H & Hr).
    destruct ok; [|done]. injection Hr as <- <-.
    apply split_edge_at_inv in H.
    apply (split_edge_links_links _ _ _ _ H); [done..|].
    apply (links_ok_add_vertex m Hok).
  - apply outcome_bind_Done in H as ([m1 ok] & H & Hr).
    destruct ok; [|done]. injection Hr as <-.
    apply split_edge_at_inv in H.
    apply (split_edge_links_links _ _ _ _ H); [done..|].
    by apply links_ok_weaken.
Qed.

(** *** Sequences of edits *)

Lemma edit_steps_limits (eds : list edit) (m m' : mesh) :
  stays_within_limits m → edit_steps eds m m' → stays_within_limits m'.
Proof.
  revert m. induction eds as [|ed eds IH]; simpl; intros m Hm.
  - by intros ->.
  - intros (m1 & [_ Hm1] & Hrest). by apply (IH m1).
Qed.

(** In a mesh without isolated vertices, no split that is given an existing
    vertex succeeds, now or after other edits. *)
Lemma edit_steps_no_isolated (eds : list edit) (m m' : mesh) :
  stays_within_limits m → no_isolated_vertex m → edit_steps eds m m' →
  no_isolated_vertex m' ∧ Forall (λ ed, uses_isolated_vertex ed = false) eds.
Proof.
  revert m. induction eds as [|ed eds IH]; simpl; intros m Hm Hiso.
  - intros ->. by split.
  - intros (m1 & [[fuel Hrun] Hm1] & Hrest).
    assert (uses_isolated_vertex ed = false) as Hed.
    { destruct (uses_isolated_vertex ed) eqn:E; [|done].
      destruct (split_at_needs_isolated fuel m m1 ed E Hrun) as (c & Hc & Hi).
      specialize (Hiso c Hc). congruence. }
    assert (no_isolated_vertex m1) as Hiso1.
    { apply no_isolated_links. apply no_isolated_links in Hiso.
      destruct Hm as (_ & ? & ?). destruct Hm1 as (_ & ? & ?).
      by apply (apply_edit_links fuel m m1 ed). }
    destruct (IH m1 Hm1 Hiso1 Hrest) as [? ?]. split; [done|].
    by constructor.
Qed.

(** C5. Along any sequence of calls of [flip_edge], [split_face] and
    [split_edge] that succeed and stay within the limits of [int], the
    Euler characteristic [chi() = n_vertices() - n_edges() + n_faces()],
    with [n_edges() = (3*n_faces_+n_boundary_edges_)>>1], keeps its value
    if the mesh has no isolated vertex at the start, as a closed manifold
    mesh has none: a split that is given an existing isolated vertex does
    not succeed then, and there is no isolated vertex at the end either.
    On any mesh, [chi] goes down by one at each split that is given an
    existing isolated vertex, which stops being a component of its own,
    and is changed by nothing else; and [n_edges()] is the half of
    [3*n_faces_+n_boundary_edges_] before and after. *)
Theorem chi_invariant (eds : list edit) (m m' : mesh) :
  stays_within_limits m → edit_steps eds m m' →
  (no_isolated_vertex m → chi m' = chi m ∧ no_isolated_vertex m') ∧
  (Forall (λ ed, uses_isolated_vertex ed = false) eds → chi m' = chi m) ∧
  chi m' = wrap (chi m - Z.of_nat (length (filter (λ ed, uses_isolated_vertex ed = true) eds))) ∧
  n_edges m = (3 * n_faces m + n_boundary_edges m) `div` 2 ∧
  n_edges m' = (3 * n_faces m' + n_boundary_edges m') `div` 2.
Proof.
  intros Hm Hsteps.
  pose proof (edit_steps_limits eds m m' Hm Hsteps) as Hm'.
  assert (chi m' = wrap (chi m - Z.of_nat
            (length (filter (λ ed, uses_isolated_vertex ed = true) eds)))) as Hchi.
  { clear Hm'. revert m Hm Hsteps.
    induction eds as [|ed eds IH]; intros m Hm Hsteps; simpl in Hsteps.
    - subst m'. simpl. rewrite Z.sub_0_r. rewrite chi_small by apply Hm.
      by rewrite wrap_wrap.
    - destruct Hsteps as (m1 & Hstep & Hrest).
      rewrite (IH m1 (proj2 Hstep) Hrest).
      rewrite (edit_step_chi ed m m1 (proj1 Hm) Hstep).
      rewrite wrap_sub_l. f_equal.
      rewrite filter_cons.
      destruct (decide (uses_isolated_vertex ed = true)) as [E|E].
      + rewrite E. rewrite length_cons. lia.
      + destruct (uses_isolated_vertex ed); [done|]. lia. }
  assert (Forall (λ ed, uses_isolated_vertex ed = false) eds → chi m' = chi m)
    as Hnone.
  { intros Hall. rewrite Hchi.
    assert (filter (λ ed, uses_isolated_vertex ed = true) eds = []) as ->.
    { clear -Hall. induction Hall as [|ed eds Hed _ IH]; [done|].
      rewrite filter_cons, decide_False by congruence. done. }
    simpl. rewrite Z.sub_0_r. rewrite chi_small by apply Hm.
    by rewrite wrap_wrap. }
  split_and!; [ | done | done | apply n_edges_small, Hm | apply n_edges_small, Hm'].
  intros Hiso.
  destruct (edit_steps_no_isolated eds m m' Hm Hiso Hsteps) as [Hiso' Hall].
  split; [by apply Hnone | done].
Qed.

End Topology.

(* ================================================================== *)
(** ** The properties on the sample meshes *)

Lemma one_triangle_within_limits : within_limits one_triangle.
Proof. unfold within_limits; vm_compute; split_and!; intros; discriminate. Qed.

Lemma halfedge_encoding_witness :
  within_limits one_triangle ∧
  face sample_invalid_id one_triangle (halfedge one_triangle (MkId 0) 2) = MkId 0.
Proof.
  split; [exact one_triangle_within_limits|].
  destruct (halfedge_encoding sample_invalid_id sample_erased_id one_triangle
              one_triangle_within_limits) as [H _].
  apply (H (MkId 0) 2); [reflexivity | lia].
Defined.

Example outgoing_one_triangle :
  outgoing_list sample_invalid_id 3 one_triangle (MkId 0)
  = Done [MkId (-3); MkId 0].
Proof. reflexivity. Qed.

Lemma outgoing_walk_witness :
  ∃ l : list HalfedgeId,
    (∀ fuel, (length l < fuel)%nat →
             outgoing_list sample_invalid_id fuel one_triangle (MkId 0) = Done l) ∧
    length l = degree sample_erased_id one_triangle (MkId 0) ∧
    NoDup l ∧
    (∀ h, h ∈ l ↔ valid_halfedge sample_erased_id one_triangle h = Some true ∧
                  src one_triangle h = Some (MkId 0)) ∧
    (∀ i h, l !! i = Some h →
            left one_triangle h = l !! (S i `mod` length l)%nat) ∧
    (isolated sample_invalid_id one_triangle (MkId 0) = Some false →
       head l = halfedge_vertex one_triangle (MkId 0)) ∧
    (isolated sample_invalid_id one_triangle (MkId 0) = Some true → l = []).
Proof.
  apply (outgoing_walk sample_invalid_id sample_erased_id one_triangle (MkId 0)).
  - exact one_triangle_within_limits.
  - apply links_consistent_b_sound. vm_compute. reflexivity.
  - reflexivity.
  - apply manifold_at_b_sound. vm_compute. reflexivity.
Defined.

Lemma mutable_triangle_within_limits : fields_within_limits mutable_triangle.
Proof.
  split; [exact one_triangle_within_limits|].
  intros []; vm_compute; reflexivity.
Qed.

Example add_halfedge_field_triangle :
  ∃ mm', add_field sample_invalid_id 0 Halfedge true mutable_triangle sample_invalid_id
         = (mm', inr (MkFieldId true 0)) ∧
         field mm' (MkFieldId (k:=Halfedge) true 0) = FieldIs (Field.mk [0; 0; 0]) ∧
         field mm' (MkFieldId (k:=Halfedge) true 1) = FieldThrows KeyError ∧
         field mm' (MkFieldId (k:=Halfedge) false 0) = FieldThrows AssertionError.
Proof. eexists. split_and!; reflexivity. Qed.

Lemma field_registration_witness :
  ∃ mm', add_field sample_invalid_id 0 Vertex true mutable_triangle 7
         = (mm', inr (MkFieldId true 7)).
Proof.
  destruct (field_registration sample_invalid_id sample_erased_id 0
              mutable_triangle mutable_triangle_within_limits) as (_ & _ & H & _).
  apply H; [vm_compute; discriminate | reflexivity].
Defined.

Example flip_two_triangles :
  flip_edge sample_invalid_id sample_erased_id 10 two_triangles (MkId 1)
  = Done (two_triangles_flipped, inr (MkId 0)).
Proof. reflexivity. Qed.

Lemma two_triangles_within_limits : within_limits two_triangles.
Proof. unfold within_limits; vm_compute; split_and!; intros; discriminate. Qed.



Lemma one_triangle_manifold :
  manifold_mesh sample_invalid_id sample_erased_id one_triangle.
Proof.
  apply manifold_mesh_b_sound; [exact one_triangle_within_limits|].
  vm_compute. reflexivity.
Qed.

(** Inserting the triangle (0,1,2) a second time. *)
Example add_face_twice wire :
  add_face sample_invalid_id wire 7 one_triangle
           (Vector3.mk (MkId 0) (MkId 1) (MkId 2))
  = Done (one_triangle, inl ValueError).
Proof. reflexivity. Qed.

Lemma add_face_taken_edge_witness :
  ∃ m', add_face sample_invalid_id (λ _ _, Fault) 7 one_triangle
          (Vector3.mk (MkId 0) (MkId 1) (MkId 2))
        = Done (m', inl ValueError) ∧ m' = one_triangle.
Proof.
  destruct (add_face_taken_edge sample_invalid_id sample_erased_id (λ _ _, Fault)
              one_triangle (Vector3.mk (MkId 0) (MkId 1) (MkId 2))
              (MkId 0) (MkId 0) (MkId 1) 7)
    as (m' & H & Hm & _).
  - exact one_triangle_manifold.
  - apply no_duplicate_edges_b_sound. vm_compute. reflexivity.
  - left. vm_compute. reflexivity.
  - vm_compute. lia.
  - reflexivity.
  - reflexivity.
  - reflexivity.
  - reflexivity.
  - reflexivity.
  - reflexivity.
  - reflexivity.
  - left. done.
  - exists m'. done.
Defined.

Lemma tetrahedron_within_limits : within_limits tetrahedron.
Proof. unfold within_limits; vm_compute; split_and!; intros; discriminate. Qed.

Lemma tetrahedron_manifold :
  manifold_mesh sample_invalid_id sample_erased_id tetrahedron.
Proof.
  apply manifold_mesh_b_sound; [exact tetrahedron_within_limits|].
  vm_compute. reflexivity.
Qed.

(** The splits and the flip of the model on the closed mesh: the result is
    closed and manifold again. *)
Example tetrahedron_edits_run :
  apply_edits sample_invalid_id sample_erased_id 20 tetrahedron
    [SplitFace (MkId 0); FlipEdge (MkId 0); SplitEdge (MkId 7)]
  = Done (Some tetrahedron_edited) ∧
  manifold_mesh_b sample_invalid_id sample_erased_id tetrahedron_edited = true ∧
  no_duplicate_edges_b sample_erased_id tetrahedron_edited = true ∧
  n_boundary_edges tetrahedron_edited = 0 ∧
  chi tetrahedron_edited = 2.
Proof. split_and!; vm_compute; reflexivity. Qed.

(** A split of a boundary edge: one new face and one new boundary
    halfedge. *)
Example two_triangles_split_run :
  split_edge sample_invalid_id sample_erased_id two_triangles (MkId (-1))
  = Done (two_triangles_split, Some (MkId 4)) ∧
  manifold_mesh_b sample_invalid_id sample_erased_id two_triangles_split = true ∧
  chi two_triangles_split = chi two_triangles.
Proof. split_and!; vm_compute; reflexivity. Qed.

(** A split at an existing isolated vertex: [chi] goes from 3 to 2. *)
Example tetrahedron_split_at_vertex_run :
  split_face_at sample_invalid_id sample_erased_id tetrahedron_and_vertex
    (MkId 2) (MkId 4)
  = Done (tetrahedron_split_at_vertex, true) ∧
  manifold_mesh_b sample_invalid_id sample_erased_id tetrahedron_split_at_vertex
  = true ∧
  chi tetrahedron_and_vertex = 3 ∧ chi tetrahedron_split_at_vertex = 2.
Proof. split_and!; vm_compute; reflexivity. Qed.

Ltac sample_limits :=
  split_and!;
  [ vm_compute; split_and!; intros; discriminate
  | unfold within_limits; vm_compute; split_and!; intros; discriminate
  | left; vm_compute; reflexivity ].

(** With no isolated vertex to give, the split at a vertex fails and
    changes nothing. *)
Example tetrahedron_split_at_used_vertex :
  split_face_at sample_invalid_id sample_erased_id tetrahedron (MkId 2) (MkId 1)
  = Done (tetrahedron, false) ∧
  split_edge_at sample_invalid_id sample_erased_id tetrahedron (MkId 7) (MkId 1)
  = Done (tetrahedron, false).
Proof. split; vm_compute; reflexivity. Qed.

Lemma tetrahedron_no_isolated :
  no_isolated_vertex sample_invalid_id sample_erased_id tetrahedron.
Proof.
  apply no_isolated_links. intros w h Hg. right.
  unfold Field.get in Hg. rewrite array_get_unfold in Hg.
  destruct (0 <=? idx w); [|done]. simpl in Hg.
  destruct (Z.to_nat (idx w)) as [|[|[|[|?]]]]; simpl in Hg; try done;
    injection Hg as <-; reflexivity.
Qed.

Lemma tetrahedron_edit_steps :
  edit_steps sample_invalid_id sample_erased_id
    [SplitFace (MkId 0); FlipEdge (MkId 0); SplitEdge (MkId 7)]
    tetrahedron tetrahedron_edited.
Proof.
  eexists. split.
  { split; [exists 20%nat; vm_compute; reflexivity|]. sample_limits. }
  eexists. split.
  { split; [exists 20%nat; vm_compute; reflexivity|]. sample_limits. }
  eexists. split.
  { split; [exists 20%nat; vm_compute; reflexivity|]. sample_limits. }
  vm_compute. reflexivity.
Qed.

Lemma chi_invariant_witness :
  chi tetrahedron_edited = chi tetrahedron ∧
  no_isolated_vertex sample_invalid_id sample_erased_id tetrahedron_edited.
Proof.
  destruct (chi_invariant sample_invalid_id sample_erased_id
              [SplitFace (MkId 0); FlipEdge (MkId 0); SplitEdge (MkId 7)]
              tetrahedron tetrahedron_edited) as (H & _).
  - sample_limits.
  - exact tetrahedron_edit_steps.
  - apply H. exact tetrahedron_no_isolated.
Defined.

Example collect_garbage_triangle :
  collect_garbage sample_invalid_id sample_erased_id triangle_with_garbage
  = (MkMutable one_triangle
       [MkUntypedArray true [11; 12; 13]] [] [MkUntypedArray false [23; 24; 25]]
       {[ 0 := 0 ]} ∅ {[ 1 := 0 ]} 2,
     ([sample_invalid_id; 0; 1; 2], [sample_invalid_id; 0],
      [sample_invalid_id; 0; 1; 2])).
Proof. reflexivity. Qed.

Lemma collect_garbage_idempotent_witness :
  collect_garbage sample_invalid_id sample_erased_id
    (collect_garbage sample_invalid_id sample_erased_id triangle_with_garbage).1
  = ((collect_garbage sample_invalid_id sample_erased_id triangle_with_garbage).1,
     ([0; 1; 2], [0], [0; 1; 2])).
Proof.
  destruct (collect_garbage_idempotent sample_invalid_id sample_erased_id
              triangle_with_garbage) as [H _].
  - unfold within_limits; vm_compute; split_and!; intros; discriminate.
  - unfold erased_id_outside. split_and!; vm_compute.
    + discriminate.
    + intros [_ H]. discriminate H.
    + intros [_ H]. discriminate H.
  - exact H.
Defined.

Lemma unsafe_set_erased_boundary_witness :
  ∃ m', unsafe_set_erased_halfedge sample_erased_id one_triangle (MkId (-2)) = Some m' ∧
        n_boundary_edges_ m' = 2.
Proof.
  destruct (unsafe_set_erased_boundary sample_erased_id one_triangle (MkId (-2)))
    as (m' & old & H & _ & _ & _ & Hn & _).
  - reflexivity.
  - vm_compute. split; [reflexivity | discriminate].
  - exists m'. split; [exact H | exact Hn].
Defined.

(** *** The further properties on the sample meshes *)

Lemma next_prev_in_face_witness :
  ∃ n p : HalfedgeId,
    next one_triangle (MkId 2) = Some n ∧ prev one_triangle (MkId 2) = Some p ∧
    prev one_triangle n = Some (MkId 2) ∧ next one_triangle p = Some (MkId 2) ∧
    next one_triangle n = Some p.
Proof.
  destruct (next_prev_in_face sample_invalid_id sample_erased_id one_triangle (MkId 2))
    as (n & p & H1 & H2 & H3 & H4 & H5 & _).
  - exact one_triangle_within_limits.
  - reflexivity.
  - reflexivity.
  - exists n, p. done.
Defined.

Lemma corner_vertices_witness :
  src two_triangles (halfedge two_triangles (MkId 1) 2)
    = vertex two_triangles (MkId 1) 2 ∧
  dst two_triangles (halfedge two_triangles (MkId 1) 2)
    = vertex two_triangles (MkId 1) 0.
Proof.
  destruct (corner_vertices sample_invalid_id sample_erased_id two_triangles
              two_triangles_within_limits) as [H _].
  destruct (H (MkId 1) 2) as (_ & Hs & Hd & _); [reflexivity | lia |].
  split; [exact Hs | exact Hd].
Defined.

Example opposite_face_two_triangles :
  opposite_face sample_erased_id two_triangles (MkId 1) (MkId 3) = Some (MkId 5) ∧
  opposite two_triangles (MkId 5) = Some (MkId 3).
Proof. split; reflexivity. Qed.

Lemma opposite_face_round_trip_witness :
  ∃ h, opposite_face sample_erased_id two_triangles (MkId 1) (MkId 3) = Some h ∧
       opposite two_triangles h = Some (MkId 3).
Proof.
  destruct (opposite_face_round_trip sample_invalid_id sample_erased_id
              two_triangles (MkId 1)) as (vs & Hvs & H & _).
  - exact two_triangles_within_limits.
  - reflexivity.
  - vm_compute in Hvs. injection Hvs as <-.
    destruct (H (MkId 3)) as (h & E & _ & _ & _ & Ho); [reflexivity|].
    exists h. split; [exact E | exact Ho].
Defined.

Lemma left_right_inverse_witness :
  ∃ l, left one_triangle (MkId 0) = Some l ∧ right one_triangle l = Some (MkId 0).
Proof.
  destruct (left_right_inverse sample_erased_id one_triangle (MkId 0))
    as [(l & E & _ & _ & Er) _].
  - exact one_triangle_within_limits.
  - apply links_consistent_b_sound. vm_compute. reflexivity.
  - reflexivity.
  - exists l. split; [exact E | exact Er].
Defined.

Example incoming_one_triangle :
  incoming_list sample_invalid_id 3 one_triangle (MkId 0)
  = Done [MkId 2; MkId (-1)].
Proof. reflexivity. Qed.

Lemma incoming_walk_witness :
  ∃ lo li : list HalfedgeId,
    (∀ fuel, (length lo < fuel)%nat →
       outgoing_list sample_invalid_id fuel one_triangle (MkId 0) = Done lo ∧
       incoming_list sample_invalid_id fuel one_triangle (MkId 0) = Done li) ∧
    NoDup li.
Proof.
  destruct (incoming_walk sample_invalid_id sample_erased_id one_triangle (MkId 0))
    as (lo & li & H & _ & Hnd & _).
  - exact one_triangle_within_limits.
  - apply links_consistent_b_sound. vm_compute. reflexivity.
  - reflexivity.
  - apply manifold_at_b_sound. vm_compute. reflexivity.
  - exists lo, li. split; [exact H | exact Hnd].
Defined.

(** The ids that are not erased in the mesh with garbage. *)
Example ranges_with_garbage :
  vertices_range sample_erased_id 5 (base triangle_with_garbage)
    = Done [MkId 1; MkId 2; MkId 3] ∧
  faces_range sample_erased_id 3 (base triangle_with_garbage) = Done [MkId 1] ∧
  boundary_edges_range sample_erased_id 5 (base triangle_with_garbage)
    = Done [MkId (-4); MkId (-3); MkId (-2)] ∧
  interior_halfedges_range sample_erased_id 7 (base triangle_with_garbage)
    = Done [MkId 3; MkId 4; MkId 5] ∧
  halfedges_range sample_erased_id 11 (base triangle_with_garbage)
    = Done [MkId (-4); MkId (-3); MkId (-2); MkId 3; MkId 4; MkId 5].
Proof. split_and!; reflexivity. Qed.

Lemma skipping_ranges_witness :
  vertices_range sample_erased_id 11 (base triangle_with_garbage)
    = Done (filter (λ v, valid_vertex sample_erased_id (base triangle_with_garbage) v
                         = Some true)
                   (all_vertices (base triangle_with_garbage))) ∧
  halfedges_range sample_erased_id 11 (base triangle_with_garbage)
    = Done (filter (λ e, valid_halfedge sample_erased_id (base triangle_with_garbage) e
                         = Some true)
                   (all_halfedges (base triangle_with_garbage))).
Proof.
  destruct (skipping_ranges sample_erased_id (base triangle_with_garbage) 11)
    as (Hv & _ & _ & _ & Hh).
  - unfold within_limits; vm_compute; split_and!; intros; discriminate.
  - vm_compute. lia.
  - vm_compute. lia.
  - split; [exact Hv | exact Hh].
Defined.

Lemma all_ranges_witness :
  all_halfedges two_triangles
  = all_boundary_edges two_triangles ++ all_interior_halfedges two_triangles.
Proof.
  destruct (all_ranges two_triangles two_triangles_within_limits) as [H _].
  exact H.
Defined.

Lemma unsafe_boundary_link_spec_witness :
  ∃ m', unsafe_boundary_link one_triangle (MkId (-1)) (MkId (-2)) = Some m' ∧
        next m' (MkId (-1)) = Some (MkId (-2)) ∧
        prev m' (MkId (-2)) = Some (MkId (-1)).
Proof.
  destruct (unsafe_boundary_link_spec sample_erased_id one_triangle
              (MkId (-1)) (MkId (-2))) as [H _].
  destruct H as (m' & E & Hn & Hp & _); [reflexivity | reflexivity |].
  exists m'. done.
Defined.

Lemma unsafe_interior_link_spec_witness :
  ∃ m', unsafe_interior_link two_triangles (MkId 0) (MkId 3) = Some m' ∧
        reverse m' (MkId 0) = Some (MkId 3) ∧ reverse m' (MkId 3) = Some (MkId 0).
Proof.
  destruct (unsafe_interior_link_spec sample_erased_id two_triangles
              (MkId 0) (MkId 3)) as [H _].
  destruct H as (m' & E & H0 & H1 & _);
    [reflexivity | reflexivity | reflexivity | reflexivity |].
  exists m'. done.
Defined.

Lemma unsafe_set_reverse_spec_witness :
  ∃ m', unsafe_set_reverse one_triangle (MkId 0) 0 (MkId (-2)) = Some m' ∧
        reverse m' (halfedge one_triangle (MkId 0) 0) = Some (MkId (-2)) ∧
        reverse m' (MkId (-2)) = Some (halfedge one_triangle (MkId 0) 0).
Proof.
  destruct (unsafe_set_reverse_spec sample_erased_id one_triangle (MkId 0) 0
              (MkId (-2))) as (m' & E & H0 & H1 & _).
  - exact one_triangle_within_limits.
  - reflexivity.
  - lia.
  - reflexivity.
  - exists m'. done.
Defined.

Lemma unsafe_set_erased_vertex_spec_witness :
  ∃ m', unsafe_set_erased_vertex sample_erased_id one_triangle (MkId 0) = Some m' ∧
        valid_vertex sample_erased_id m' (MkId 0) = Some false ∧
        valid_halfedge sample_erased_id m' (MkId 0) = Some true ∧
        src m' (MkId 0) = Some (MkId 0).
Proof.
  destruct (unsafe_set_erased_vertex_spec sample_erased_id one_triangle (MkId 0))
    as [H _].
  destruct H as (m' & m'' & E & _ & _ & Hv & _ & _ & _ & _ & _ & _ & _ & _ & He & _).
  - reflexivity.
  - vm_compute. split; [reflexivity | discriminate].
  - exists m'. destruct (He (MkId 0)) as [Hv0 Hs0].
    split_and!; [exact E | exact Hv | exact (eq_trans Hv0 eq_refl)
                | exact (eq_trans Hs0 eq_refl)].
Defined.

Lemma unsafe_set_erased_face_spec_witness :
  ∃ m', unsafe_set_erased_face sample_erased_id two_triangles (MkId 1) = Some m' ∧
        valid_halfedge sample_erased_id m' (halfedge two_triangles (MkId 1) 0)
          = Some false ∧
        reverse m' (MkId 1) = Some (MkId 5).
Proof.
  destruct (unsafe_set_erased_face_spec sample_invalid_id sample_erased_id
              two_triangles (MkId 1) two_triangles_within_limits) as [H _].
  destruct H as (m' & fi & E & _ & _ & _ & _ & Hh & _ & _ & Hr & _).
  - reflexivity.
  - vm_compute. split; [reflexivity | discriminate].
  - exists m'. destruct (Hh 0 ltac:(lia)) as [_ Hv].
    split_and!; [exact E | exact Hv | rewrite Hr; reflexivity].
Defined.

Lemma erased_boundaries_stack_witness :
  ∃ m1 m2,
    unsafe_set_erased_halfedge sample_erased_id one_triangle (MkId (-1)) = Some m1 ∧
    unsafe_set_erased_halfedge sample_erased_id m1 (MkId (-2)) = Some m2 ∧
    erased_boundaries_ m2 = MkId (-2) ∧
    next m2 (MkId (-2)) = Some (MkId (-1)) ∧
    next m2 (MkId (-1)) = Some (MkId sample_invalid_id).
Proof.
  destruct (erased_boundaries_stack sample_erased_id one_triangle
              (MkId (-1)) (MkId (-2)))
    as (m1 & m2 & E1 & E2 & Hh & Hn2 & Hn1 & _).
  - reflexivity.
  - reflexivity.
  - vm_compute. split; [reflexivity | discriminate].
  - exists m1, m2. split_and!; [exact E1 | exact E2 | exact Hh | exact Hn2 |].
    apply Hn1. discriminate.
Defined.

Lemma erased_ids_are_skipped_witness :
  ∃ m' lf lh,
    unsafe_set_erased_face sample_erased_id two_triangles (MkId 1) = Some m' ∧
    faces_range sample_erased_id 20 two_triangles = Done lf ∧
    faces_range sample_erased_id 20 m' = Done (filter (λ g, g ≠ MkId 1) lf) ∧
    interior_halfedges_range sample_erased_id 20 two_triangles = Done lh ∧
    interior_halfedges_range sample_erased_id 20 m'
      = Done (filter (λ e, face sample_invalid_id two_triangles e ≠ MkId 1) lh).
Proof.
  destruct (erased_ids_are_skipped sample_invalid_id sample_erased_id two_triangles 20)
    as (_ & Hf & _).
  - exact two_triangles_within_limits.
  - vm_compute. lia.
  - vm_compute. lia.
  - apply (Hf (MkId 1)). reflexivity.
Defined.

Lemma garbage_ids_below_next : ids_below_next triangle_with_garbage.
Proof.
  intros k i [x Hx]. destruct k; simpl in Hx.
  - apply lookup_singleton_Some in Hx as [<- _]. reflexivity.
  - by rewrite lookup_empty in Hx.
  - apply lookup_singleton_Some in Hx as [<- _]. reflexivity.
Qed.

Lemma add_field_fresh_ids_witness :
  ∃ mm', add_field sample_invalid_id 0 Vertex true triangle_with_garbage
           sample_invalid_id
         = (mm', inr (MkFieldId true 2)) ∧
         next_field_id mm' = 3 ∧ ids_below_next mm'.
Proof.
  destruct (add_field_fresh_ids sample_invalid_id 0 Vertex true
              triangle_with_garbage sample_invalid_id)
    as (mm' & j & E & Hj & Hn & _ & Hb & _).
  - exact garbage_ids_below_next.
  - vm_compute. split; [discriminate | reflexivity].
  - left. reflexivity.
  - exists mm'. vm_compute in Hj. subst j. done.
Defined.

Lemma add_field_duplicate_witness :
  ∃ mm', add_field sample_invalid_id 0 Vertex true triangle_with_garbage 5
         = (mm', inr (MkFieldId true 5)) ∧
         ∃ mm'', add_field sample_invalid_id 0 Vertex false mm' 5
                 = (mm'', inl AssertionError) ∧
                 vertex_fields mm'' = vertex_fields mm' ∧
                 next_field_id mm'' = 6.
Proof.
  eexists. split; [reflexivity|].
  destruct (add_field_duplicate sample_invalid_id 0 Vertex false
              (add_field sample_invalid_id 0 Vertex true triangle_with_garbage 5).1 5)
    as (mm'' & E & _ & Hf & Hn).
  - vm_compute. eauto.
  - exists mm''. destruct (Hf Vertex) as [Hv _].
    split_and!; [exact E | exact Hv | exact Hn].
Defined.

Lemma add_field_frame_witness :
  ∃ mm', add_field sample_invalid_id 0 Vertex false triangle_with_garbage 5
         = (mm', inr (MkFieldId false 5)) ∧
         field mm' (MkFieldId (k:=Vertex) true 0)
           = FieldIs (Field.mk [10; 11; 12; 13]) ∧
         has_field sample_invalid_id mm' (MkFieldId (k:=Vertex) false 5) = true.
Proof.
  eexists. split; [reflexivity|].
  destruct (add_field_frame sample_invalid_id 0 Vertex false
              triangle_with_garbage
              (add_field sample_invalid_id 0 Vertex false triangle_with_garbage 5).1
              5 (MkFieldId false 5))
    as (_ & _ & Hsame & _ & Hnew).
  - intros k i j Hj. destruct k; simpl in Hj.
    + apply lookup_singleton_Some in Hj as [_ <-]. vm_compute. split; [discriminate | reflexivity].
    + by rewrite lookup_empty in Hj.
    + apply lookup_singleton_Some in Hj as [_ <-]. vm_compute. split; [discriminate | reflexivity].
  - intros []; vm_compute; reflexivity.
  - reflexivity.
  - destruct (Hsame (MkFieldId true 0)) as [Hf _]; [simpl; lia|].
    split; [exact (eq_trans Hf eq_refl) | apply Hnew; vm_compute; discriminate].
Defined.

Example Field_of_table_sample :
  Field_of_table (k:=Vertex) {[ 1 := 5; 0 := 7 ]} 3 0 = Some (Field.mk [7; 5; 0]) ∧
  Field_of_table (k:=Vertex) {[ 1 := 5; 3 := 7 ]} 3 0 = None.
Proof. split; reflexivity. Qed.

Lemma Field_of_table_lookup_witness :
  ∃ f : Field.t Z Vertex,
    Field_of_table {[ 1 := 5 ]} 3 0 = Some f ∧ Field.size f = 3 ∧
    Field.get f (MkId 1) = Some 5 ∧ Field.get f (MkId 2) = Some 0.
Proof.
  destruct (Field_of_table_lookup (k:=Vertex) {[ 1 := 5 ]} 3 0) as [H _]; [lia|].
  destruct H as (f & E & Hs & Hg).
  - intros key [x Hx]. apply lookup_singleton_Some in Hx as [<- _]. lia.
  - exists f. split_and!; [exact E | exact Hs | |].
    + rewrite Hg. unfold Field.valid, Array.valid, Field.size in *.
      rewrite Hs. reflexivity.
    + rewrite Hg. unfold Field.valid, Array.valid, Field.size in *.
      rewrite Hs. reflexivity.
Defined.

Lemma neighbor_tuples_witness :
  ∃ vs fs,
    vertices_face two_triangles (MkId 0) = Some vs ∧
    faces_face sample_invalid_id two_triangles (MkId 0) = Some fs ∧
    Vector3.get fs 1
      = face sample_invalid_id two_triangles
          <$> reverse two_triangles (halfedge two_triangles (MkId 0) 1).
Proof.
  destruct (neighbor_tuples sample_invalid_id sample_erased_id two_triangles (MkId 0))
    as (vs & fs & Hvs & Hfs & H).
  - exact two_triangles_within_limits.
  - reflexivity.
  - exists vs, fs. destruct (H 1 ltac:(lia)) as (_ & _ & _ & Hf & _).
    split_and!; [exact Hvs | exact Hfs | exact Hf].
Defined.

Lemma corrupted_left_cycle (k : nat) :
  left_iter corrupted_triangle (S k) (MkId (-3)) = Some (MkId 0).
Proof.
  assert (∀ k, left_iter corrupted_triangle k (MkId 0) = Some (MkId 0)) as H0.
  { clear k. induction k as [|k IH]; [done|]. exact IH. }
  exact (H0 k).
Qed.

Lemma outgoing_never_returns_witness :
  outgoing_list sample_invalid_id 1000 corrupted_triangle (MkId 0) = OutOfFuel.
Proof.
  apply (outgoing_never_returns sample_invalid_id corrupted_triangle (MkId 0)
           (MkId (-3))).
  - reflexivity.
  - reflexivity.
  - intros k Hk. destruct k as [|k]; [lia|].
    exists (MkId 0). split; [apply corrupted_left_cycle | discriminate].
Defined.

(* ================================================================== *)
(** ** Properties of the filtered predicates *)

Section FilterProperties.
Context {Interval : Type}.
Variable weak_sign : Interval → Z.

(** X22. Checking does not change what a filtered predicate answers: if
    [FILTER] with [CHECK] on returns a boolean, then the slow expression
    has that value and [FILTER] with [CHECK] off returns it as well.  With
    [CHECK] on the slow expression is always evaluated, and the call throws
    [AssertionError] exactly when the sign of the interval is known and
    differs from the slow answer; with [CHECK] off a known sign is the
    answer, whatever the slow expression would do. *)
Theorem filter_checked_agrees (fast : Interval) (slow : exception + bool)
    (line : Z) :
  (∀ r, FILTER_checked weak_sign fast slow line = inr r →
        slow = inr r ∧ FILTER weak_sign fast slow = inr r) ∧
  (∀ b, slow = inr b →
        (FILTER_checked weak_sign fast slow line = inl AssertionError ↔
         weak_sign fast ≠ 0 ∧ (0 <? weak_sign fast) ≠ b)) ∧
  (∀ x, slow = inl x → FILTER_checked weak_sign fast slow line = inl x) ∧
  (weak_sign fast ≠ 0 → FILTER weak_sign fast slow = inr (0 <? weak_sign fast)) ∧
  (weak_sign fast = 0 → FILTER weak_sign fast slow = slow).
Proof.
  unfold FILTER_checked, filter_helper, FILTER.
  destruct (Z.eqb_spec (weak_sign fast) 0) as [E0|E0]; simpl.
  - split_and!; try done.
    + destruct slow as [x|b]; [done|]. by intros r [= <-].
    + intros b ->. split; [done | tauto].
    + by intros x ->.
  - split_and!; try done.
    + destruct slow as [x|b]; [done|].
      case_bool_decide as Hb; simpl; [|done]. intros r [= <-]. by rewrite Hb.
    + intros b ->. case_bool_decide as Hb; simpl; split; try done; tauto.
    + by intros x ->.
Qed.

End FilterProperties.

Lemma filter_checked_agrees_witness :
  FILTER (λ x : Z, x) 1 (inr true) = inr true ∧
  FILTER (λ x : Z, x) 1 (inl RuntimeError) = inr true.
Proof.
  destruct (filter_checked_agrees (λ x : Z, x) 1 (inr true) 7) as (H & _).
  destruct (filter_checked_agrees (λ x : Z, x) 1 (inl RuntimeError) 7)
    as (_ & _ & _ & H' & _).
  split; [apply (H true); reflexivity | apply H'; discriminate].
Defined.

Lemma dst_on_boundary_witness :
  ∃ n, next one_triangle (MkId (-1)) = Some n ∧
       dst one_triangle (MkId (-1)) = src one_triangle n.
Proof.
  destruct (dst_on_boundary one_triangle (MkId (-1))) as (n & En & Hd & _).
  - reflexivity.
  - reflexivity.
  - exists n. split; [exact En|]. apply Hd.
    vm_compute in En. injection En as <-. reflexivity.
Defined.
